(** * gpx_to_svg: the coordinate normaliser and the path serialiser

    A shallow embedding of [scripts/gpx_to_svg.py].  The script computes
    with Python floats; the embedding is written once over an interface of
    the float operations the script uses ([PyFloat]) and is then read in two
    arithmetics:

    - [binary64]: IEEE 754 double precision as Python has it (round to
      nearest even, on [spec_float]), with the C library's [sin], [cos],
      [asin] and [pow] as parameters ([Libm]);
    - [Rexact]: the real numbers of the specification's data model, where
      no operation rounds.

    Structural properties are proved for every arithmetic, so they hold of
    the binary64 program.  Metric properties are proved in exact arithmetic
    and in binary64: for the latter the operations of [spec_float] are
    shown to round the exact result to nearest ([Values], [ValuesFacts]),
    and binary64 runs show where rounding departs from the exact bounds. *)

From Stdlib Require Import ZArith String Ascii Bool List Sorted Lia.
From Stdlib Require Import DecimalString DecimalPos DecimalN.
From Stdlib Require Import Floats.
From Stdlib Require Import Reals Lra Psatz.
Import ListNotations.

Set Warnings "-inexact-float".

(** ** Exceptions *)

(** The exceptions the arithmetic of the script can raise. *)
Inductive exn : Type :=
| ZeroDivisionError
| ValueError
| OverflowError.

Inductive result (A : Type) : Type :=
| Ok (a : A)
| Raise (e : exn).

Arguments Ok {A} a.
Arguments Raise {A} e.

Definition bind {A B : Type} (c : result A) (k : A -> result B) : result B :=
  match c with
  | Ok a => k a
  | Raise e => Raise e
  end.

Notation "x <- c ;; k" := (bind c (fun x => k))
  (at level 61, c at next level, right associativity).

(** ** The float operations of the script *)

Class PyFloat : Type := {
  num : Type;
  (** [float(n)] for the integer constants of the script *)
  of_int : Z -> num;
  add : num -> num -> num;
  sub : num -> num -> num;
  mul : num -> num -> num;
  (** the quotient computed by [a / b] once [b] is known not to be zero *)
  div : num -> num -> num;
  (** [b == 0.0], the test [a / b] makes before dividing *)
  is_zero : num -> bool;
  (** [a < b] *)
  ltb : num -> num -> bool;
  (** [math.radians] *)
  radians : num -> num;
  math_sin : num -> result num;
  math_cos : num -> result num;
  math_asin : num -> result num;
  math_sqrt : num -> result num;
  (** [x ** 2] *)
  pow2 : num -> result num;
  (** [round(x, 2)] *)
  round2 : num -> result num;
  (** [round(x)], a Python [int] *)
  round0 : num -> result Z;
  (** [f"{x:.2f}"] *)
  fmt2 : num -> string
}.

(** What the script relies on to keep its divisions safe, and where an
    exception of the arithmetic can come from. *)
Class PyLaws (F : PyFloat) : Prop := {
  pos_not_zero : forall x : num, ltb (of_int 0) x = true -> is_zero x = false;
  two_not_zero : is_zero (of_int 2) = false;
  sin_exn : forall x, math_sin x <> Raise ZeroDivisionError;
  cos_exn : forall x, math_cos x <> Raise ZeroDivisionError;
  asin_exn : forall x, math_asin x <> Raise ZeroDivisionError;
  sqrt_exn : forall x, math_sqrt x <> Raise ZeroDivisionError;
  pow2_exn : forall x, pow2 x <> Raise ZeroDivisionError;
  round2_exn : forall x, round2 x <> Raise ZeroDivisionError;
  round0_exn : forall x, round0 x <> Raise ZeroDivisionError
}.

(** [sep.join(parts)] *)
Fixpoint join (sep : string) (parts : list string) : string :=
  match parts with
  | [] => EmptyString
  | [s] => s
  | s :: rest => (s ++ sep ++ join sep rest)%string
  end.

(** Decimal text of a natural number, and a count of hundredths printed
    with two places, as [format] prints a float with [.2f]. *)
Definition dec (n : Z) : string :=
  NilZero.string_of_uint (N.to_uint (Z.to_N n)).

Definition two_digits (n : Z) : string :=
  if (n <? 10)%Z then ("0" ++ dec n)%string else dec n.

Definition fixed2 (negative : bool) (hundredths : Z) : string :=
  ((if negative then "-" else "") ++ dec (hundredths / 100) ++ "."
   ++ two_digits (hundredths mod 100))%string.

(** Reading such a text back. *)

(** The text before the decimal point and the text after it. *)
Fixpoint before_point (s : string) : option (string * string) :=
  match s with
  | EmptyString => None
  | String c rest =>
      if Ascii.eqb c "." then Some (EmptyString, rest)
      else match before_point rest with
           | Some (whole, frac) => Some (String c whole, frac)
           | None => None
           end
  end.

(** The number a text of decimal digits stands for. *)
Definition digits_value (s : string) : option Z :=
  option_map (fun d => Z.of_N (N.of_uint d)) (NilZero.uint_of_string s).

(** A decimal text with two places read back: whether it starts with a
    minus sign, and the count of hundredths its digits stand for. *)
Definition read_fixed2 (s : string) : option (bool * Z) :=
  let (negative, body) :=
    match s with
    | String c rest => if Ascii.eqb c "-" then (true, rest) else (false, s)
    | EmptyString => (false, s)
    end in
  match before_point body with
  | Some (whole, frac) =>
      if (String.length frac =? 2)%nat then
        match digits_value whole, digits_value frac with
        | Some w, Some f => Some (negative, (100 * w + f)%Z)
        | _, _ => None
        end
      else None
  | None => None
  end.

Section Script.
Context {F : PyFloat}.

(** A parsed track point [(lat, lon, ele)], a drawing point [(x, y)] and a
    profile entry [(round(cumulative_km, 2), round(ele))]. *)
Definition sample : Type := num * num * num.
Definition point : Type := num * num.
Definition entry : Type := num * Z.

Definition lat_of (p : sample) : num := fst (fst p).
Definition lon_of (p : sample) : num := snd (fst p).
Definition ele_of (p : sample) : num := snd p.

Definition width : Z := 800.
Definition height : Z := 600.
Definition margin : Z := 20.

(** [a / b]: float division raises on a zero divisor. *)
Definition truediv (a b : num) : result num :=
  if is_zero b then Raise ZeroDivisionError else Ok (div a b).

(** [a > b] *)
Definition gtb (a b : num) : bool := ltb b a.

(** The builtin [min] and [max] over a list: the first item is kept until a
    later one compares strictly below (above) it. *)
Definition py_min_from (x : num) (xs : list num) : num :=
  fold_left (fun m v => if ltb v m then v else m) xs x.

Definition py_max_from (x : num) (xs : list num) : num :=
  fold_left (fun m v => if gtb v m then v else m) xs x.

Definition py_min (l : list num) : result num :=
  match l with
  | [] => Raise ValueError
  | x :: xs => Ok (py_min_from x xs)
  end.

Definition py_max (l : list num) : result num :=
  match l with
  | [] => Raise ValueError
  | x :: xs => Ok (py_max_from x xs)
  end.

(** [min(a, b)] *)
Definition min2 (a b : num) : num := if ltb b a then b else a.

(** The nested function [haversine_km]. *)
Definition haversine_km (a_lat a_lon b_lat b_lon : num) : result num :=
  let R := of_int 6371 in
  let dlat := radians (sub b_lat a_lat) in
  let dlon := radians (sub b_lon a_lon) in
  hlat <- truediv dlat (of_int 2) ;;
  slat <- math_sin hlat ;;
  slat2 <- pow2 slat ;;
  ca <- math_cos (radians a_lat) ;;
  cb <- math_cos (radians b_lat) ;;
  hlon <- truediv dlon (of_int 2) ;;
  slon <- math_sin hlon ;;
  slon2 <- pow2 slon ;;
  let a := add slat2 (mul (mul ca cb) slon2) in
  root <- math_sqrt a ;;
  ang <- math_asin root ;;
  let c := mul (of_int 2) ang in
  Ok (mul R c).

(** The variables the [for] loop of [normalize_coordinates] updates. *)
Record loop_state : Type := {
  normalized : list point;
  profile : list entry;
  cumulative_km : num;
  prev_lat : num;
  prev_lon : num
}.

(** The drawing point of one sample (the first two lines of the loop's body). *)
Definition draw (min_lat min_lon scale : num) (p : sample) : point :=
  let x := add (of_int margin) (mul (sub (lon_of p) min_lon) scale) in
  let y := sub (of_int (height - margin)) (mul (sub (lat_of p) min_lat) scale) in
  (x, y).

(** One turn of the loop. *)
Definition loop_body (min_lat min_lon scale : num) (st : loop_state) (p : sample)
  : result loop_state :=
  let normalized' := normalized st ++ [draw min_lat min_lon scale p] in
  h <- haversine_km (prev_lat st) (prev_lon st) (lat_of p) (lon_of p) ;;
  let cumulative_km' := add (cumulative_km st) h in
  d <- round2 cumulative_km' ;;
  e <- round0 (ele_of p) ;;
  Ok {| normalized := normalized';
        profile := profile st ++ [(d, e)];
        cumulative_km := cumulative_km';
        prev_lat := lat_of p;
        prev_lon := lon_of p |}.

Fixpoint for_each (body : loop_state -> sample -> result loop_state)
  (points : list sample) (st : loop_state) : result loop_state :=
  match points with
  | [] => Ok st
  | p :: rest => st' <- body st p ;; for_each body rest st'
  end.

(** [scale_lat] and [scale_lon]: the extent divided by the range when the
    range is positive, the integer 1 otherwise. *)
Definition axis_scale (extent : Z) (range : num) : result num :=
  if gtb range (of_int 0) then truediv (of_int extent) range else Ok (of_int 1).

Definition normalize_coordinates (points : list sample)
  : result (list point * list entry) :=
  match points with
  | [] => Ok ([], [])
  | first :: _ =>
      let lats := map lat_of points in
      let lons := map lon_of points in
      min_lat <- py_min lats ;;
      max_lat <- py_max lats ;;
      min_lon <- py_min lons ;;
      max_lon <- py_max lons ;;
      let lat_range := sub max_lat min_lat in
      let lon_range := sub max_lon min_lon in
      scale_lat <- axis_scale (height - 2 * margin) lat_range ;;
      scale_lon <- axis_scale (width - 2 * margin) lon_range ;;
      let scale := min2 scale_lat scale_lon in
      st <- for_each (loop_body min_lat min_lon scale) points
              {| normalized := [];
                 profile := [];
                 cumulative_km := of_int 0;
                 prev_lat := lat_of first;
                 prev_lon := lon_of first |} ;;
      Ok (normalized st, profile st)
  end.

(** The running accumulator: [running cum lat lon points accs] when
    [accs] lists the value of [cumulative_km] after each sample of
    [points], starting from [cum] with [(lat, lon)] as previous sample. *)
Inductive running : num -> num -> num -> list sample -> list num -> Prop :=
| running_nil cum lat lon : running cum lat lon [] []
| running_cons cum lat lon p rest h accs :
    haversine_km lat lon (lat_of p) (lon_of p) = Ok h ->
    running (add cum h) (lat_of p) (lon_of p) rest accs ->
    running cum lat lon (p :: rest) (add cum h :: accs).

(** The profile entries appended for accumulator values and samples. *)
Inductive entries : list num -> list sample -> list entry -> Prop :=
| entries_nil : entries [] [] []
| entries_cons acc accs p rest d e es :
    round2 acc = Ok d ->
    round0 (ele_of p) = Ok e ->
    entries accs rest es ->
    entries (acc :: accs) (p :: rest) ((d, e) :: es).

(** The path of [create_svg]:
    ["M " + " L ".join([f"{x:.2f},{y:.2f}" for x, y in points])]. *)
Definition point_text (p : point) : string :=
  (fmt2 (fst p) ++ "," ++ fmt2 (snd p))%string.

Definition path_data (points : list point) : string :=
  ("M " ++ join " L " (map point_text points))%string.

(** The line-to commands for the points after the first. *)
Fixpoint line_tos (points : list point) : string :=
  match points with
  | [] => EmptyString
  | q :: rest => (" L " ++ point_text q ++ line_tos rest)%string
  end.

Definition dquote : string := String "034"%char EmptyString.
Definition newline : string := String "010"%char EmptyString.

Definition svg_content (path : string) : string :=
  ("<?xml version=" ++ dquote ++ "1.0" ++ dquote ++ " encoding=" ++ dquote
   ++ "UTF-8" ++ dquote ++ "?>" ++ newline
   ++ "<svg viewBox=" ++ dquote ++ "0 0 800 600" ++ dquote
   ++ " xmlns=" ++ dquote ++ "http://www.w3.org/2000/svg" ++ dquote ++ ">"
   ++ newline
   ++ "  <path d=" ++ dquote ++ path ++ dquote
   ++ " fill=" ++ dquote ++ "none" ++ dquote
   ++ " stroke=" ++ dquote ++ "#d4df00" ++ dquote
   ++ " stroke-width=" ++ dquote ++ "2" ++ dquote
   ++ " stroke-linecap=" ++ dquote ++ "round" ++ dquote
   ++ " stroke-linejoin=" ++ dquote ++ "round" ++ dquote ++ "/>" ++ newline
   ++ "</svg>")%string.

(** [create_svg], as the lines it prints and what it writes to
    [output_file]: for an empty list of points it prints one line and
    returns before anything is written.  The file is opened outside any
    [try]: [writes path content] says whether
    [open(path, "w", encoding="utf-8")] and the write of [content] to it
    succeed; where they do not, an [OSError] leaves [create_svg] before
    anything is printed, and the drawing is not in the file.  (The profile
    it then dumps beside the drawing, inside a [try], is left out.) *)
Record svg_run : Type := {
  printed : list string;
  written : option string;
  os_error : bool
}.

Variable writes : string -> string -> bool.

Definition create_svg (points : list point) (output_file : string) : svg_run :=
  match points with
  | [] => {| printed := ["Aucun point trouvé dans le fichier GPX"%string];
             written := None;
             os_error := false |}
  | _ =>
      let path_data := path_data points in
      let svg_content := svg_content path_data in
      if writes output_file svg_content then
        {| printed :=
             [("SVG créé avec succès: " ++ output_file)%string;
              ("Nombre de points: " ++ dec (Z.of_nat (length points)))%string];
           written := Some svg_content;
           os_error := false |}
      else {| printed := []; written := None; os_error := true |}
  end.

End Script.

(** ** Binary64: the arithmetic of Python floats *)

Module B64.

Definition f64 : Type := spec_float.

Definition fadd : f64 -> f64 -> f64 := SFadd prec emax.
Definition fsub : f64 -> f64 -> f64 := SFsub prec emax.
Definition fmul : f64 -> f64 -> f64 := SFmul prec emax.
Definition fdiv : f64 -> f64 -> f64 := SFdiv prec emax.
Definition fsqrt : f64 -> f64 := SFsqrt prec emax.
Definition fltb : f64 -> f64 -> bool := SFltb.
Definition feqb : f64 -> f64 -> bool := SFeqb.

(** [float(z)] for a Python [int]: the nearest double. *)
Definition of_Z (z : Z) : f64 := binary_normalize prec emax z 0 false.

(** A float literal of the source text. *)
Definition lit (x : float) : f64 := Prim2SF x.

Definition is_nan (x : f64) : bool :=
  match x with S754_nan => true | _ => false end.

Definition is_inf (x : f64) : bool :=
  match x with S754_infinity _ => true | _ => false end.

Definition is_finite (x : f64) : bool :=
  match x with S754_zero _ | S754_finite _ _ _ => true | _ => false end.

Definition fzerob (x : f64) : bool :=
  match x with S754_zero _ => true | _ => false end.

(** [math.radians(x)] is [x * degToRad], with [degToRad = pi / 180.0]
    folded in double precision. *)
Definition pi : f64 := S754_finite false 7074237752028440 (-51).
Definition degToRad : f64 := Eval vm_compute in fdiv pi (of_Z 180).
Definition fradians (x : f64) : f64 := fmul x degToRad.

(** The functions Python takes from the C library. *)
Record Libm : Type := {
  c_sin : f64 -> f64;
  c_cos : f64 -> f64;
  c_asin : f64 -> f64;
  c_pow : f64 -> f64 -> f64
}.

(** [math_1] of [mathmodule.c], with [can_overflow = 0]: a NaN from a
    number and an infinity from a finite number are domain errors. *)
Definition math_1 (func : f64 -> f64) (x : f64) : result f64 :=
  let r := func x in
  if is_nan r && negb (is_nan x) then Raise ValueError
  else if is_inf r && is_finite x then Raise ValueError
  else Ok r.

(** [float_pow] of [floatobject.c] at the exponent 2: the special cases
    are decided before [pow] is called on a positive finite base other
    than 1, and an infinite result is an [OverflowError]. *)
Definition float_pow2 (L : Libm) (v : f64) : result f64 :=
  match v with
  | S754_nan => Ok v
  | S754_infinity _ => Ok (S754_infinity false)
  | S754_zero _ => Ok (S754_zero false)
  | S754_finite _ m e =>
      let iv := S754_finite false m e in
      if feqb iv (of_Z 1) then Ok (of_Z 1)
      else
        let ix := c_pow L iv (of_Z 2) in
        if is_inf ix then Raise OverflowError else Ok ix
  end.

(** The integer nearest to [k * 2^e] for [0 <= k], ties to even. *)
Definition rne_dyadic (k e : Z) : Z :=
  match e with
  | Zneg p =>
      let d := Z.pow_pos 2 p in
      let q := (k / d)%Z in
      let r := (k mod d)%Z in
      match (2 * r ?= d)%Z with
      | Lt => q
      | Gt => (q + 1)%Z
      | Eq => if Z.even q then q else (q + 1)%Z
      end
  | _ => (k * 2 ^ e)%Z
  end.

(** The magnitude [m * 2^e] in hundredths, correctly rounded. *)
Definition hundredths (m : positive) (e : Z) : Z :=
  rne_dyadic (100 * Zpos m) e.

(** [round(x, 2)]: the double nearest to the correctly rounded two-place
    decimal of [x]; infinities, NaN and zeros round to themselves. *)
Definition float_round2 (x : f64) : result f64 :=
  match x with
  | S754_finite s m e =>
      match hundredths m e with
      | Zpos n =>
          let r := fdiv (S754_finite s n 0) (S754_finite false 100 0) in
          if is_inf r then Raise OverflowError else Ok r
      | _ => Ok (S754_zero s)
      end
  | _ => Ok x
  end.

(** [round(x)]: the nearest integer, ties to even; NaN and the infinities
    have no integer. *)
Definition float_round0 (x : f64) : result Z :=
  match x with
  | S754_nan => Raise ValueError
  | S754_infinity _ => Raise OverflowError
  | S754_zero _ => Ok 0%Z
  | S754_finite s m e => Ok (cond_Zopp s (rne_dyadic (Zpos m) e))
  end.

(** [f"{x:.2f}"] *)
Definition float_fmt2 (x : f64) : string :=
  match x with
  | S754_nan => "nan"
  | S754_infinity s => if s then "-inf" else "inf"
  | S754_zero s => fixed2 s 0
  | S754_finite s m e => fixed2 s (hundredths m e)
  end.

Definition binary64 (L : Libm) : PyFloat := {|
  num := f64;
  of_int := of_Z;
  add := fadd;
  sub := fsub;
  mul := fmul;
  div := fdiv;
  is_zero := fzerob;
  ltb := fltb;
  radians := fradians;
  math_sin := math_1 (c_sin L);
  math_cos := math_1 (c_cos L);
  math_asin := math_1 (c_asin L);
  math_sqrt := math_1 fsqrt;
  pow2 := float_pow2 L;
  round2 := float_round2;
  round0 := float_round0;
  fmt2 := float_fmt2
|}.

(** *** A C library to run the script with

    Truncated power series evaluated in binary64.  They are exact where the
    C standard fixes the value ([sin 0], [cos 0], [asin 0]) and agree with
    a production library to well below a hundredth of a kilometre on the
    tracks evaluated below; no theorem about every [Libm] depends on them. *)

Fixpoint series (n : nat) (k : Z) (ratio : Z -> f64) (x2 term acc : f64) : f64 :=
  match n with
  | O => acc
  | S n' =>
      let term' := fmul term (fmul x2 (ratio k)) in
      series n' (k + 1)%Z ratio x2 term' (fadd acc term')
  end.

Definition sin_ratio (k : Z) : f64 :=
  fdiv (of_Z (-1)) (of_Z ((2 * k + 2) * (2 * k + 3))).

Definition cos_ratio (k : Z) : f64 :=
  fdiv (of_Z (-1)) (of_Z ((2 * k + 1) * (2 * k + 2))).

Definition asin_ratio (k : Z) : f64 :=
  fdiv (of_Z ((2 * k + 1) * (2 * k + 1))) (of_Z ((2 * k + 2) * (2 * k + 3))).

Definition series_sin (x : f64) : f64 :=
  match x with
  | S754_finite _ _ _ => series 24 0 sin_ratio (fmul x x) x x
  | S754_zero _ => x
  | _ => S754_nan
  end.

Definition series_cos (x : f64) : f64 :=
  match x with
  | S754_finite _ _ _ => series 24 0 cos_ratio (fmul x x) (of_Z 1) (of_Z 1)
  | S754_zero _ => of_Z 1
  | _ => S754_nan
  end.

Definition half : f64 := fdiv (of_Z 1) (of_Z 2).

(** [asin] by its series up to one half, and by
    [asin x = pi/2 - 2 asin (sqrt ((1 - x) / 2))] above. *)
Definition series_asin (x : f64) : f64 :=
  match x with
  | S754_finite s m e =>
      let ax := S754_finite false m e in
      if fltb (of_Z 1) ax then S754_nan
      else
        let r :=
          if fltb half ax then
            let y := fsqrt (fdiv (fsub (of_Z 1) ax) (of_Z 2)) in
            fsub (fdiv pi (of_Z 2))
                 (fmul (of_Z 2) (series 40 0 asin_ratio (fmul y y) y y))
          else series 40 0 asin_ratio (fmul ax ax) ax ax in
        if s then SFopp r else r
  | S754_zero _ => x
  | _ => S754_nan
  end.

Definition series_pow (x y : f64) : f64 :=
  if feqb y (of_Z 2) then fmul x x else S754_nan.

Definition series_libm : Libm := {|
  c_sin := series_sin;
  c_cos := series_cos;
  c_asin := series_asin;
  c_pow := series_pow
|}.

End B64.

(** The script in binary64 with the series library. *)
Definition py64 : PyFloat := B64.binary64 B64.series_libm.

(** ** Exact arithmetic: the real numbers of the data model *)

Module Exact.
Local Open Scope R_scope.

Definition Rltb (a b : R) : bool := if Rlt_dec a b then true else false.

Definition Rzerob (a : R) : bool := if Req_dec_T a 0 then true else false.

(** The integer nearest to a real, ties to even. *)
Definition rne (x : R) : Z :=
  let n := Int_part x in
  let d := x - IZR n in
  if Rlt_dec d (1 / 2) then n
  else if Rlt_dec (1 / 2) d then (n + 1)%Z
  else if Z.even n then n else (n + 1)%Z.

Definition real_radians (x : R) : R := x * (PI / 180).

(** [math.sqrt] and [math.asin] raise outside their domains. *)
Definition real_sqrt (x : R) : result R :=
  if Rle_dec 0 x then Ok (sqrt x) else Raise ValueError.

Definition real_asin (x : R) : result R :=
  if Rle_dec (-1) x then
    if Rle_dec x 1 then Ok (asin x) else Raise ValueError
  else Raise ValueError.

Definition real_round2 (x : R) : R := IZR (rne (x * 100)) / 100.

Definition real_fmt2 (x : R) : string :=
  fixed2 (Rltb x 0) (Z.abs (rne (x * 100))).

Definition Rexact : PyFloat := {|
  num := R;
  of_int := IZR;
  add := Rplus;
  sub := Rminus;
  mul := Rmult;
  div := Rdiv;
  is_zero := Rzerob;
  ltb := Rltb;
  radians := real_radians;
  math_sin := fun x => Ok (sin x);
  math_cos := fun x => Ok (cos x);
  math_asin := real_asin;
  math_sqrt := real_sqrt;
  pow2 := fun x => Ok (x * x);
  round2 := fun x => Ok (real_round2 x);
  round0 := fun x => Ok (rne x);
  fmt2 := real_fmt2
|}.

(** Closed forms of what the script computes in exact arithmetic: the
    argument of the square root, the great-circle distance, the values of
    the accumulator and the profile. *)
Definition hav_arg (a_lat a_lon b_lat b_lon : R) : R :=
  let dlat := real_radians (b_lat - a_lat) in
  let dlon := real_radians (b_lon - a_lon) in
  sin (dlat / 2) * sin (dlat / 2)
  + cos (real_radians a_lat) * cos (real_radians b_lat)
    * (sin (dlon / 2) * sin (dlon / 2)).

Definition hav (a_lat a_lon b_lat b_lon : R) : R :=
  6371 * (2 * asin (sqrt (hav_arg a_lat a_lon b_lat b_lon))).

Fixpoint totals (cum lat lon : R) (points : list (R * R * R)) : list R :=
  match points with
  | [] => []
  | p :: rest =>
      let cum' := cum + hav lat lon (fst (fst p)) (snd (fst p)) in
      cum' :: totals cum' (fst (fst p)) (snd (fst p)) rest
  end.

Definition profile_of (accs : list R) (points : list (R * R * R)) : list (R * Z) :=
  map (fun ap => (real_round2 (fst ap), rne (snd (snd ap)))) (combine accs points).

(** A drawing point inside the frame left by the margin. *)
Definition in_frame (p : R * R) : Prop :=
  IZR margin <= fst p <= IZR (width - margin)
  /\ IZR margin <= snd p <= IZR (height - margin).

End Exact.

(** ** The values of binary64 floats *)

Module Values.
Local Open Scope R_scope.

Definition bpow (e : Z) : R := powerRZ 2 e.

#[global] Arguments bpow : simpl never.

(** The real number a finite float stands for (0 for the others), and the
    same with the infinities put at [2^emax], just beyond every float. *)
Definition SF2R (x : spec_float) : R :=
  match x with
  | S754_finite s m e => IZR (cond_Zopp s (Zpos m)) * bpow e
  | _ => 0
  end.

Definition SFval (x : spec_float) : R :=
  match x with
  | S754_infinity s => if s then - bpow emax else bpow emax
  | _ => SF2R x
  end.

Definition emin : Z := SpecFloat.emin prec emax.
Definition fexp (e : Z) : Z := SpecFloat.fexp prec emax e.

(** [k] is the exponent of the binade of [0 <= x]: [2^(k-1) <= x < 2^k],
    or any small enough exponent for [x] below the normal numbers. *)
Definition mag_of (x : R) (k : Z) : Prop :=
  x < bpow k /\ (bpow (k - 1) <= x \/ (k <= emin + prec)%Z).

(** Rounding to the nearest multiple of [2^e], ties to even. *)
Definition rnd_at (e : Z) (x : R) : R := IZR (Exact.rne (x / bpow e)) * bpow e.

(** [w] is [v] rounded to nearest even in the format, exponents unbounded
    above. *)
Definition rounds_pos (x w : R) : Prop :=
  exists k, mag_of x k /\ w = rnd_at (fexp k) x.

Definition rounds (v w : R) : Prop :=
  (0 <= v /\ rounds_pos v w) \/ (v < 0 /\ rounds_pos (- v) (- w)).

Definition clamp (w : R) : R :=
  if Rle_dec (bpow emax) w then bpow emax
  else if Rle_dec w (- bpow emax) then - bpow emax
  else w.

(** The place of [t] among the integers, as a [location] tells it. *)
Definition inbetween (m : Z) (l : location) (t : R) : Prop :=
  match l with
  | loc_Exact => t = IZR m
  | loc_Inexact Lt => IZR m < t < IZR m + 1 / 2
  | loc_Inexact Eq => t = IZR m + 1 / 2
  | loc_Inexact Gt => IZR m + 1 / 2 < t < IZR m + 1
  end.

(** [r] is the float an operation of exact result [v] returns. *)
Definition Rounded (v : R) (r : spec_float) : Prop :=
  valid_binary r = true
  /\ B64.is_nan r = false
  /\ exists w, rounds v w /\ SFval r = clamp w.


(** A number, not NaN, of the given sign. *)
Definition signed (s : bool) (r : spec_float) : Prop :=
  match r with
  | S754_zero s' | S754_infinity s' | S754_finite s' _ _ => s' = s
  | S754_nan => False
  end.

(** A float of the format that is not NaN. *)
Definition number (r : spec_float) : Prop :=
  valid_binary r = true /\ B64.is_nan r = false.

(** A float of the format that is a number within [lo, hi]. *)
Definition within (lo hi : R) (r : spec_float) : Prop :=
  valid_binary r = true /\ B64.is_finite r = true /\ lo <= SF2R r <= hi.

(** What the distances need of the C library: it keeps zero, [sin] and
    [cos] return NaN or a number in [-1, 1], the square of a number of
    [0, 1] is in [0, 1], and [asin] of a number that is not negative is
    NaN or in [0, 2]. *)
Record in_range (M : B64.Libm) : Prop := {
  sin_zero : B64.c_sin M (S754_zero false) = S754_zero false;
  asin_zero : B64.c_asin M (S754_zero false) = S754_zero false;
  sin_unit : forall x,
    B64.is_nan (B64.c_sin M x) = true \/ within (-1) 1 (B64.c_sin M x);
  cos_unit : forall x,
    B64.is_nan (B64.c_cos M x) = true \/ within (-1) 1 (B64.c_cos M x);
  pow_unit : forall x, within 0 1 x -> within 0 1 (B64.c_pow M x (B64.of_Z 2));
  asin_range : forall x,
    B64.is_nan x = false -> 0 <= SFval x ->
    B64.is_nan (B64.c_asin M x) = true \/ within 0 2 (B64.c_asin M x)
}.

Definition withinb (lo hi : Z) (r : spec_float) : bool :=
  valid_binary r && B64.is_finite r
  && SFleb (B64.of_Z lo) r && SFleb r (B64.of_Z hi).

(** A library with every result of [sin], [cos] and [asin] checked
    against the range of the function: a result outside it is replaced by
    NaN, which [math_1] reports as a domain error. *)
Definition checked (L : B64.Libm) : B64.Libm := {|
  B64.c_sin := fun x =>
    let r := B64.c_sin L x in if withinb (-1) 1 r then r else S754_nan;
  B64.c_cos := fun x =>
    let r := B64.c_cos L x in if withinb (-1) 1 r then r else S754_nan;
  B64.c_asin := fun x =>
    let r := B64.c_asin L x in
    if SFleb (S754_zero false) x
    then if withinb 0 2 r then r else S754_nan
    else r;
  B64.c_pow := B64.c_pow L
|}.


(** A number that is not negative; [+inf] is one. *)
Definition grown (r : B64.f64) : Prop := number r /\ 0 <= SFval r.

(** The order of the values. *)
Definition vle (a b : B64.f64) : Prop := SFval a <= SFval b.

(** A sample whose latitude and longitude are finite doubles. *)
Definition placed (lat lon : B64.f64) : Prop :=
  valid_binary lat = true /\ B64.is_finite lat = true
  /\ valid_binary lon = true /\ B64.is_finite lon = true.

(** A finite double. *)
Definition fine (x : B64.f64) : Prop := valid_binary x = true /\ B64.is_finite x = true.

(** A double between two integers, as the comparisons of the script see it. *)
Definition bounded (lo hi : Z) (x : B64.f64) : Prop :=
  valid_binary x = true
  /\ SFleb (B64.of_Z lo) x = true /\ SFleb x (B64.of_Z hi) = true.

(** The frame with the rounding of binary64: one unit in the last place
    of [width - 2 * margin] to the right, and as much above the top. *)
Definition in_frame64 (q : B64.f64 * B64.f64) : Prop :=
  SFleb (B64.of_Z margin) (fst q) = true
  /\ SFleb (fst q) (B64.lit 780.0000000000001) = true
  /\ SFleb (B64.lit 19.999999999999886) (snd q) = true
  /\ SFleb (snd q) (B64.of_Z (height - margin)) = true.

End Values.

(** ** Statement vocabulary and tracks to run *)

(** The horizontal track of a list of samples: the elevations dropped. *)
Definition track {F : PyFloat} (points : list sample) : list (num * num) :=
  map (fun p => (lat_of p, lon_of p)) points.

(** A text with exactly two characters after its decimal point. *)
Definition two_places (t : string) : Prop :=
  exists whole frac : string,
    t = (whole ++ "." ++ frac)%string /\ String.length frac = 2%nat.

Module Tracks.
Import B64.

(** The scenario of the specification: two close points in Paris. *)
Definition paris : list (@sample py64) :=
  [(lit 48.8566, lit 2.3522, lit 35); (lit 48.8570, lit 2.3530, lit 40)].

Definition paris_points : list (@point py64) :=
  [(lit 20, lit 580); (lit 780, lit 200.00000000105473)].

Definition paris_profile : list (@entry py64) :=
  [(lit 0, 35%Z); (lit 0.07, 40%Z)].

(** The same two points with other elevations. *)
Definition paris_climb : list (@sample py64) :=
  [(lit 48.8566, lit 2.3522, lit 100.4); (lit 48.8570, lit 2.3530, lit 250.5)].

(** Half a degree north and 1.3 degrees east of the origin. *)
Definition east : list (@sample py64) :=
  [(lit 0, lit 0, lit 0); (lit 0.5, lit 1.3, lit 0)].

(** Two fixes on one meridian, one unit in the last place of the latitude
    apart. *)
Definition meridian : list (@sample py64) :=
  [(lit 48, lit 2, lit 35); (lit 48.00000000000001, lit 2, lit 40)].

(** Two fixes at the same place, at different elevations. *)
Definition summit : list (@sample py64) :=
  [(lit 45.8326, lit 6.8652, lit 4805.59); (lit 45.8326, lit 6.8652, lit 4808.5)].

(** 16.7 degrees north and 1.67 degrees east of the origin. *)
Definition north : list (@sample py64) :=
  [(lit 0, lit 0, lit 0); (lit 16.7, lit 1.67, lit 0)].

(** Two fixes whose coordinates differ by the smallest positive double. *)
Definition speck : list (@sample py64) :=
  [(lit 0, lit 0, lit 0); (lit 5e-324, lit 5e-324, lit 0)].

End Tracks.

(** ** The rest of the script: [parse_gpx] and [main] *)

(** An element of the tree [ET.parse] builds: its tag (["{uri}name"] or
    ["name"]), its attributes, the text before its first child and its
    children. *)
#[warnings="-register-all"]
Inductive element : Type :=
| Element (tag : string) (attrib : list (string * string))
    (text : option string) (children : list element).

Definition tag_of (el : element) : string :=
  match el with Element tag _ _ _ => tag end.

Definition attrib_of (el : element) : list (string * string) :=
  match el with Element _ attrib _ _ => attrib end.

Definition text_of (el : element) : option string :=
  match el with Element _ _ text _ => text end.

Definition children_of (el : element) : list element :=
  match el with Element _ _ _ children => children end.

(** [el.get(key)]: the value of the attribute, or [None]. *)
Fixpoint get (key : string) (attrib : list (string * string)) : option string :=
  match attrib with
  | [] => None
  | (k, v) :: rest => if (k =? key)%string then Some v else get key rest
  end.

(** [el.iter()]: the element, then its descendants, in document order. *)
Fixpoint iter (el : element) : list element :=
  match el with
  | Element _ _ _ children => el :: flat_map iter children
  end.

(** What [".//"] selects under an element: [e.iter()] without [e]. *)
Definition below (el : element) : list element :=
  flat_map iter (children_of el).

(** [s[-k:]] *)
Definition py_suffix (k : nat) (s : string) : string :=
  substring (String.length s - k) k s.

(** The test of the path step ["{*}name"]: the tag is [name], or ends with
    ["}name"]. *)
Definition wildcard_match (name el_tag : string) : bool :=
  let suffix := ("}" ++ name)%string in
  (el_tag =? name)%string
  || (py_suffix (String.length suffix) el_tag =? suffix)%string.

(** [el.findall(".//{*}name")] and [el.find("{*}name")]. *)
Definition findall_below (name : string) (el : element) : list element :=
  filter (fun e => wildcard_match name (tag_of e)) (below el).

Definition find_child (name : string) (el : element) : option element :=
  find (fun e => wildcard_match name (tag_of e)) (children_of el).

(** What [parse_gpx] can raise: what [float] raises on a string, and the
    [TypeError] of [float(None)]. *)
Inductive failure : Type :=
| Arith (e : exn)
| TypeError.

Inductive outcome (A : Type) : Type :=
| Return (a : A)
| Uncaught (f : failure).

Arguments Return {A} a.
Arguments Uncaught {A} f.

Definition and_then {A B : Type} (c : outcome A) (k : A -> outcome B) : outcome B :=
  match c with
  | Return a => k a
  | Uncaught f => Uncaught f
  end.

Notation "x <~ c ;; k" := (and_then c (fun x => k))
  (at level 61, c at next level, right associativity).

Definition lift {A : Type} (r : result A) : outcome A :=
  match r with
  | Ok a => Return a
  | Raise e => Uncaught (Arith e)
  end.

(** [s.find(old)] and [s.replace(old, new)]. *)
Fixpoint py_find (old s : string) : option nat :=
  if prefix old s then Some O
  else
    match s with
    | EmptyString => None
    | String _ rest => option_map S (py_find old rest)
    end.

Fixpoint between (new s : string) : string :=
  match s with
  | EmptyString => EmptyString
  | String c rest => String c (new ++ between new rest)
  end.

Fixpoint replace_from (old new s : string) (skip : nat) : string :=
  match s with
  | EmptyString => EmptyString
  | String c rest =>
      match skip with
      | S k => replace_from old new rest k
      | O =>
          if prefix old s
          then (new ++ replace_from old new rest (String.length old - 1))%string
          else String c (replace_from old new rest 0)
      end
  end.

Definition py_replace (old new s : string) : string :=
  match old with
  | EmptyString => (new ++ between new s)%string
  | _ => replace_from old new s 0
  end.

Section Parse.
Context {F : PyFloat}.

(** [float(text)] on a string, a builtin: it raises [ValueError] on what it
    cannot read. *)
Variable float_of_str : string -> result num.

(** [float(v)] for what [get] or [text] gives. *)
Definition float_arg (v : option string) : outcome num :=
  match v with
  | None => Uncaught TypeError
  | Some s => lift (float_of_str s)
  end.

(** The body of each of the three loops of [parse_gpx]. *)
Definition read_point (el : element) : outcome sample :=
  lat <~ float_arg (get "lat" (attrib_of el)) ;;
  lon <~ float_arg (get "lon" (attrib_of el)) ;;
  ele <~ match find_child "ele" el with
         | Some ele_tag => float_arg (text_of ele_tag)
         | None => Return (of_int 0)
         end ;;
  Return (lat, lon, ele).

Fixpoint read_points (els : list element) (points : list sample)
  : outcome (list sample) :=
  match els with
  | [] => Return points
  | el :: rest => p <~ read_point el ;; read_points rest (points ++ [p])
  end.

Definition parse_gpx (root : element) : outcome (list sample) :=
  points <~ read_points (findall_below "trkpt" root) [] ;;
  points <~ match points with
            | [] => read_points (findall_below "rtept" root) points
            | _ => Return points
            end ;;
  points <~ match points with
            | [] => read_points (findall_below "wpt" root) points
            | _ => Return points
            end ;;
  Return points.

(** The elements [parse_gpx] reads: the track points, else the route
    points, else the waypoints. *)
Definition point_elements (root : element) : list element :=
  match findall_below "trkpt" root with
  | [] =>
      match findall_below "rtept" root with
      | [] => findall_below "wpt" root
      | rtepts => rtepts
      end
  | trkpts => trkpts
  end.

(** How a run of [main] ends, what it prints and the drawing it writes
    (path and content). *)
Inductive ending : Type :=
| Exited (code : Z)
| Completed
| Traceback.

Record main_run : Type := {
  stdout : list string;
  status : ending;
  drawing : option (string * string)
}.

(** [os.path.exists], [ET.parse(gpx_file).getroot()] ([None] when it
    raises), and the opening and writing of the output file. *)
Variable path_exists : string -> bool.
Variable et_parse : string -> option element.
Variable writes : string -> string -> bool.

Definition output_name (gpx_file : string) (more : list string) : string :=
  match more with
  | name :: _ => name
  | [] => py_replace ".gpx" ".svg" gpx_file
  end.

Definition main (argv : list string) : main_run :=
  match argv with
  | [] | [_] =>
      {| stdout := ["Usage: python gpx_to_svg.py <fichier.gpx> [fichier_sortie.svg]"%string];
         status := Exited 1;
         drawing := None |}
  | _ :: gpx_file :: more =>
      if negb (path_exists gpx_file) then
        {| stdout := [("Erreur: Le fichier " ++ gpx_file ++ " n'existe pas")%string];
           status := Exited 1;
           drawing := None |}
      else
        let output_file := output_name gpx_file more in
        match et_parse gpx_file with
        | None => {| stdout := []; status := Traceback; drawing := None |}
        | Some root =>
            match parse_gpx root with
            | Uncaught _ => {| stdout := []; status := Traceback; drawing := None |}
            | Return [] =>
                {| stdout := ["Aucun point GPS trouvé dans le fichier GPX"%string];
                   status := Exited 1;
                   drawing := None |}
            | Return points =>
                match normalize_coordinates points with
                | Raise _ => {| stdout := []; status := Traceback; drawing := None |}
                | Ok (normalized_points, _) =>
                    let run := create_svg writes normalized_points output_file in
                    if os_error run then
                      {| stdout := []; status := Traceback; drawing := None |}
                    else
                      {| stdout := printed run;
                         status := Completed;
                         drawing := option_map (pair output_file) (written run) |}
                end
            end
        end
  end.

End Parse.

(** [float] on plain decimal literals ([-12.5], [48], [2.3522]), to run
    [parse_gpx] in binary64; the other spellings [float] accepts are not
    read. *)
Module Decimal.

Definition digit_of (c : ascii) : option Z :=
  let n := Z.of_nat (nat_of_ascii c) in
  if ((48 <=? n) && (n <=? 57))%Z then Some (n - 48)%Z else None.

(** The digits read so far as a number, and how many followed the point. *)
Fixpoint digits (s : string) (acc : Z) (places : option nat) : option (Z * nat) :=
  match s with
  | EmptyString => Some (acc, match places with Some k => k | None => O end)
  | String c rest =>
      match digit_of c with
      | Some d => digits rest (10 * acc + d)%Z (option_map S places)
      | None =>
          match places with
          | None => if (c =? ".")%char then digits rest acc (Some O) else None
          | Some _ => None
          end
      end
  end.

Fixpoint has_digit (s : string) : bool :=
  match s with
  | EmptyString => false
  | String c rest =>
      match digit_of c with
      | Some _ => true
      | None => has_digit rest
      end
  end.

Definition read (s : string) : result B64.f64 :=
  let negative := prefix "-" s in
  let body := if negative then substring 1 (String.length s - 1) s else s in
  if has_digit body then
    match digits body 0 None with
    | Some (Zpos n, places) =>
        Ok (B64.fdiv (S754_finite negative n 0)
                     (S754_finite false (Z.to_pos (10 ^ Z.of_nat places)) 0))
    | Some (_, _) => Ok (S754_zero negative)
    | None => Raise ValueError
    end
  else Raise ValueError.

End Decimal.

(** An element strictly inside another, at any depth. *)
Inductive inside : element -> element -> Prop :=
| inside_child e r : In e (children_of r) -> inside e r
| inside_deeper e c r : In c (children_of r) -> inside e c -> inside e r.

(** What a point element must hold for a sample to be read from it. *)
Definition reads {F : PyFloat} (float_of_str : string -> result num)
  (el : element) (p : sample) : Prop :=
  (exists text, get "lat" (attrib_of el) = Some text
                /\ float_of_str text = Ok (lat_of p))
  /\ (exists text, get "lon" (attrib_of el) = Some text
                   /\ float_of_str text = Ok (lon_of p))
  /\ match find_child "ele" el with
     | None => ele_of p = of_int 0
     | Some ele_tag =>
         exists text, text_of ele_tag = Some text
                      /\ float_of_str text = Ok (ele_of p)
     end.

Module Files.

(** The Paris scenario as a GPX 1.1 document: a track of two points and a
    waypoint. *)
Definition ns (name : string) : string :=
  ("{http://www.topografix.com/GPX/1/1}" ++ name)%string.

Definition paris_gpx : element :=
  Element (ns "gpx") [("version", "1.1")]%string None
    [Element (ns "wpt") [("lat", "48.85"); ("lon", "2.35")]%string None [];
     Element (ns "trk") [] None
       [Element (ns "trkseg") [] None
          [Element (ns "trkpt") [("lat", "48.8566"); ("lon", "2.3522")]%string None
             [Element (ns "ele") [] (Some "35"%string) []];
           Element (ns "trkpt") [("lat", "48.8570"); ("lon", "2.3530")]%string None
             [Element (ns "ele") [] (Some "40"%string) []]]]].

(** The same track with the longitude of its second point missing. *)
Definition torn_gpx : element :=
  Element "gpx" [] None
    [Element "trk" [] None
       [Element "trkseg" [] None
          [Element "trkpt" [("lat", "48.8566"); ("lon", "2.3522")]%string None [];
           Element "trkpt" [("lat", "48.8570")]%string None []]]].

(** A file system with two files. *)
Definition on_disk (path : string) : bool :=
  (path =? "paris.gpx")%string || (path =? "PARIS.GPX")%string.

Definition load (path : string) : option element :=
  if on_disk path then Some paris_gpx else None.

(** Its directory [missing] does not exist: no file opens under it. *)
Definition stores (path content : string) : bool :=
  negb (prefix "missing/" path).

End Files.

(** Vocabulary for the statements about whole tracks in exact
    arithmetic. *)
Module Course.
Import Exact.
Local Open Scope R_scope.
#[local] Existing Instance Rexact.

(** The sample moved by [a] degrees of latitude and [b] of longitude. *)
Definition shifted (a b : R) (p : sample) : sample :=
  (lat_of p + a, lon_of p + b, ele_of p).

(** The distance between two samples, and the sum of the distances
    between the consecutive samples of a track. *)
Definition leg (p q : sample) : R :=
  hav (lat_of p) (lon_of p) (lat_of q) (lon_of q).

Fixpoint course (points : list sample) : R :=
  match points with
  | [] => 0
  | p :: rest =>
      match rest with
      | [] => 0
      | q :: _ => leg p q + course rest
      end
  end.

End Course.

(** * Properties *)

(** ** In every arithmetic *)

Section Generic.
Context {F : PyFloat}.

Lemma bind_Ok {A B : Type} (c : result A) (k : A -> result B) (b : B) :
  bind c k = Ok b -> exists a, c = Ok a /\ k a = Ok b.
Proof.
  destruct c as [a|e]; simpl; intros H.
  - exists a. split; [reflexivity | exact H].
  - discriminate H.
Qed.

Lemma truediv_Ok (a b q : num) :
  truediv a b = Ok q -> q = div a b /\ is_zero b = false.
Proof.
  unfold truediv. destruct (is_zero b); intros H.
  - discriminate H.
  - injection H as <-. split; reflexivity.
Qed.

Lemma axis_scale_Ok (extent : Z) (range s : num) :
  axis_scale extent range = Ok s ->
  s = if gtb range (of_int 0) then div (of_int extent) range else of_int 1.
Proof.
  unfold axis_scale. destruct (gtb range (of_int 0)); intros H.
  - apply truediv_Ok in H. apply H.
  - injection H as <-. reflexivity.
Qed.

Lemma loop_body_Ok (min_lat min_lon scale : num) (st st' : loop_state) (p : sample) :
  loop_body min_lat min_lon scale st p = Ok st' ->
  exists h d e,
    haversine_km (prev_lat st) (prev_lon st) (lat_of p) (lon_of p) = Ok h
    /\ round2 (add (cumulative_km st) h) = Ok d
    /\ round0 (ele_of p) = Ok e
    /\ st' = {| normalized := normalized st ++ [draw min_lat min_lon scale p];
                profile := profile st ++ [(d, e)];
                cumulative_km := add (cumulative_km st) h;
                prev_lat := lat_of p;
                prev_lon := lon_of p |}.
Proof.
  unfold loop_body. intros H.
  apply bind_Ok in H as (h & Hh & H).
  apply bind_Ok in H as (d & Hd & H).
  apply bind_Ok in H as (e & He & H).
  injection H as <-. exists h, d, e. repeat split; assumption.
Qed.

(** The loop, read off a successful run ... *)
Lemma for_each_Ok (min_lat min_lon scale : num) (points : list sample) :
  forall st st',
    for_each (loop_body min_lat min_lon scale) points st = Ok st' ->
    exists accs es,
      running (cumulative_km st) (prev_lat st) (prev_lon st) points accs
      /\ entries accs points es
      /\ normalized st' = normalized st ++ map (draw min_lat min_lon scale) points
      /\ profile st' = profile st ++ es.
Proof.
  induction points as [|p rest IH]; intros st st' H; simpl in H.
  - injection H as <-. exists [], []. rewrite !app_nil_r.
    repeat split; constructor.
  - apply bind_Ok in H as (st1 & Hbody & Hrest).
    apply loop_body_Ok in Hbody as (h & d & e & Hh & Hd & He & ->).
    apply IH in Hrest as (accs & es & Hrun & Hent & Hn & Hp).
    simpl in Hrun, Hn, Hp.
    exists (add (cumulative_km st) h :: accs), ((d, e) :: es).
    split; [econstructor; eassumption|].
    split; [constructor; assumption|].
    rewrite Hn, Hp, <- !app_assoc. split; reflexivity.
Qed.

(** ... and rebuilt from its trace. *)
Lemma for_each_run (min_lat min_lon scale : num) (points : list sample) :
  forall st accs es,
    running (cumulative_km st) (prev_lat st) (prev_lon st) points accs ->
    entries accs points es ->
    exists st',
      for_each (loop_body min_lat min_lon scale) points st = Ok st'
      /\ normalized st' = normalized st ++ map (draw min_lat min_lon scale) points
      /\ profile st' = profile st ++ es.
Proof.
  induction points as [|p rest IH]; intros st accs es Hrun Hent.
  - inversion Hrun; subst. inversion Hent; subst.
    exists st. simpl. rewrite !app_nil_r. repeat split.
  - inversion Hrun as [|cum lat lon p' rest' h accs' Hh Hrun']; subst.
    inversion Hent as [|acc accs'' p'' rest'' d e es' Hd He Hent']; subst.
    set (st1 := {| normalized := normalized st ++ [draw min_lat min_lon scale p];
                   profile := profile st ++ [(d, e)];
                   cumulative_km := add (cumulative_km st) h;
                   prev_lat := lat_of p;
                   prev_lon := lon_of p |}).
    destruct (IH st1 accs' es' Hrun' Hent') as (st' & Hfor & Hn & Hp).
    exists st'. simpl. unfold loop_body. rewrite Hh. simpl.
    rewrite Hd. simpl. rewrite He. simpl. fold st1.
    split; [exact Hfor|].
    rewrite Hn, Hp. simpl. rewrite <- !app_assoc. split; reflexivity.
Qed.

Lemma normalize_cons (first : sample) (rest : list sample) :
  let points := first :: rest in
  let min_lat := py_min_from (lat_of first) (map lat_of rest) in
  let max_lat := py_max_from (lat_of first) (map lat_of rest) in
  let min_lon := py_min_from (lon_of first) (map lon_of rest) in
  let max_lon := py_max_from (lon_of first) (map lon_of rest) in
  normalize_coordinates points =
    (scale_lat <- axis_scale (height - 2 * margin) (sub max_lat min_lat) ;;
     scale_lon <- axis_scale (width - 2 * margin) (sub max_lon min_lon) ;;
     st <- for_each (loop_body min_lat min_lon (min2 scale_lat scale_lon)) points
             {| normalized := [];
                profile := [];
                cumulative_km := of_int 0;
                prev_lat := lat_of first;
                prev_lon := lon_of first |} ;;
     Ok (normalized st, profile st)).
Proof. reflexivity. Qed.

(** What a returned result is. *)
Lemma normalize_Ok (first : sample) (rest : list sample)
  (ns : list point) (pf : list entry) :
  let points := first :: rest in
  let min_lat := py_min_from (lat_of first) (map lat_of rest) in
  let max_lat := py_max_from (lat_of first) (map lat_of rest) in
  let min_lon := py_min_from (lon_of first) (map lon_of rest) in
  let max_lon := py_max_from (lon_of first) (map lon_of rest) in
  normalize_coordinates points = Ok (ns, pf) ->
  exists scale_lat scale_lon accs,
    axis_scale (height - 2 * margin) (sub max_lat min_lat) = Ok scale_lat
    /\ axis_scale (width - 2 * margin) (sub max_lon min_lon) = Ok scale_lon
    /\ running (of_int 0) (lat_of first) (lon_of first) points accs
    /\ entries accs points pf
    /\ ns = map (draw min_lat min_lon (min2 scale_lat scale_lon)) points.
Proof.
  intros points min_lat max_lat min_lon max_lon H.
  unfold points in H. rewrite normalize_cons in H.
  fold points min_lat max_lat min_lon max_lon in H.
  apply bind_Ok in H as (scale_lat & Hlat & H).
  apply bind_Ok in H as (scale_lon & Hlon & H).
  apply bind_Ok in H as (st & Hfor & H).
  injection H as <- <-.
  apply for_each_Ok in Hfor as (accs & es & Hrun & Hent & Hn & Hp).
  simpl in Hrun, Hn, Hp. subst es.
  exists scale_lat, scale_lon, accs. rewrite Hn. repeat split; assumption.
Qed.

(** When a result is returned. *)
Lemma normalize_run (first : sample) (rest : list sample)
  (scale_lat scale_lon : num) (accs : list num) (pf : list entry) :
  let points := first :: rest in
  let min_lat := py_min_from (lat_of first) (map lat_of rest) in
  let max_lat := py_max_from (lat_of first) (map lat_of rest) in
  let min_lon := py_min_from (lon_of first) (map lon_of rest) in
  let max_lon := py_max_from (lon_of first) (map lon_of rest) in
  axis_scale (height - 2 * margin) (sub max_lat min_lat) = Ok scale_lat ->
  axis_scale (width - 2 * margin) (sub max_lon min_lon) = Ok scale_lon ->
  running (of_int 0) (lat_of first) (lon_of first) points accs ->
  entries accs points pf ->
  normalize_coordinates points =
    Ok (map (draw min_lat min_lon (min2 scale_lat scale_lon)) points, pf).
Proof.
  intros points min_lat max_lat min_lon max_lon Hlat Hlon Hrun Hent.
  unfold points at 1. rewrite normalize_cons.
  fold points min_lat max_lat min_lon max_lon.
  rewrite Hlat. cbn [bind]. rewrite Hlon. cbn [bind].
  set (st0 := {| normalized := []; profile := []; cumulative_km := of_int 0;
                 prev_lat := lat_of first; prev_lon := lon_of first |}).
  destruct (for_each_run min_lat min_lon (min2 scale_lat scale_lon) points
              st0 accs pf Hrun Hent) as (st' & Hfor & Hn & Hp).
  fold st0. rewrite Hfor. cbn [bind]. rewrite Hn, Hp. reflexivity.
Qed.

Lemma entries_length (accs : list num) (points : list sample) (es : list entry) :
  entries accs points es ->
  length accs = length points /\ length es = length points.
Proof.
  induction 1 as [|acc accs p rest d e es Hd He Hent [IHa IHe]]; simpl.
  - split; reflexivity.
  - rewrite IHa, IHe. split; reflexivity.
Qed.

Lemma entries_nth (accs : list num) (points : list sample) (es : list entry) :
  entries accs points es ->
  forall i p, nth_error points i = Some p ->
    exists acc d e,
      nth_error accs i = Some acc
      /\ nth_error es i = Some (d, e)
      /\ round2 acc = Ok d
      /\ round0 (ele_of p) = Ok e.
Proof.
  induction 1 as [|acc accs p rest d e es Hd He Hent IH]; intros i q Hq.
  - destruct i; discriminate Hq.
  - destruct i as [|i]; simpl in Hq.
    + injection Hq as <-. exists acc, d, e. repeat split; assumption.
    + apply IH in Hq. exact Hq.
Qed.

End Generic.

(** ** No division by zero *)

Section Division.
Context {F : PyFloat} {L : PyLaws F}.

Ltac step law :=
  match goal with
  | |- bind ?c _ <> _ =>
      let E := fresh "E" in
      destruct c eqn:E; cbn [bind];
      [ | let H := fresh "H" in
          intros H; injection H as H; subst; exact (law _ E) ]
  end.

Lemma haversine_no_zero_division (a_lat a_lon b_lat b_lon : num) :
  haversine_km a_lat a_lon b_lat b_lon <> Raise ZeroDivisionError.
Proof.
  unfold haversine_km, truediv. rewrite two_not_zero. cbn [bind].
  step sin_exn. step pow2_exn. step cos_exn. step cos_exn.
  step sin_exn. step pow2_exn. step sqrt_exn. step asin_exn.
  discriminate.
Qed.

Lemma loop_body_no_zero_division (min_lat min_lon scale : num)
  (st : loop_state) (p : sample) :
  loop_body min_lat min_lon scale st p <> Raise ZeroDivisionError.
Proof.
  unfold loop_body.
  destruct (haversine_km _ _ _ _) as [h|e] eqn:E; cbn [bind];
    [ | intros H; injection H as ->;
        exact (haversine_no_zero_division _ _ _ _ E) ].
  step round2_exn. step round0_exn. discriminate.
Qed.

Lemma for_each_no_zero_division (min_lat min_lon scale : num)
  (points : list sample) :
  forall st,
    for_each (loop_body min_lat min_lon scale) points st
    <> Raise ZeroDivisionError.
Proof.
  induction points as [|p rest IH]; intros st; simpl.
  - discriminate.
  - destruct (loop_body min_lat min_lon scale st p) as [st'|e] eqn:E; cbn [bind].
    + apply IH.
    + intros H. injection H as ->.
      exact (loop_body_no_zero_division _ _ _ _ _ E).
Qed.

(** The guard [range > 0] keeps the divisor away from zero. *)
Lemma axis_scale_no_zero_division (extent : Z) (range : num) :
  exists s, axis_scale extent range = Ok s.
Proof.
  unfold axis_scale, gtb, truediv.
  destruct (ltb (of_int 0) range) eqn:E.
  - rewrite (pos_not_zero _ E). eexists. reflexivity.
  - eexists. reflexivity.
Qed.

Lemma normalize_no_zero_division (points : list sample) :
  normalize_coordinates points <> Raise ZeroDivisionError.
Proof.
  destruct points as [|first rest]; [discriminate|].
  rewrite normalize_cons. cbv zeta.
  destruct (axis_scale_no_zero_division (height - 2 * margin)
    (sub (py_max_from (lat_of first) (map lat_of rest))
         (py_min_from (lat_of first) (map lat_of rest)))) as [sl ->].
  destruct (axis_scale_no_zero_division (width - 2 * margin)
    (sub (py_max_from (lon_of first) (map lon_of rest))
         (py_min_from (lon_of first) (map lon_of rest)))) as [so ->].
  cbn [bind].
  match goal with
  | |- bind ?c _ <> _ => destruct c as [st|e] eqn:E; cbn [bind]
  end.
  - discriminate.
  - intros H. injection H as ->.
    exact (for_each_no_zero_division _ _ _ _ _ E).
Qed.

End Division.

(** Both arithmetics keep the laws. *)
Lemma binary64_laws (M : B64.Libm) : PyLaws (B64.binary64 M).
Proof.
  constructor; simpl.
  - intros [s|s| |s m e]; simpl; intros H; try reflexivity; discriminate H.
  - reflexivity.
  - intros x. unfold B64.math_1.
    destruct (_ && _); [discriminate|]. destruct (_ && _); discriminate.
  - intros x. unfold B64.math_1.
    destruct (_ && _); [discriminate|]. destruct (_ && _); discriminate.
  - intros x. unfold B64.math_1.
    destruct (_ && _); [discriminate|]. destruct (_ && _); discriminate.
  - intros x. unfold B64.math_1.
    destruct (_ && _); [discriminate|]. destruct (_ && _); discriminate.
  - intros [s|s| |s m e]; simpl; try discriminate.
    destruct (B64.feqb _ _); [discriminate|].
    destruct (B64.is_inf _); discriminate.
  - intros [s|s| |s m e]; simpl; try discriminate.
    destruct (B64.hundredths m e); try discriminate.
    destruct (B64.is_inf _); discriminate.
  - intros [s|s| |s m e]; simpl; discriminate.
Qed.

Lemma Rexact_laws : PyLaws Exact.Rexact.
Proof.
  constructor; simpl; try discriminate.
  - intros x. unfold Exact.Rltb, Exact.Rzerob.
    destruct (Rlt_dec 0 x) as [H|H]; [|discriminate].
    intros _. destruct (Req_dec_T x 0) as [E|E]; [lra | reflexivity].
  - unfold Exact.Rzerob. destruct (Req_dec_T 2 0) as [E|E]; [lra | reflexivity].
  - intros x. unfold Exact.real_asin.
    destruct (Rle_dec (-1) x); [|discriminate].
    destruct (Rle_dec x 1); discriminate.
  - intros x. unfold Exact.real_sqrt. destruct (Rle_dec 0 x); discriminate.
Qed.

(** ** In binary64 *)

Module Binary64Facts.
Import B64.

Abbreviation pzero := (S754_zero false).

Lemma fsub_diag (x : f64) : is_finite x = true -> fsub x x = pzero.
Proof.
  destruct x as [s|s| |s m e]; intros H; try discriminate H.
  - destruct s; reflexivity.
  - unfold fsub, SFsub. rewrite Z.sub_diag. reflexivity.
Qed.

Lemma fmul_finite_args (c : f64) : is_finite (fmul c c) = true -> is_finite c = true.
Proof. destruct c as [s|s| |s m e]; simpl; intros H; try reflexivity; discriminate H. Qed.

Lemma fmul_zero_r (d : f64) :
  is_finite d = true -> exists s, fmul d pzero = S754_zero s.
Proof.
  destruct d as [s|s| |s m e]; intros H; try discriminate H; simpl; eauto.
Qed.

Lemma fadd_zero_zero (s : bool) : fadd pzero (S754_zero s) = pzero.
Proof. destruct s; reflexivity. Qed.

Lemma math_1_finite (func : f64 -> f64) (x : f64) :
  is_finite (func x) = true -> math_1 func x = Ok (func x).
Proof.
  unfold math_1. destruct (func x) as [s|s| |s m e]; intros H;
    try discriminate H; reflexivity.
Qed.

Lemma float_round0_finite (x : f64) :
  is_finite x = true -> exists n : Z, float_round0 x = Ok n.
Proof.
  destruct x as [s|s| |s m e]; intros H; try discriminate H; simpl; eauto.
Qed.

Section SamePlace.
Variable M : Libm.
Hypothesis sin_zero : c_sin M pzero = pzero.
Hypothesis asin_zero : c_asin M pzero = pzero.

(** The distance from a place to itself is [+0.0] as soon as the library
    keeps zero ([sin 0 = 0], [asin 0 = 0], as the C standard requires) and
    the cosine of the latitude has a finite square. *)
Lemma haversine_same (lat lon : f64) :
  is_finite lat = true ->
  is_finite lon = true ->
  is_finite (fmul (c_cos M (fradians lat)) (c_cos M (fradians lat))) = true ->
  haversine_km (F := binary64 M) lat lon lat lon = Ok pzero.
Proof.
  intros Hlat Hlon Hcos.
  unfold haversine_km, truediv.
  change (@sub (binary64 M)) with fsub. change (@radians (binary64 M)) with fradians.
  rewrite (fsub_diag lat Hlat), (fsub_diag lon Hlon).
  change (fradians pzero) with pzero.
  change (@is_zero (binary64 M) (@of_int (binary64 M) 2)) with false.
  change (@div (binary64 M) pzero (@of_int (binary64 M) 2)) with pzero.
  cbn [bind].
  change (@math_sin (binary64 M)) with (math_1 (c_sin M)).
  rewrite (math_1_finite (c_sin M) pzero) by (rewrite sin_zero; reflexivity).
  rewrite sin_zero. cbn [bind].
  change (@pow2 (binary64 M) pzero) with (@Ok f64 pzero). cbn [bind].
  change (@math_cos (binary64 M)) with (math_1 (c_cos M)).
  rewrite (math_1_finite (c_cos M) (fradians lat)) by (apply fmul_finite_args, Hcos).
  cbn [bind].
  change (@mul (binary64 M)) with fmul. change (@add (binary64 M)) with fadd.
  destruct (fmul_zero_r _ Hcos) as [s ->].
  rewrite fadd_zero_zero.
  change (@math_sqrt (binary64 M) pzero) with (@Ok f64 pzero). cbn [bind].
  change (@math_asin (binary64 M)) with (math_1 (c_asin M)).
  rewrite (math_1_finite (c_asin M) pzero) by (rewrite asin_zero; reflexivity).
  rewrite asin_zero. cbn [bind].
  reflexivity.
Qed.

(** Two samples at one place, in binary64: the same drawing point twice,
    both distances [+0.0], nothing raised. *)
Lemma same_place_binary64 (lat lon ele_1 ele_2 : f64) :
  is_finite lat = true ->
  is_finite lon = true ->
  is_finite ele_1 = true ->
  is_finite ele_2 = true ->
  is_finite (fmul (c_cos M (fradians lat)) (c_cos M (fradians lat))) = true ->
  exists n_1 n_2 : Z,
    normalize_coordinates (F := binary64 M) [(lat, lon, ele_1); (lat, lon, ele_2)]
    = Ok ([(of_Z margin, of_Z (height - margin));
           (of_Z margin, of_Z (height - margin))],
          [(pzero, n_1); (pzero, n_2)]).
Proof.
  intros Hlat Hlon He1 He2 Hcos.
  destruct (float_round0_finite ele_1 He1) as [n_1 Hn1].
  destruct (float_round0_finite ele_2 He2) as [n_2 Hn2].
  exists n_1, n_2.
  pose proof (haversine_same lat lon Hlat Hlon Hcos) as Hh.
  assert (Hmin : forall x : f64, py_min_from (F := binary64 M) x [x] = x).
  { intros x. unfold py_min_from. simpl. destruct (fltb x x); reflexivity. }
  assert (Hmax : forall x : f64, py_max_from (F := binary64 M) x [x] = x).
  { intros x. unfold py_max_from, gtb. simpl. destruct (fltb x x); reflexivity. }
  etransitivity.
  - apply (normalize_run (F := binary64 M) (lat, lon, ele_1) [(lat, lon, ele_2)]
             (of_Z 1) (of_Z 1) [pzero; pzero] [(pzero, n_1); (pzero, n_2)]).
    + cbn [map lat_of lon_of fst snd]. rewrite Hmin, Hmax.
      change (@sub (binary64 M)) with fsub. rewrite (fsub_diag lat Hlat). reflexivity.
    + cbn [map lat_of lon_of fst snd]. rewrite Hmin, Hmax.
      change (@sub (binary64 M)) with fsub. rewrite (fsub_diag lon Hlon). reflexivity.
    + change (running (F := binary64 M) (of_Z 0) lat lon
                [(lat, lon, ele_1); (lat, lon, ele_2)]
                [fadd (of_Z 0) pzero; fadd (fadd (of_Z 0) pzero) pzero]).
      apply (running_cons (F := binary64 M) _ _ _ (lat, lon, ele_1) _ pzero);
        [exact Hh|].
      apply (running_cons (F := binary64 M) _ _ _ (lat, lon, ele_2) _ pzero);
        [exact Hh|].
      constructor.
    + apply (entries_cons (F := binary64 M)); [reflexivity | exact Hn1 |].
      apply (entries_cons (F := binary64 M)); [reflexivity | exact Hn2 |].
      constructor.
  - cbn [map lat_of lon_of fst snd]. rewrite !Hmin.
    unfold draw. cbn [lat_of lon_of fst snd].
    change (@sub (binary64 M)) with fsub.
    rewrite (fsub_diag lat Hlat), (fsub_diag lon Hlon). reflexivity.
Qed.

(** The first distance of a returned profile is [+0.0]: the first sample
    is its own previous sample. *)
Lemma first_distance (first : @sample (binary64 M)) (rest : list (@sample (binary64 M)))
  (ns : list (@point (binary64 M))) (pf : list (@entry (binary64 M))) :
  is_finite (lat_of first) = true ->
  is_finite (lon_of first) = true ->
  is_finite (fmul (c_cos M (fradians (lat_of first)))
                  (c_cos M (fradians (lat_of first)))) = true ->
  normalize_coordinates (F := binary64 M) (first :: rest) = Ok (ns, pf) ->
  exists n : Z, nth_error pf 0 = Some (pzero, n).
Proof.
  intros Hlat Hlon Hcos H.
  apply normalize_Ok in H as (sl & so & accs & _ & _ & Hrun & Hent & _).
  inversion Hrun as [|cum lat lon p rest' h accs' Hh Hrest]; subst.
  rewrite (haversine_same _ _ Hlat Hlon Hcos) in Hh. injection Hh as <-.
  inversion Hent as [|acc accs'' p rest'' d e es Hd He Hes]; subst.
  change (float_round2 pzero = Ok d) in Hd. injection Hd as <-.
  exists e. reflexivity.
Qed.

End SamePlace.
End Binary64Facts.

(** ** In exact arithmetic *)

Module ExactFacts.
Import Exact.
Local Open Scope R_scope.
#[local] Existing Instance Rexact.

(** *** Rounding to the nearest integer *)

Lemma rne_cases (x : R) :
  (rne x = Int_part x /\ x - IZR (Int_part x) <= 1 / 2)
  \/ (rne x = (Int_part x + 1)%Z /\ 1 / 2 <= x - IZR (Int_part x)).
Proof.
  unfold rne.
  destruct (Rlt_dec (x - IZR (Int_part x)) (1 / 2)) as [Hlt|Hge].
  - left. split; [reflexivity | lra].
  - destruct (Rlt_dec (1 / 2) (x - IZR (Int_part x))) as [Hgt|Hle].
    + right. split; [reflexivity | lra].
    + destruct (Z.even (Int_part x)).
      * left. split; [reflexivity | lra].
      * right. split; [reflexivity | lra].
Qed.

Lemma rne_near (x : R) : - (1 / 2) <= IZR (rne x) - x <= 1 / 2.
Proof.
  destruct (base_Int_part x) as [Hlo Hhi].
  destruct (rne_cases x) as [[-> H]|[-> H]]; [|rewrite plus_IZR]; lra.
Qed.

Lemma rne_IZR (z : Z) : rne (IZR z) = z.
Proof.
  assert (Hint : Int_part (IZR z) = z).
  { symmetry. apply Int_part_spec. lra. }
  unfold rne. rewrite Hint.
  destruct (Rlt_dec (IZR z - IZR z) (1 / 2)) as [_|H]; [reflexivity | lra].
Qed.

Lemma rne_le (x y : R) : x <= y -> (rne x <= rne y)%Z.
Proof.
  intros Hxy. unfold rne.
  destruct (base_Int_part x) as [Hx1 Hx2].
  destruct (base_Int_part y) as [Hy1 Hy2].
  generalize dependent (Int_part y). generalize dependent (Int_part x).
  intros n Hn1 Hn2 m Hm1 Hm2.
  assert (Hnm : (n <= m)%Z).
  { apply Z.lt_succ_r, lt_IZR. rewrite succ_IZR. lra. }
  destruct (Z.eq_dec n m) as [<-|Hne].
  - repeat destruct Rlt_dec; destruct (Z.even n); try lia; lra.
  - repeat destruct Rlt_dec; destruct (Z.even n), (Z.even m); lia.
Qed.

Lemma real_round2_0 : real_round2 0 = 0.
Proof.
  unfold real_round2. replace (0 * 100) with (IZR 0) by lra.
  rewrite rne_IZR. lra.
Qed.

Lemma real_round2_le (x y : R) : x <= y -> real_round2 x <= real_round2 y.
Proof.
  intros H. unfold real_round2.
  assert (Hz : (rne (x * 100) <= rne (y * 100))%Z) by (apply rne_le; lra).
  apply IZR_le in Hz. lra.
Qed.

Lemma real_round2_near (x : R) :
  - (1 / 200) <= real_round2 x - x <= 1 / 200.
Proof.
  unfold real_round2. pose proof (rne_near (x * 100)) as H. lra.
Qed.

(** *** The builtin [min] and [max] *)

Lemma py_min_from_le (xs : list R) :
  forall x : R,
    py_min_from (F := Rexact) x xs <= x
    /\ Forall (fun v => py_min_from (F := Rexact) x xs <= v) xs.
Proof.
  unfold py_min_from. simpl. unfold Rltb.
  induction xs as [|v xs IH]; intros x; simpl.
  - split; [lra | constructor].
  - destruct (Rlt_dec v x) as [Hlt|Hge].
    + destruct (IH v) as [H1 H2]. split; [lra|]. constructor; assumption.
    + destruct (IH x) as [H1 H2]. split; [lra|]. constructor; [lra | assumption].
Qed.

Lemma py_max_from_ge (xs : list R) :
  forall x : R,
    x <= py_max_from (F := Rexact) x xs
    /\ Forall (fun v => v <= py_max_from (F := Rexact) x xs) xs.
Proof.
  unfold py_max_from, gtb. simpl. unfold Rltb.
  induction xs as [|v xs IH]; intros x; simpl.
  - split; [lra | constructor].
  - destruct (Rlt_dec x v) as [Hlt|Hge].
    + destruct (IH v) as [H1 H2]. split; [lra|]. constructor; assumption.
    + destruct (IH x) as [H1 H2]. split; [lra|]. constructor; [lra | assumption].
Qed.

(** *** The great-circle distance *)

Lemma sin_sqr_bounds (x : R) : 0 <= sin x * sin x <= 1.
Proof. pose proof (SIN_bound x). nra. Qed.

Lemma sin_sqr_half (x : R) : sin (x / 2) * sin (x / 2) = (1 - cos x) / 2.
Proof.
  pose proof (cos_2a_sin (x / 2)) as H.
  replace (2 * (x / 2)) with x in H by lra. lra.
Qed.

(** The argument of the square root is a haversine: it lies in [[0, 1]]
    whatever the coordinates are. *)
Lemma hav_arg_bounds (a_lat a_lon b_lat b_lon : R) :
  0 <= hav_arg a_lat a_lon b_lat b_lon <= 1.
Proof.
  unfold hav_arg.
  set (pa := real_radians a_lat). set (pb := real_radians b_lat).
  replace (real_radians (b_lat - a_lat)) with (pb - pa)
    by (unfold pa, pb, real_radians; lra).
  set (u := sin (real_radians (b_lon - a_lon) / 2)
            * sin (real_radians (b_lon - a_lon) / 2)).
  assert (Hu : 0 <= u <= 1) by apply sin_sqr_bounds.
  rewrite sin_sqr_half, cos_minus.
  pose proof (COS_bound (pb - pa)) as Hd. rewrite cos_minus in Hd.
  pose proof (COS_bound (pb + pa)) as Hs. rewrite cos_plus in Hs.
  set (C := cos pb * cos pa) in *. set (S := sin pb * sin pa) in *.
  replace (cos pa * cos pb) with C by (unfold C; ring).
  clearbody C S u. nra.
Qed.

Lemma asin_nonneg (x : R) : 0 <= x <= 1 -> 0 <= asin x.
Proof.
  intros Hx. destruct (Rle_dec 0 (asin x)) as [H|H]; [exact H|].
  exfalso. pose proof (asin_bound x) as Hb. pose proof PI_RGT_0 as Hpi.
  assert (Hneg : sin (asin x) < 0) by (apply sin_lt_0_var; lra).
  rewrite sin_asin in Hneg by lra. lra.
Qed.

Lemma sqrt_unit (a : R) : 0 <= a <= 1 -> 0 <= sqrt a <= 1.
Proof.
  intros Ha. split; [apply sqrt_pos|].
  rewrite <- sqrt_1. apply sqrt_le_1_alt. lra.
Qed.

Lemma hav_nonneg (a_lat a_lon b_lat b_lon : R) :
  0 <= hav a_lat a_lon b_lat b_lon.
Proof.
  unfold hav.
  pose proof (asin_nonneg _ (sqrt_unit _ (hav_arg_bounds a_lat a_lon b_lat b_lon))).
  lra.
Qed.

Lemma hav_same (lat lon : R) : hav lat lon lat lon = 0.
Proof.
  unfold hav, hav_arg, real_radians.
  replace ((lat - lat) * (PI / 180) / 2) with 0 by lra.
  replace ((lon - lon) * (PI / 180) / 2) with 0 by lra.
  rewrite sin_0.
  replace (0 * 0 + cos (lat * (PI / 180)) * cos (lat * (PI / 180)) * (0 * 0))
    with 0 by ring.
  rewrite sqrt_0, asin_0. ring.
Qed.

Lemma Rzerob_false (x : R) : x <> 0 -> Rzerob x = false.
Proof.
  intros Hx. unfold Rzerob. destruct (Req_dec_T x 0) as [H|H]; [contradiction|reflexivity].
Qed.

Lemma real_sqrt_Ok (x : R) : 0 <= x -> real_sqrt x = Ok (sqrt x).
Proof.
  intros Hx. unfold real_sqrt. destruct (Rle_dec 0 x); [reflexivity|contradiction].
Qed.

Lemma real_asin_Ok (x : R) : -1 <= x <= 1 -> real_asin x = Ok (asin x).
Proof.
  intros [H1 H2]. unfold real_asin.
  destruct (Rle_dec (-1) x); [|contradiction].
  destruct (Rle_dec x 1); [reflexivity|contradiction].
Qed.

(** In exact arithmetic [haversine_km] never raises. *)
Lemma haversine_exact (a_lat a_lon b_lat b_lon : R) :
  haversine_km (F := Rexact) a_lat a_lon b_lat b_lon
  = Ok (hav a_lat a_lon b_lat b_lon).
Proof.
  unfold haversine_km, truediv. simpl.
  rewrite Rzerob_false by lra. simpl.
  pose proof (hav_arg_bounds a_lat a_lon b_lat b_lon) as Ha.
  unfold hav_arg in Ha.
  rewrite real_sqrt_Ok by lra. simpl.
  pose proof (sqrt_unit _ Ha) as Hs.
  rewrite real_asin_Ok by lra. simpl.
  reflexivity.
Qed.

Lemma running_exact (points : list (R * R * R)) :
  forall cum lat lon : R,
    running (F := Rexact) cum lat lon points (totals cum lat lon points).
Proof.
  induction points as [|p rest IH]; intros cum lat lon; simpl.
  - constructor.
  - apply (running_cons (F := Rexact) cum lat lon p rest
             (hav lat lon (fst (fst p)) (snd (fst p)))).
    + apply haversine_exact.
    + apply IH.
Qed.

Lemma totals_length (points : list (R * R * R)) :
  forall cum lat lon : R, length (totals cum lat lon points) = length points.
Proof.
  induction points as [|p rest IH]; intros cum lat lon; simpl.
  - reflexivity.
  - rewrite IH. reflexivity.
Qed.

Lemma entries_exact (accs : list R) :
  forall points : list (R * R * R),
    length accs = length points ->
    entries (F := Rexact) accs points (profile_of accs points).
Proof.
  induction accs as [|acc accs IH]; intros [|p rest] Hlen; try discriminate Hlen.
  - constructor.
  - unfold profile_of. simpl.
    apply (entries_cons (F := Rexact)); try reflexivity.
    apply IH. simpl in Hlen. lia.
Qed.

Lemma axis_scale_exact (extent : Z) (range : R) :
  axis_scale (F := Rexact) extent range
  = Ok (if Rlt_dec 0 range then IZR extent / range else 1).
Proof.
  unfold axis_scale, gtb, truediv. simpl. unfold Rltb.
  destruct (Rlt_dec 0 range) as [H|H]; [|reflexivity].
  rewrite Rzerob_false by lra. reflexivity.
Qed.

(** *** The whole function *)

(** In exact arithmetic [normalize_coordinates] is total, with this value. *)
Lemma py_min_from_in (xs : list R) :
  forall x : R, In (py_min_from (F := Rexact) x xs) (x :: xs).
Proof.
  unfold py_min_from. simpl. unfold Rltb.
  induction xs as [|v xs IH]; intros x; simpl.
  - left. reflexivity.
  - destruct (Rlt_dec v x).
    + right. apply IH.
    + destruct (IH x) as [H|H]; [left; exact H | right; right; exact H].
Qed.

Lemma py_max_from_in (xs : list R) :
  forall x : R, In (py_max_from (F := Rexact) x xs) (x :: xs).
Proof.
  unfold py_max_from, gtb. simpl. unfold Rltb.
  induction xs as [|v xs IH]; intros x; simpl.
  - left. reflexivity.
  - destruct (Rlt_dec x v).
    + right. apply IH.
    + destruct (IH x) as [H|H]; [left; exact H | right; right; exact H].
Qed.

Lemma normalize_exact (first : R * R * R) (rest : list (R * R * R)) :
  let points := first :: rest in
  let min_lat := py_min_from (F := Rexact) (lat_of first) (map lat_of rest) in
  let max_lat := py_max_from (F := Rexact) (lat_of first) (map lat_of rest) in
  let min_lon := py_min_from (F := Rexact) (lon_of first) (map lon_of rest) in
  let max_lon := py_max_from (F := Rexact) (lon_of first) (map lon_of rest) in
  let lat_range := max_lat - min_lat in
  let lon_range := max_lon - min_lon in
  let scale_lat :=
    if Rlt_dec 0 lat_range then IZR (height - 2 * margin) / lat_range else 1 in
  let scale_lon :=
    if Rlt_dec 0 lon_range then IZR (width - 2 * margin) / lon_range else 1 in
  let scale := min2 (F := Rexact) scale_lat scale_lon in
  normalize_coordinates (F := Rexact) points
  = Ok (map (draw (F := Rexact) min_lat min_lon scale) points,
        profile_of (totals 0 (lat_of first) (lon_of first) points) points).
Proof.
  intros points min_lat max_lat min_lon max_lon lat_range lon_range
    scale_lat scale_lon scale.
  apply (normalize_run (F := Rexact)) with
    (accs := totals 0 (lat_of (F := Rexact) first) (lon_of (F := Rexact) first) points).
  - apply axis_scale_exact.
  - apply axis_scale_exact.
  - apply running_exact.
  - apply entries_exact, totals_length.
Qed.

Lemma normalize_total (points : list (R * R * R)) :
  exists ns pf, normalize_coordinates (F := Rexact) points = Ok (ns, pf).
Proof.
  destruct points as [|first rest].
  - exists [], []. reflexivity.
  - eexists _, _. apply normalize_exact.
Qed.

(** *** The scale *)

Lemma min2_cases (a b : R) :
  min2 (F := Rexact) a b <= a /\ min2 (F := Rexact) a b <= b
  /\ (min2 (F := Rexact) a b = a \/ min2 (F := Rexact) a b = b).
Proof.
  unfold min2. simpl. unfold Rltb.
  destruct (Rlt_dec b a); repeat split; try lra; auto.
Qed.

Lemma axis_scale_pos (extent : Z) (range : R) :
  (0 < extent)%Z ->
  0 < (if Rlt_dec 0 range then IZR extent / range else 1).
Proof.
  intros He. apply IZR_lt in He.
  destruct (Rlt_dec 0 range) as [H|H]; [|lra].
  apply Rdiv_lt_0_compat; assumption.
Qed.

(** A scale no larger than the axis scale keeps an offset within the
    range inside the extent. *)
Lemma offset_fits (extent : Z) (range scale t : R) :
  (0 < extent)%Z ->
  0 < scale <= (if Rlt_dec 0 range then IZR extent / range else 1) ->
  0 <= t <= range ->
  0 <= t * scale <= IZR extent.
Proof.
  intros He [Hpos Hle] [Ht0 Ht1]. apply IZR_lt in He.
  split; [nra|].
  destruct (Rlt_dec 0 range) as [Hr|Hr].
  - assert (Hq : IZR extent / range * range = IZR extent) by (field; lra).
    nra.
  - assert (t = 0) by lra. subst t. lra.
Qed.

(** *** The accumulator *)

Lemma totals_sorted (points : list (R * R * R)) :
  forall cum lat lon : R,
    Forall (fun t => cum <= t) (totals cum lat lon points)
    /\ StronglySorted Rle (totals cum lat lon points).
Proof.
  induction points as [|p rest IH]; intros cum lat lon; simpl.
  - split; constructor.
  - pose proof (hav_nonneg lat lon (fst (fst p)) (snd (fst p))) as Hh.
    destruct (IH (cum + hav lat lon (fst (fst p)) (snd (fst p)))
                (fst (fst p)) (snd (fst p))) as [Hall Hsorted].
    split.
    + constructor; [lra|].
      eapply Forall_impl; [|exact Hall]. simpl. intros t Ht. lra.
    + constructor; assumption.
Qed.

Lemma profile_of_distances (accs : list R) :
  forall points : list (R * R * R),
    length accs = length points ->
    map fst (profile_of accs points) = map real_round2 accs.
Proof.
  unfold profile_of.
  induction accs as [|acc accs IH]; intros [|p rest] Hlen; try discriminate Hlen.
  - reflexivity.
  - simpl. f_equal. apply IH. simpl in Hlen. lia.
Qed.

Lemma map_round2_sorted (accs : list R) :
  StronglySorted Rle accs -> StronglySorted Rle (map real_round2 accs).
Proof.
  induction 1 as [|acc accs Hs IH Hall]; simpl; constructor.
  - exact IH.
  - apply Forall_map. eapply Forall_impl; [|exact Hall].
    simpl. intros t Ht. apply real_round2_le. exact Ht.
Qed.

End ExactFacts.

(** ** Rounding to nearest in binary64 *)

Module ValuesFacts.
Import Values.
Local Open Scope R_scope.

(** *** Powers of two *)

Lemma bpow_pos (e : Z) : 0 < bpow e.
Proof. apply powerRZ_lt. lra. Qed.

Lemma bpow_add (a b : Z) : bpow (a + b) = bpow a * bpow b.
Proof. apply powerRZ_add. lra. Qed.

Lemma bpow_IZR (n : Z) : (0 <= n)%Z -> bpow n = IZR (2 ^ n).
Proof.
  intros Hn. unfold bpow.
  rewrite <- (Z2Nat.id n Hn) at 1. rewrite <- pow_powerRZ.
  rewrite <- (Z2Nat.id n Hn) at 2. rewrite <- pow_IZR. reflexivity.
Qed.

Lemma bpow_0 : bpow 0 = 1.
Proof. reflexivity. Qed.

Lemma bpow_1 : bpow 1 = 2.
Proof. unfold bpow. simpl. lra. Qed.

Lemma bpow_ge_1 (n : Z) : (0 <= n)%Z -> 1 <= bpow n.
Proof.
  intros Hn. rewrite (bpow_IZR n Hn). apply IZR_le.
  pose proof (Z.pow_pos_nonneg 2 n ltac:(lia) Hn). lia.
Qed.

Lemma bpow_le (a b : Z) : (a <= b)%Z -> bpow a <= bpow b.
Proof.
  intros H. replace b with (a + (b - a))%Z by lia. rewrite bpow_add.
  pose proof (bpow_pos a). pose proof (bpow_ge_1 (b - a) ltac:(lia)). nra.
Qed.

Lemma bpow_lt (a b : Z) : (a < b)%Z -> bpow a < bpow b.
Proof.
  intros H. replace b with (a + 1 + (b - a - 1))%Z by lia.
  rewrite !bpow_add, bpow_1.
  pose proof (bpow_pos a). pose proof (bpow_ge_1 (b - a - 1) ltac:(lia)). nra.
Qed.

Lemma bpow_lt_inv (a b : Z) : bpow a < bpow b -> (a < b)%Z.
Proof.
  intros H. destruct (Z_lt_le_dec a b) as [|Hle]; [assumption|].
  apply bpow_le in Hle. lra.
Qed.

Lemma bpow_le_inv (a b : Z) : bpow a <= bpow b -> (a <= b)%Z.
Proof.
  intros H. destruct (Z_le_gt_dec a b) as [|Hgt]; [assumption|].
  apply Z.gt_lt, bpow_lt in Hgt. lra.
Qed.

Lemma bpow_pred (e : Z) : bpow (e - 1) = bpow e / 2.
Proof.
  replace e with ((e - 1) + 1)%Z at 2 by lia. rewrite bpow_add, bpow_1. lra.
Qed.

Lemma bpow_opp (e : Z) : bpow (- e) = / bpow e.
Proof.
  pose proof (bpow_pos e) as H.
  apply Rmult_eq_reg_r with (bpow e); [|lra].
  rewrite <- bpow_add. replace (- e + e)%Z with 0%Z by lia.
  rewrite bpow_0. field. lra.
Qed.

(** *** The format *)

Lemma emin_eq : emin = (-1074)%Z.
Proof. reflexivity. Qed.

Lemma fexp_eq (e : Z) : fexp e = Z.max (e - 53) (-1074).
Proof. reflexivity. Qed.

Lemma prec_eq : prec = 53%Z.
Proof. reflexivity. Qed.

Lemma emax_eq : emax = 1024%Z.
Proof. reflexivity. Qed.

(** *** Binary digits *)

Lemma digits2_pos_bounds (p : positive) :
  (2 ^ (Zpos (digits2_pos p) - 1) <= Zpos p < 2 ^ Zpos (digits2_pos p))%Z.
Proof.
  induction p as [p IH|p IH|]; simpl digits2_pos.
  - rewrite Pos2Z.inj_succ.
    replace (Z.succ (Zpos (digits2_pos p)) - 1)%Z
      with (Z.succ (Zpos (digits2_pos p) - 1)) by lia.
    rewrite !Z.pow_succ_r by lia. lia.
  - rewrite Pos2Z.inj_succ.
    replace (Z.succ (Zpos (digits2_pos p)) - 1)%Z
      with (Z.succ (Zpos (digits2_pos p) - 1)) by lia.
    rewrite !Z.pow_succ_r by lia. lia.
  - simpl. lia.
Qed.

Lemma Zdigits2_bounds (m : Z) :
  (0 < m)%Z -> (2 ^ (Zdigits2 m - 1) <= m < 2 ^ Zdigits2 m)%Z.
Proof.
  destruct m as [|p|p]; try lia. intros _. apply digits2_pos_bounds.
Qed.

Lemma Zdigits2_nonneg (m : Z) : (0 <= Zdigits2 m)%Z.
Proof. destruct m; simpl; lia. Qed.

Lemma Zdigits2_pos (m : Z) : (0 < m)%Z -> (0 < Zdigits2 m)%Z.
Proof. destruct m; simpl; lia. Qed.

(** The number of digits from bounds. *)
Lemma Zdigits2_unique (m d : Z) :
  (2 ^ (d - 1) <= m < 2 ^ d)%Z -> (0 < d)%Z -> Zdigits2 m = d.
Proof.
  intros [Hlo Hhi] Hd.
  assert (Hm : (0 < m)%Z).
  { pose proof (Z.pow_pos_nonneg 2 (d - 1) ltac:(lia) ltac:(lia)). lia. }
  destruct (Zdigits2_bounds m Hm) as [Hlo' Hhi'].
  pose proof (Zdigits2_pos m Hm) as Hd'.
  destruct (Z.lt_trichotomy (Zdigits2 m) d) as [H|[H|H]]; [|assumption|].
  - assert (2 ^ Zdigits2 m <= 2 ^ (d - 1))%Z by (apply Z.pow_le_mono_r; lia). lia.
  - assert (2 ^ d <= 2 ^ (Zdigits2 m - 1))%Z by (apply Z.pow_le_mono_r; lia). lia.
Qed.

Lemma Zdigits2_le (m n : Z) : (0 < m <= n)%Z -> (Zdigits2 m <= Zdigits2 n)%Z.
Proof.
  intros [Hm Hmn].
  destruct (Zdigits2_bounds m Hm) as [Hlo _].
  destruct (Zdigits2_bounds n ltac:(lia)) as [_ Hhi].
  destruct (Z_le_gt_dec (Zdigits2 m) (Zdigits2 n)) as [|Hgt]; [assumption|].
  assert (2 ^ Zdigits2 n <= 2 ^ (Zdigits2 m - 1))%Z
    by (apply Z.pow_le_mono_r; lia).
  lia.
Qed.


(** *** Shifting right *)

Lemma shr_1_spec (m : Z) (r s : bool) (t : R) :
  (0 <= m)%Z ->
  inbetween m (loc_of_shr_record (Build_shr_record m r s)) t ->
  let mrs' := shr_1 (Build_shr_record m r s) in
  shr_m mrs' = (m / 2)%Z
  /\ inbetween (shr_m mrs') (loc_of_shr_record mrs') (t / 2).
Proof.
  intros Hm H.
  assert (Hdiv : forall q b : Z, (0 <= b < 2)%Z -> ((2 * q + b) / 2 = q)%Z).
  { intros q b Hb. symmetry. apply Z.div_unique with b; lia. }
  destruct m as [|[p|p|]|p]; try lia.
  - split; [destruct r, s; reflexivity|].
    destruct r, s; simpl in *; lra.
  - assert (HI : IZR (Zpos p~1) = 2 * IZR (Zpos p) + 1)
      by (rewrite Pos2Z.inj_xI, plus_IZR, mult_IZR; reflexivity).
    split.
    + transitivity (Zpos p); [destruct r, s; reflexivity|].
      symmetry. rewrite Pos2Z.inj_xI. apply Hdiv. lia.
    + destruct r, s; simpl in *; lra.
  - assert (HI : IZR (Zpos p~0) = 2 * IZR (Zpos p))
      by (rewrite Pos2Z.inj_xO, mult_IZR; reflexivity).
    split.
    + transitivity (Zpos p); [destruct r, s; reflexivity|].
      symmetry. rewrite Pos2Z.inj_xO.
      replace (2 * Zpos p)%Z with (2 * Zpos p + 0)%Z by lia. apply Hdiv. lia.
    + destruct r, s; simpl in *; lra.
  - split; [destruct r, s; reflexivity|].
    destruct r, s; simpl in *; lra.
Qed.

Lemma pow2_xI (p : positive) :
  (2 ^ Zpos p~1 = 2 * (2 ^ Zpos p * 2 ^ Zpos p))%Z.
Proof.
  replace (Zpos p~1) with (1 + Zpos p + Zpos p)%Z by lia.
  rewrite !Z.pow_add_r by lia. lia.
Qed.

Lemma pow2_xO (p : positive) : (2 ^ Zpos p~0 = 2 ^ Zpos p * 2 ^ Zpos p)%Z.
Proof.
  replace (Zpos p~0) with (Zpos p + Zpos p)%Z by lia.
  rewrite !Z.pow_add_r by lia. lia.
Qed.

Lemma bpow_xI (p : positive) :
  bpow (Zpos p~1) = 2 * (bpow (Zpos p) * bpow (Zpos p)).
Proof.
  replace (Zpos p~1) with (1 + Zpos p + Zpos p)%Z by lia.
  rewrite !bpow_add, bpow_1. ring.
Qed.

Lemma bpow_xO (p : positive) : bpow (Zpos p~0) = bpow (Zpos p) * bpow (Zpos p).
Proof.
  replace (Zpos p~0) with (Zpos p + Zpos p)%Z by lia.
  rewrite !bpow_add. ring.
Qed.

Lemma iter_shr_1_spec (p : positive) :
  forall (mrs : shr_record) (t : R),
    (0 <= shr_m mrs)%Z ->
    inbetween (shr_m mrs) (loc_of_shr_record mrs) t ->
    let mrs' := SpecFloat.iter_pos shr_1 p mrs in
    shr_m mrs' = (shr_m mrs / 2 ^ Zpos p)%Z
    /\ inbetween (shr_m mrs') (loc_of_shr_record mrs') (t / bpow (Zpos p)).
Proof.
  assert (Hstep : forall mrs t,
             (0 <= shr_m mrs)%Z ->
             inbetween (shr_m mrs) (loc_of_shr_record mrs) t ->
             shr_m (shr_1 mrs) = (shr_m mrs / 2)%Z
             /\ inbetween (shr_m (shr_1 mrs)) (loc_of_shr_record (shr_1 mrs)) (t / 2)).
  { intros [m r s] t Hm H. exact (shr_1_spec m r s t Hm H). }
  assert (Hnn : forall a b : Z, (0 <= a)%Z -> (0 < b)%Z -> (0 <= a / b)%Z).
  { intros a b Ha Hb. apply Z.div_pos; assumption. }
  induction p as [p IH|p IH|]; intros mrs t Hm H; cbn [SpecFloat.iter_pos].
  - destruct (Hstep mrs t Hm H) as [E1 H1].
    assert (Hm1 : (0 <= shr_m (shr_1 mrs))%Z) by (rewrite E1; apply Hnn; lia).
    destruct (IH _ _ Hm1 H1) as [E2 H2].
    assert (Hp : (0 < 2 ^ Zpos p)%Z) by (apply Z.pow_pos_nonneg; lia).
    assert (Hm2 : (0 <= shr_m (SpecFloat.iter_pos shr_1 p (shr_1 mrs)))%Z)
      by (rewrite E2; apply Hnn; lia).
    destruct (IH _ _ Hm2 H2) as [E3 H3].
    split.
    + rewrite E3, E2, E1. rewrite !Z.div_div by lia.
      rewrite pow2_xI. f_equal; lia.
    + replace (t / bpow (Zpos p~1)) with (t / 2 / bpow (Zpos p) / bpow (Zpos p));
        [exact H3|].
      rewrite bpow_xI. pose proof (bpow_pos (Zpos p)). field. lra.
  - assert (Hp : (0 < 2 ^ Zpos p)%Z) by (apply Z.pow_pos_nonneg; lia).
    destruct (IH _ _ Hm H) as [E2 H2].
    assert (Hm2 : (0 <= shr_m (SpecFloat.iter_pos shr_1 p mrs))%Z)
      by (rewrite E2; apply Hnn; lia).
    destruct (IH _ _ Hm2 H2) as [E3 H3].
    split.
    + rewrite E3, E2. rewrite !Z.div_div by lia.
      rewrite pow2_xO. reflexivity.
    + replace (t / bpow (Zpos p~0)) with (t / bpow (Zpos p) / bpow (Zpos p));
        [exact H3|].
      rewrite bpow_xO. pose proof (bpow_pos (Zpos p)). field. lra.
  - destruct (Hstep mrs t Hm H) as [E1 H1]. split.
    + rewrite E1. reflexivity.
    + rewrite bpow_1. exact H1.
Qed.

Lemma shr_spec (mrs : shr_record) (e n : Z) (t : R) :
  (0 <= n)%Z ->
  (0 <= shr_m mrs)%Z ->
  inbetween (shr_m mrs) (loc_of_shr_record mrs) t ->
  let mrs' := fst (shr mrs e n) in
  snd (shr mrs e n) = (e + n)%Z
  /\ shr_m mrs' = (shr_m mrs / 2 ^ n)%Z
  /\ (0 <= shr_m mrs')%Z
  /\ inbetween (shr_m mrs') (loc_of_shr_record mrs') (t / bpow n).
Proof.
  intros Hn Hm H. destruct n as [|p|p]; try lia.
  - cbn [shr fst snd]. rewrite Z.div_1_r, Z.add_0_r, bpow_0.
    replace (t / 1) with t by field.
    repeat split; assumption.
  - cbn [shr fst snd].
    destruct (iter_shr_1_spec p mrs t Hm H) as [E1 H1].
    repeat split; try assumption.
    rewrite E1. apply Z.div_pos; [assumption|]. apply Z.pow_pos_nonneg; lia.
Qed.

Lemma shr_record_of_loc_spec (m : Z) (l : location) :
  shr_m (shr_record_of_loc m l) = m
  /\ loc_of_shr_record (shr_record_of_loc m l) = l.
Proof. destruct l as [|[| |]]; split; reflexivity. Qed.

(** *** Rounding a located value *)

Lemma rne_inbetween (m : Z) (l : location) (t : R) :
  inbetween m l t -> round_nearest_even m l = Exact.rne t.
Proof.
  intros H.
  assert (Hint : Int_part t = m).
  { symmetry. apply Int_part_spec. destruct l as [|[| |]]; simpl in H; lra. }
  unfold Exact.rne. rewrite Hint.
  destruct l as [|[| |]]; simpl in *.
  - destruct (Rlt_dec (t - IZR m) (1 / 2)); [reflexivity | lra].
  - destruct (Rlt_dec (t - IZR m) (1 / 2)); [lra|].
    destruct (Rlt_dec (1 / 2) (t - IZR m)); [lra|].
    destruct (Z.even m); reflexivity.
  - destruct (Rlt_dec (t - IZR m) (1 / 2)); [reflexivity | lra].
  - destruct (Rlt_dec (t - IZR m) (1 / 2)); [lra|].
    destruct (Rlt_dec (1 / 2) (t - IZR m)); [reflexivity | lra].
Qed.


(** *** Digits and magnitudes *)

Lemma Zdigits2_le_iff (m j : Z) :
  (0 < m)%Z -> (0 <= j)%Z -> (Zdigits2 m <= j)%Z <-> (m < 2 ^ j)%Z.
Proof.
  intros Hm Hj. destruct (Zdigits2_bounds m Hm) as [Hlo Hhi].
  pose proof (Zdigits2_pos m Hm) as Hd.
  split; intros H.
  - assert (2 ^ Zdigits2 m <= 2 ^ j)%Z by (apply Z.pow_le_mono_r; lia). lia.
  - destruct (Z_le_gt_dec (Zdigits2 m) j) as [|Hgt]; [assumption|].
    assert (2 ^ j <= 2 ^ (Zdigits2 m - 1))%Z by (apply Z.pow_le_mono_r; lia). lia.
Qed.

Lemma Zdigits2_gt_iff (m j : Z) :
  (0 < m)%Z -> (0 <= j)%Z -> (j < Zdigits2 m)%Z <-> (2 ^ j <= m)%Z.
Proof.
  intros Hm Hj. pose proof (Zdigits2_le_iff m j Hm Hj). lia.
Qed.

Lemma IZR_pow2_bpow (j : Z) : (0 <= j)%Z -> IZR (2 ^ j) = bpow j.
Proof. intros Hj. symmetry. apply bpow_IZR, Hj. Qed.

(** The value [m * 2^e] of a positive mantissa lies in the binade of its
    digits. *)
Lemma mantissa_binade (m e : Z) :
  (0 < m)%Z ->
  bpow (Zdigits2 m + e - 1) <= IZR m * bpow e < bpow (Zdigits2 m + e).
Proof.
  intros Hm. destruct (Zdigits2_bounds m Hm) as [Hlo Hhi].
  pose proof (Zdigits2_pos m Hm) as Hd.
  apply IZR_le in Hlo. apply IZR_lt in Hhi.
  rewrite IZR_pow2_bpow in Hlo, Hhi by lia.
  replace (Zdigits2 m + e - 1)%Z with ((Zdigits2 m - 1) + e)%Z by lia.
  rewrite !bpow_add. pose proof (bpow_pos e). split; nra.
Qed.

Lemma fexp_le (a b : Z) : (a <= b)%Z -> (fexp a <= fexp b)%Z.
Proof. rewrite !fexp_eq. lia. Qed.

Lemma fexp_ge_emin (k : Z) : (-1074 <= fexp k)%Z.
Proof. rewrite fexp_eq. lia. Qed.


(** *** The rounding of [binary_round_aux] *)

Lemma rne_half : Exact.rne (1 / 2) = 0%Z.
Proof.
  assert (Hint : Int_part (1 / 2) = 0%Z).
  { symmetry. apply Int_part_spec. simpl. lra. }
  unfold Exact.rne. rewrite Hint. simpl.
  destruct (Rlt_dec (1 / 2 - 0) (1 / 2)); [lra|].
  destruct (Rlt_dec (1 / 2) (1 / 2 - 0)); [lra | reflexivity].
Qed.

Lemma inbetween_bounds (m : Z) (l : location) (t : R) :
  inbetween m l t -> IZR m <= t < IZR m + 1.
Proof. destruct l as [|[| |]]; simpl; lra. Qed.

Lemma shr_fexp_spec (m e : Z) (l : location) (x : R) :
  (0 <= m)%Z ->
  inbetween m l (x / bpow e) ->
  (e <= fexp (Zdigits2 m + e))%Z ->
  let e1 := fexp (Zdigits2 m + e) in
  let mrs := fst (shr_fexp prec emax m e l) in
  snd (shr_fexp prec emax m e l) = e1
  /\ (0 <= shr_m mrs)%Z
  /\ inbetween (shr_m mrs) (loc_of_shr_record mrs) (x / bpow e1).
Proof.
  intros Hm H He e1 mrs.
  destruct (shr_record_of_loc_spec m l) as [Em El].
  pose proof (shr_spec (shr_record_of_loc m l) e (e1 - e) (x / bpow e)
                ltac:(unfold e1; lia) ltac:(rewrite Em; exact Hm)
                ltac:(rewrite Em, El; exact H)) as (E1 & _ & Hm1 & H1).
  change (shr_fexp prec emax m e l)
    with (shr (shr_record_of_loc m l) e (e1 - e)) in *.
  split; [rewrite E1; lia|]. split; [exact Hm1|].
  replace (x / bpow e1) with (x / bpow e / bpow (e1 - e)); [exact H1|].
  replace e1 with (e + (e1 - e))%Z at 2 by lia. rewrite bpow_add.
  pose proof (bpow_pos e). pose proof (bpow_pos (e1 - e)). field. lra.
Qed.

(** The binade of a located value. *)
Lemma located_mag (m e : Z) (l : location) (x : R) :
  (0 <= m)%Z ->
  inbetween m l (x / bpow e) ->
  (e <= fexp (Zdigits2 m + e))%Z ->
  0 <= x
  /\ mag_of x (Zdigits2 m + e)
  /\ ((0 < m)%Z -> bpow (Zdigits2 m + e - 1) <= x).
Proof.
  intros Hm H He. apply inbetween_bounds in H.
  pose proof (bpow_pos e) as Hpe.
  assert (Hx : IZR m * bpow e <= x < (IZR m + 1) * bpow e).
  { replace x with (x / bpow e * bpow e) by (field; lra). split; nra. }
  assert (H0 : 0 <= IZR m) by (apply IZR_le in Hm; exact Hm).
  split; [nra|].
  destruct (Z.eq_dec m 0) as [->|Hne].
  - simpl Zdigits2 in *. rewrite Z.add_0_l in *. split.
    + split; [simpl in Hx; lra|]. right. rewrite fexp_eq in He.
      rewrite emin_eq, prec_eq. lia.
    + lia.
  - assert (Hpos : (0 < m)%Z) by lia.
    pose proof (mantissa_binade m e Hpos) as [Hlo Hhi].
    destruct (Zdigits2_bounds m Hpos) as [_ Hd].
    assert (Hd' : IZR m + 1 <= bpow (Zdigits2 m)).
    { rewrite <- IZR_pow2_bpow by apply Zdigits2_nonneg.
      rewrite <- plus_IZR. apply IZR_le. lia. }
    assert (Hup : x < bpow (Zdigits2 m + e)) by (rewrite bpow_add; nra).
    split; [split; [exact Hup | left; lra]|].
    intros _. lra.
Qed.

Lemma rne_nonneg (t : R) : 0 <= t -> (0 <= Exact.rne t)%Z.
Proof.
  intros Ht. rewrite <- (ExactFacts.rne_IZR 0). apply ExactFacts.rne_le. exact Ht.
Qed.


Lemma rounded_mantissa (x : R) (k : Z) :
  0 <= x ->
  mag_of x k ->
  let m2 := Exact.rne (x / bpow (fexp k)) in
  (0 <= m2)%Z
  /\ ((k < fexp k)%Z -> m2 = 0%Z)
  /\ ((fexp k <= k)%Z -> (m2 <= 2 ^ (k - fexp k))%Z)
  /\ ((-1021 < k)%Z -> (2 ^ 52 <= m2)%Z).
Proof.
  intros Hx [Hup Hlo] m2.
  pose proof (bpow_pos (fexp k)) as Hpe.
  assert (Ht0 : 0 <= x / bpow (fexp k)).
  { apply Rmult_le_pos; [exact Hx|]. apply Rlt_le, Rinv_0_lt_compat, Hpe. }
  assert (Ht1 : x / bpow (fexp k) < bpow (k - fexp k)).
  { replace (k - fexp k)%Z with (k + - fexp k)%Z by lia.
    rewrite bpow_add, bpow_opp. apply Rmult_lt_compat_r; [|exact Hup].
    apply Rinv_0_lt_compat, Hpe. }
  split; [apply rne_nonneg, Ht0|]. split; [|split].
  - intros Hk.
    assert (Hle : bpow (k - fexp k) <= bpow (-1)) by (apply bpow_le; lia).
    assert (Hh : bpow (-1) = 1 / 2).
    { unfold bpow. simpl. lra. }
    pose proof (rne_nonneg _ Ht0) as H0.
    assert (H1 : (Exact.rne (x / bpow (fexp k)) <= Exact.rne (1 / 2))%Z)
      by (apply ExactFacts.rne_le; lra).
    rewrite rne_half in H1. unfold m2. lia.
  - intros Hk. unfold m2.
    rewrite <- (ExactFacts.rne_IZR (2 ^ (k - fexp k))).
    apply ExactFacts.rne_le. rewrite IZR_pow2_bpow by lia. lra.
  - intros Hk. destruct Hlo as [Hlo|Hlo]; [|rewrite emin_eq, prec_eq in Hlo; lia].
    unfold m2. rewrite <- (ExactFacts.rne_IZR (2 ^ 52)).
    apply ExactFacts.rne_le. rewrite IZR_pow2_bpow by lia.
    assert (E : fexp k = (k - 53)%Z) by (rewrite fexp_eq; lia).
    rewrite E. replace 52%Z with ((k - 1) + - (k - 53))%Z by lia.
    rewrite bpow_add, bpow_opp. apply Rmult_le_compat_r; [|exact Hlo].
    apply Rlt_le, Rinv_0_lt_compat, bpow_pos.
Qed.

Lemma shr_fexp_exact_0 (m e : Z) :
  (fexp (Zdigits2 m + e) - e <= 0)%Z ->
  shr_fexp prec emax m e loc_Exact = (Build_shr_record m false false, e).
Proof.
  intros H. unfold shr_fexp. change (SpecFloat.fexp prec emax) with fexp.
  destruct (fexp (Zdigits2 m + e) - e)%Z as [|p|p]; try lia; reflexivity.
Qed.

(** The rounded mantissa put in canonical form. *)
Lemma renormalize_spec (m2 k : Z) :
  (0 < m2)%Z ->
  (fexp k <= k)%Z ->
  (m2 <= 2 ^ (k - fexp k))%Z ->
  ((-1021 < k)%Z -> (2 ^ 52 <= m2)%Z) ->
  let mrs := fst (shr_fexp prec emax m2 (fexp k) loc_Exact) in
  let e2 := snd (shr_fexp prec emax m2 (fexp k) loc_Exact) in
  (0 < shr_m mrs)%Z
  /\ IZR (shr_m mrs) * bpow e2 = IZR m2 * bpow (fexp k)
  /\ fexp (Zdigits2 (shr_m mrs) + e2) = e2.
Proof.
  intros Hm Hk Hhi Hlo.
  pose proof (Zdigits2_pos m2 Hm) as Hd.
  destruct (Z_lt_le_dec m2 (2 ^ (k - fexp k))) as [Hlt|Hge].
  - (* no carry *)
    assert (Hd2 : (Zdigits2 m2 <= k - fexp k)%Z)
      by (apply Zdigits2_le_iff; [assumption | lia | assumption]).
    assert (Hcan : fexp (Zdigits2 m2 + fexp k) = fexp k).
    { destruct (Z_lt_le_dec (-1021) k) as [Hn|Hs].
      - assert (52 < Zdigits2 m2)%Z
          by (apply Zdigits2_gt_iff; [assumption | lia | auto]).
        rewrite !fexp_eq in *. lia.
      - rewrite !fexp_eq in *. lia. }
    rewrite shr_fexp_exact_0 by lia. cbn [fst snd shr_m].
    repeat split; [exact Hm | exact Hcan].
  - (* the mantissa is a power of two *)
    assert (Em : m2 = (2 ^ (k - fexp k))%Z) by lia.
    destruct (Z_lt_le_dec k (-1021)) as [Hs|Hn].
    + assert (Ed : Zdigits2 m2 = (k - fexp k + 1)%Z).
      { apply Zdigits2_unique; [|lia].
        replace (k - fexp k + 1 - 1)%Z with (k - fexp k)%Z by lia.
        split; [lia|]. rewrite Z.pow_add_r by lia. lia. }
      assert (Hcan : fexp (Zdigits2 m2 + fexp k) = fexp k)
        by (rewrite Ed; rewrite !fexp_eq in *; lia).
      rewrite shr_fexp_exact_0 by lia. cbn [fst snd shr_m].
      repeat split; [exact Hm | exact Hcan].
    + assert (E : fexp k = (k - 53)%Z) by (rewrite fexp_eq; lia).
      rewrite E in *. replace (k - (k - 53))%Z with 53%Z in Em by lia.
      subst m2.
      assert (Es : shr_fexp prec emax (2 ^ 53) (k - 53) loc_Exact
                   = (Build_shr_record (2 ^ 52) false false, (k - 52)%Z)).
      { unfold shr_fexp. change (SpecFloat.fexp prec emax) with fexp.
        change (Zdigits2 (2 ^ 53)) with 54%Z.
        replace (fexp (54 + (k - 53)) - (k - 53))%Z with 1%Z
          by (rewrite fexp_eq; lia).
        cbn -[Z.pow]. f_equal. lia. }
      rewrite Es. cbn [fst snd shr_m].
      split; [reflexivity|]. split.
      * replace (k - 52)%Z with (1 + (k - 53))%Z by lia.
        rewrite bpow_add, bpow_1.
        change (2 ^ 53)%Z with (2 * 2 ^ 52)%Z. rewrite mult_IZR. ring.
      * change (Zdigits2 (2 ^ 52)) with 53%Z. rewrite fexp_eq. lia.
Qed.


(** A canonical mantissa has at most [prec] digits, and exactly [prec]
    above the smallest exponent. *)
Lemma canonical_digits (m e : Z) :
  (0 < m)%Z ->
  fexp (Zdigits2 m + e) = e ->
  (Zdigits2 m <= 53)%Z /\ ((-1074 < e)%Z -> Zdigits2 m = 53%Z).
Proof. intros Hm H. rewrite fexp_eq in H. lia. Qed.

(** [binary_round_aux] returns the float nearest to the located value, or
    an infinity when that is beyond the format. *)
Lemma binary_round_aux_spec (s : bool) (m e : Z) (l : location) (x : R) :
  (0 <= m)%Z ->
  inbetween m l (x / bpow e) ->
  (e <= fexp (Zdigits2 m + e))%Z ->
  let k := (Zdigits2 m + e)%Z in
  let w := rnd_at (fexp k) x in
  let r := binary_round_aux prec emax s m e l in
  0 <= x
  /\ mag_of x k
  /\ valid_binary r = true
  /\ ((w = 0 /\ r = S754_zero s)
      \/ (0 < w < bpow emax
          /\ exists (p : positive) (e' : Z),
               r = S754_finite s p e' /\ IZR (Zpos p) * bpow e' = w)
      \/ (bpow emax <= w /\ r = S754_infinity s)).
Proof.
  intros Hm H He k w r.
  destruct (located_mag m e l x Hm H He) as (Hx & Hmag & _).
  fold k in Hmag.
  destruct (shr_fexp_spec m e l x Hm H He) as (E1 & Hm1 & H1).
  fold k in E1, H1.
  destruct (rounded_mantissa x k Hx Hmag) as (Hm2 & Hz & Hhi & Hlo).
  split; [exact Hx|]. split; [exact Hmag|].
  unfold r, binary_round_aux.
  destruct (shr_fexp prec emax m e l) as [mrs' e'] eqn:Es.
  cbn [fst snd] in E1, Hm1, H1. subst e'.
  rewrite (rne_inbetween _ _ _ H1).
  fold (rnd_at (fexp k) x) in w.
  set (m2 := Exact.rne (x / bpow (fexp k))) in *.
  assert (Ew : w = IZR m2 * bpow (fexp k)) by reflexivity.
  destruct (Z.eq_dec m2 0) as [E0|Hne].
  - (* the value rounds to zero *)
    rewrite E0 in *.
    rewrite shr_fexp_exact_0
      by (simpl Zdigits2; rewrite Z.add_0_l, (fexp_eq (fexp k));
          pose proof (fexp_ge_emin k); lia).
    cbn [shr_m]. split; [reflexivity|]. left. split; [lra | reflexivity].
  - assert (Hpos : (0 < m2)%Z) by lia.
    assert (Hk : (fexp k <= k)%Z).
    { destruct (Z_lt_le_dec k (fexp k)) as [Hlt|]; [|assumption].
      apply Hz in Hlt. lia. }
    destruct (renormalize_spec m2 k Hpos Hk (Hhi Hk) Hlo) as (Hm3 & Ev & Hcan).
    destruct (shr_fexp prec emax m2 (fexp k) loc_Exact) as [mrs'' e''] eqn:Es2.
    cbn [fst snd] in Hm3, Ev, Hcan.
    destruct (shr_m mrs'') as [|p|p] eqn:Ep; try lia.
    destruct (canonical_digits (Zpos p) e'' ltac:(lia) Hcan) as [Hd53 Hdn].
    pose proof (mantissa_binade (Zpos p) e'' ltac:(lia)) as [Hblo Hbhi].
    change (Z.leb e'' (emax - prec)) with (Z.leb e'' 971).
    destruct (Z.leb_spec e'' 971) as [Hle|Hgt].
    + split.
      * apply andb_true_intro. split.
        -- apply Z.eqb_eq. exact Hcan.
        -- apply Z.leb_le. exact Hle.
      * right. left. split.
        -- rewrite Ew, <- Ev. split.
           ++ apply Rmult_lt_0_compat; [apply IZR_lt; lia | apply bpow_pos].
           ++ eapply Rlt_le_trans; [exact Hbhi|]. apply bpow_le.
              rewrite emax_eq. lia.
        -- exists p, e''. split; [reflexivity|]. rewrite Ew. exact Ev.
    + split; [reflexivity|]. right. right. split; [|reflexivity].
      rewrite Ew, <- Ev. eapply Rle_trans; [|exact Hblo].
      apply bpow_le. rewrite emax_eq. specialize (Hdn ltac:(lia)). lia.
Qed.


(** *** Results of operations *)

Lemma bpow_emax_pos : 0 < bpow emax.
Proof. apply bpow_pos. Qed.

Lemma clamp_id (w : R) : - bpow emax < w < bpow emax -> clamp w = w.
Proof.
  intros H. unfold clamp.
  destruct (Rle_dec (bpow emax) w); [lra|].
  destruct (Rle_dec w (- bpow emax)); [lra | reflexivity].
Qed.

Lemma clamp_hi (w : R) : bpow emax <= w -> clamp w = bpow emax.
Proof.
  intros H. unfold clamp. destruct (Rle_dec (bpow emax) w); [reflexivity | lra].
Qed.

Lemma clamp_lo (w : R) : w <= - bpow emax -> clamp w = - bpow emax.
Proof.
  intros H. pose proof bpow_emax_pos. unfold clamp.
  destruct (Rle_dec (bpow emax) w); [lra|].
  destruct (Rle_dec w (- bpow emax)); [reflexivity | lra].
Qed.

Lemma clamp_le (w w' : R) : w <= w' -> clamp w <= clamp w'.
Proof.
  intros H. pose proof bpow_emax_pos. unfold clamp.
  repeat destruct Rle_dec; lra.
Qed.

Lemma clamp_bounds (w : R) : - bpow emax <= clamp w <= bpow emax.
Proof.
  pose proof bpow_emax_pos. unfold clamp. repeat destruct Rle_dec; lra.
Qed.

Lemma rnd_at_0 (e : Z) : rnd_at e 0 = 0.
Proof.
  unfold rnd_at. replace (0 / bpow e) with (IZR 0) by (unfold Rdiv; simpl; ring).
  rewrite ExactFacts.rne_IZR. simpl. ring.
Qed.

Lemma rounds_0 : rounds 0 0.
Proof.
  left. split; [lra|]. exists emin. split.
  - split; [apply bpow_pos|]. right. rewrite prec_eq. lia.
  - symmetry. apply rnd_at_0.
Qed.

(** A float of the given sign whose magnitude is the rounding of [x]. *)
Lemma signed_Rounded (s : bool) (x w : R) (r : spec_float) :
  0 <= x ->
  rounds_pos x w ->
  valid_binary r = true ->
  (w = 0 /\ r = S754_zero s)
  \/ (0 < w < bpow emax
      /\ exists (p : positive) (e' : Z),
           r = S754_finite s p e' /\ IZR (Zpos p) * bpow e' = w)
  \/ (bpow emax <= w /\ r = S754_infinity s) ->
  Rounded (if s then - x else x) r.
Proof.
  intros Hx Hr Hv Hcases. pose proof bpow_emax_pos as He.
  assert (Hw0 : 0 <= w) by (destruct Hcases as [[-> _]|[[? _]|[? _]]]; lra).
  assert (Hnan : B64.is_nan r = false).
  { destruct Hcases as [[_ ->]|[(_ & p & e' & -> & _)|[_ ->]]]; reflexivity. }
  split; [exact Hv|]. split; [exact Hnan|].
  exists (if s then - w else w). split.
  - destruct s.
    + destruct (Req_dec x 0) as [->|Hne].
      * left. split; [lra|]. rewrite Ropp_0.
        assert (w = 0).
        { destruct Hr as (k & _ & ->). apply rnd_at_0. }
        subst w. rewrite Ropp_0. exact Hr.
      * right. split; [lra|]. rewrite !Ropp_involutive. exact Hr.
    + left. split; assumption.
  - destruct Hcases as [[-> ->]|[(Hw & p & e' & -> & Ev)|[Hw ->]]].
    + simpl. rewrite clamp_id; destruct s; lra.
    + cbn [SFval SF2R]. destruct s; cbn [cond_Zopp].
      * rewrite clamp_id by lra. rewrite <- Ev.
        change (Z.opp (Zpos p)) with (Zneg p).
        change (Zneg p) with (- Zpos p)%Z. rewrite opp_IZR. ring.
      * rewrite clamp_id by lra. exact (eq_sym (eq_sym Ev)).
    + cbn [SFval]. destruct s.
      * rewrite clamp_lo by lra. reflexivity.
      * rewrite clamp_hi by lra. reflexivity.
Qed.

Lemma round_aux_Rounded (s : bool) (m e : Z) (l : location) (x : R) :
  (0 <= m)%Z ->
  inbetween m l (x / bpow e) ->
  (e <= fexp (Zdigits2 m + e))%Z ->
  Rounded (if s then - x else x) (binary_round_aux prec emax s m e l).
Proof.
  intros Hm H He.
  destruct (binary_round_aux_spec s m e l x Hm H He) as (Hx & Hmag & Hv & Hc).
  apply signed_Rounded with (w := rnd_at (fexp (Zdigits2 m + e)) x);
    try assumption.
  exists (Zdigits2 m + e)%Z. split; [exact Hmag | reflexivity].
Qed.

(** Shifting a mantissa left. *)
Lemma iter_xO_value (d mx : positive) :
  Zpos (Pos.iter xO mx d) = (Zpos mx * 2 ^ Zpos d)%Z.
Proof.
  change (Pos.iter xO mx d) with (shift_pos d mx).
  rewrite shift_pos_correct, Z.pow_pos_fold. lia.
Qed.

Lemma Zdigits2_shift (m d : Z) :
  (0 < m)%Z -> (0 <= d)%Z -> Zdigits2 (m * 2 ^ d) = (Zdigits2 m + d)%Z.
Proof.
  intros Hm Hd. destruct (Zdigits2_bounds m Hm) as [Hlo Hhi].
  pose proof (Zdigits2_pos m Hm) as Hp.
  assert (H2 : (0 < 2 ^ d)%Z) by (apply Z.pow_pos_nonneg; lia).
  apply Zdigits2_unique; [|lia].
  replace (Zdigits2 m + d - 1)%Z with ((Zdigits2 m - 1) + d)%Z by lia.
  rewrite !Z.pow_add_r by lia. split; nia.
Qed.

Lemma shl_align_spec (mx : positive) (ex ex' : Z) :
  let mz := fst (shl_align mx ex ex') in
  let ez := snd (shl_align mx ex ex') in
  IZR (Zpos mz) * bpow ez = IZR (Zpos mx) * bpow ex
  /\ (ez <= ex')%Z
  /\ (ez = ex' \/ ez = ex)%Z
  /\ (Zdigits2 (Zpos mz) + ez = Zdigits2 (Zpos mx) + ex)%Z
  /\ ((ex' <= ex)%Z -> ez = ex').
Proof.
  unfold shl_align. destruct (ex' - ex)%Z as [|d|d] eqn:E; cbn [fst snd].
  - repeat split; lia.
  - repeat split; lia.
  - rewrite iter_xO_value.
    assert (Hex : ex = (Zpos d + ex')%Z) by lia.
    split; [|split; [lia | split; [lia | split; [|lia]]]].
    + rewrite mult_IZR, IZR_pow2_bpow by lia. rewrite Hex.
      rewrite bpow_add. ring.
    + rewrite Zdigits2_shift by lia. lia.
Qed.

Lemma binary_round_Rounded (s : bool) (mx : positive) (ex : Z) :
  Rounded (if s then - (IZR (Zpos mx) * bpow ex) else IZR (Zpos mx) * bpow ex)
          (binary_round prec emax s mx ex).
Proof.
  unfold binary_round.
  pose proof (shl_align_spec mx ex (SpecFloat.fexp prec emax (Zpos (digits2_pos mx) + ex)))
    as (Ev & Hle & _ & Hd & _).
  destruct (shl_align mx ex _) as [mz ez]. cbn [fst snd] in *.
  rewrite <- Ev. apply round_aux_Rounded.
  - lia.
  - simpl. pose proof (bpow_pos ez). field. lra.
  - rewrite Hd. exact Hle.
Qed.

Lemma binary_normalize_Rounded (m e : Z) (sz : bool) :
  Rounded (IZR m * bpow e) (binary_normalize prec emax m e sz).
Proof.
  destruct m as [|p|p]; cbn [binary_normalize].
  - rewrite Rmult_0_l.
    split; [reflexivity|]. split; [reflexivity|].
    exists 0. split; [apply rounds_0|].
    pose proof bpow_emax_pos. rewrite clamp_id by lra. reflexivity.
  - exact (binary_round_Rounded false p e).
  - change (Zneg p) with (- Zpos p)%Z. rewrite opp_IZR.
    replace (- IZR (Zpos p) * bpow e) with (- (IZR (Zpos p) * bpow e)) by ring.
    exact (binary_round_Rounded true p e).
Qed.


(** *** Values and order *)

Lemma valid_canonical (s : bool) (m : positive) (e : Z) :
  valid_binary (S754_finite s m e) = true ->
  fexp (Zdigits2 (Zpos m) + e) = e /\ (e <= 971)%Z.
Proof.
  intros H. apply andb_prop in H as [H1 H2].
  apply Z.eqb_eq in H1. apply Z.leb_le in H2. split; assumption.
Qed.

Lemma canonical_value_bounds (m : positive) (e : Z) :
  fexp (Zdigits2 (Zpos m) + e) = e ->
  0 < IZR (Zpos m) * bpow e < bpow (53 + e)
  /\ ((-1074 < e)%Z -> bpow (52 + e) <= IZR (Zpos m) * bpow e).
Proof.
  intros Hcan.
  destruct (canonical_digits (Zpos m) e ltac:(lia) Hcan) as [Hd Hn].
  pose proof (mantissa_binade (Zpos m) e ltac:(lia)) as [Hlo Hhi].
  pose proof (bpow_pos (Zdigits2 (Zpos m) + e - 1)).
  split; [split; [lra|]|].
  - eapply Rlt_le_trans; [exact Hhi|]. apply bpow_le. lia.
  - intros He. rewrite (Hn He) in Hlo.
    replace (53 + e - 1)%Z with (52 + e)%Z in Hlo by lia. exact Hlo.
Qed.

Lemma valid_finite_bound (x : spec_float) :
  valid_binary x = true -> B64.is_finite x = true ->
  - bpow emax < SF2R x < bpow emax.
Proof.
  intros Hv Hf. pose proof bpow_emax_pos as He.
  destruct x as [s|s| |s m e]; try discriminate Hf; simpl; try lra.
  destruct (valid_canonical s m e Hv) as [Hcan Hle].
  destruct (canonical_value_bounds m e Hcan) as [[H0 H1] _].
  assert (Hb : bpow (53 + e) <= bpow emax) by (apply bpow_le; rewrite emax_eq; lia).
  destruct s; cbn [cond_Zopp].
  - change (Z.opp (Zpos m)) with (- Zpos m)%Z. rewrite opp_IZR. lra.
  - lra.
Qed.

Lemma SFval_finite (x : spec_float) :
  B64.is_finite x = true -> SFval x = SF2R x.
Proof. destruct x; try discriminate; reflexivity. Qed.

Lemma SFval_bounds (x : spec_float) :
  valid_binary x = true -> - bpow emax <= SFval x <= bpow emax.
Proof.
  intros Hv. pose proof bpow_emax_pos as He.
  destruct x as [s|s| |s m e]; simpl; try lra.
  - destruct s; lra.
  - pose proof (valid_finite_bound (S754_finite s m e) Hv eq_refl) as H.
    simpl in H. lra.
Qed.

Lemma finite_of_SFval (x : spec_float) :
  B64.is_nan x = false ->
  - bpow emax < SFval x < bpow emax ->
  B64.is_finite x = true.
Proof.
  intros Hn H. destruct x as [s|s| |s m e]; try reflexivity; try discriminate Hn.
  simpl in H. destruct s; lra.
Qed.

(** Canonical floats of one sign are ordered as their exponents, then as
    their mantissas. *)
Lemma canonical_exponent_lt (m1 m2 : positive) (e1 e2 : Z) :
  fexp (Zdigits2 (Zpos m1) + e1) = e1 ->
  fexp (Zdigits2 (Zpos m2) + e2) = e2 ->
  (e1 < e2)%Z ->
  IZR (Zpos m1) * bpow e1 < IZR (Zpos m2) * bpow e2.
Proof.
  intros H1 H2 Hlt.
  destruct (canonical_value_bounds m1 e1 H1) as [[_ Hhi] _].
  destruct (canonical_value_bounds m2 e2 H2) as [_ Hlo].
  pose proof (fexp_ge_emin (Zdigits2 (Zpos m1) + e1)) as He1. rewrite H1 in He1.
  specialize (Hlo ltac:(lia)).
  assert (Hb : bpow (53 + e1) <= bpow (52 + e2)) by (apply bpow_le; lia).
  lra.
Qed.

Lemma SFcompare_spec (x y : spec_float) :
  valid_binary x = true -> valid_binary y = true ->
  B64.is_nan x = false -> B64.is_nan y = false ->
  match SFcompare x y with
  | Some Lt => SFval x < SFval y
  | Some Eq => SFval x = SFval y
  | Some Gt => SFval y < SFval x
  | None => False
  end.
Proof.
  intros Hvx Hvy Hnx Hny. pose proof bpow_emax_pos as He.
  assert (Hfin : forall s m e, valid_binary (S754_finite s m e) = true ->
            - bpow emax < SF2R (S754_finite s m e) < bpow emax
            /\ (if s then SF2R (S754_finite s m e) < 0
                else 0 < SF2R (S754_finite s m e))).
  { intros s m e Hv. split; [apply valid_finite_bound; [exact Hv | reflexivity]|].
    destruct (valid_canonical s m e Hv) as [Hcan _].
    destruct (canonical_value_bounds m e Hcan) as [[H0 _] _].
    destruct s; cbn [SF2R cond_Zopp]; [|exact H0].
    change (Z.opp (Zpos m)) with (- Zpos m)%Z. rewrite opp_IZR. lra. }
  destruct x as [sx|sx| |sx mx ex]; try discriminate Hnx;
    destruct y as [sy|sy| |sy my ey]; try discriminate Hny.
  - reflexivity.
  - simpl. destruct sy; lra.
  - destruct (Hfin sy my ey Hvy) as [_ Hs].
    destruct sy; simpl in *; lra.
  - simpl. destruct sx; lra.
  - simpl. destruct sx, sy; lra.
  - destruct (Hfin sy my ey Hvy) as [Hb _].
    destruct sx; simpl in *; lra.
  - destruct (Hfin sx mx ex Hvx) as [_ Hs].
    destruct sx; simpl in *; lra.
  - destruct (Hfin sx mx ex Hvx) as [Hb _].
    destruct sy; simpl in *; lra.
  - destruct (Hfin sx mx ex Hvx) as [_ Hsx].
    destruct (Hfin sy my ey Hvy) as [_ Hsy].
    destruct (valid_canonical sx mx ex Hvx) as [Hcx _].
    destruct (valid_canonical sy my ey Hvy) as [Hcy _].
    assert (Hcases :
      match Z.compare ex ey with
      | Lt => IZR (Zpos mx) * bpow ex < IZR (Zpos my) * bpow ey
      | Gt => IZR (Zpos my) * bpow ey < IZR (Zpos mx) * bpow ex
      | Eq => match Pos.compare_cont Eq mx my with
              | Lt => IZR (Zpos mx) * bpow ex < IZR (Zpos my) * bpow ey
              | Gt => IZR (Zpos my) * bpow ey < IZR (Zpos mx) * bpow ex
              | Eq => IZR (Zpos mx) * bpow ex = IZR (Zpos my) * bpow ey
              end
      end).
    { destruct (Z.compare_spec ex ey) as [E|Hlt|Hgt].
      - subst ey. pose proof (bpow_pos ex) as Hp.
        change (Pos.compare_cont Eq mx my) with (Pos.compare mx my).
        destruct (Pos.compare_spec mx my) as [E|Hlt|Hgt].
        + subst my. reflexivity.
        + apply Rmult_lt_compat_r; [exact Hp|]. apply IZR_lt. lia.
        + apply Rmult_lt_compat_r; [exact Hp|]. apply IZR_lt. lia.
      - apply canonical_exponent_lt; assumption.
      - apply canonical_exponent_lt; [assumption | assumption | lia]. }
    cbn [SFcompare SFval SF2R] in *.
    destruct sx, sy; cbn [cond_Zopp] in *;
      change (Z.opp (Zpos mx)) with (- Zpos mx)%Z in *;
      change (Z.opp (Zpos my)) with (- Zpos my)%Z in *;
      rewrite ?opp_IZR in *; try lra.
    + destruct (Z.compare ex ey);
        [destruct (Pos.compare_cont Eq mx my)| |]; simpl; lra.
    + destruct (Z.compare ex ey);
        [destruct (Pos.compare_cont Eq mx my)| |]; simpl; lra.
Qed.

Section Order.
Variables x y : spec_float.
Hypothesis valid_x : valid_binary x = true.
Hypothesis valid_y : valid_binary y = true.
Hypothesis number_x : B64.is_nan x = false.
Hypothesis number_y : B64.is_nan y = false.

Lemma SFltb_SFval : SFltb x y = true <-> SFval x < SFval y.
Proof.
  pose proof (SFcompare_spec x y valid_x valid_y number_x number_y) as H.
  unfold SFltb. destruct (SFcompare x y) as [[| |]|]; try contradiction;
    split; intros H'; try discriminate; try reflexivity; lra.
Qed.

Lemma SFleb_SFval : SFleb x y = true <-> SFval x <= SFval y.
Proof.
  pose proof (SFcompare_spec x y valid_x valid_y number_x number_y) as H.
  unfold SFleb. destruct (SFcompare x y) as [[| |]|]; try contradiction;
    split; intros H'; try discriminate; try reflexivity; lra.
Qed.

Lemma SFltb_false_SFval : SFltb x y = false <-> SFval y <= SFval x.
Proof.
  pose proof SFltb_SFval as H. destruct (SFltb x y).
  - split; [discriminate|]. intros H'. apply proj1 in H. specialize (H eq_refl). lra.
  - split; [|reflexivity]. intros _.
    destruct (Rle_dec (SFval y) (SFval x)) as [|Hn]; [assumption|].
    apply proj2 in H. assert (SFval x < SFval y) by lra.
    specialize (H H0). discriminate H.
Qed.

End Order.


(** *** Rounding is monotone *)

Lemma rnd_at_le (e : Z) (x x' : R) : x <= x' -> rnd_at e x <= rnd_at e x'.
Proof.
  intros H. unfold rnd_at. pose proof (bpow_pos e) as Hp.
  apply Rmult_le_compat_r; [lra|]. apply IZR_le, ExactFacts.rne_le.
  apply Rmult_le_compat_r; [|exact H]. apply Rlt_le, Rinv_0_lt_compat, Hp.
Qed.

(** A multiple of [2^e] is kept. *)
Lemma rnd_at_multiple (e : Z) (z : Z) : rnd_at e (IZR z * bpow e) = IZR z * bpow e.
Proof.
  unfold rnd_at. pose proof (bpow_pos e) as Hp.
  replace (IZR z * bpow e / bpow e) with (IZR z) by (field; lra).
  rewrite ExactFacts.rne_IZR. reflexivity.
Qed.

Lemma rnd_at_bpow (e j : Z) : (e <= j)%Z -> rnd_at e (bpow j) = bpow j.
Proof.
  intros H. replace j with ((j - e) + e)%Z by lia. rewrite bpow_add.
  rewrite <- IZR_pow2_bpow by lia. apply rnd_at_multiple.
Qed.

Lemma rounds_pos_nonneg (x w : R) : 0 <= x -> rounds_pos x w -> 0 <= w.
Proof.
  intros Hx (k & _ & ->). rewrite <- (rnd_at_0 (fexp k)). apply rnd_at_le, Hx.
Qed.

Lemma rounds_pos_le (x x' w w' : R) :
  0 <= x -> x <= x' -> rounds_pos x w -> rounds_pos x' w' -> w <= w'.
Proof.
  intros Hx Hxx (k & [Hup Hlo] & ->) (k' & [Hup' Hlo'] & ->).
  destruct (Z.lt_trichotomy (fexp k) (fexp k')) as [Hlt|[Heq|Hgt]].
  - (* a lower binade *)
    assert (Hk' : (-1021 < k')%Z) by (rewrite !fexp_eq in Hlt; lia).
    assert (Ek' : fexp k' = (k' - 53)%Z) by (rewrite fexp_eq; lia).
    destruct Hlo' as [Hlo'|Hlo']; [|rewrite emin_eq, prec_eq in Hlo'; lia].
    assert (Hkk : (k <= k' - 1)%Z) by (rewrite !fexp_eq in Hlt; lia).
    assert (H1 : rnd_at (fexp k) x <= bpow (k' - 1)).
    { destruct (Z_le_gt_dec (fexp k) (k' - 1)) as [Hle|Hgt].
      - rewrite <- (rnd_at_bpow (fexp k) (k' - 1) Hle). apply rnd_at_le.
        assert (bpow k <= bpow (k' - 1)) by (apply bpow_le; lia). lra.
      - rewrite !fexp_eq in *. lia. }
    assert (H2 : bpow (k' - 1) <= rnd_at (fexp k') x').
    { rewrite <- (rnd_at_bpow (fexp k') (k' - 1)) by lia.
      apply rnd_at_le. exact Hlo'. }
    lra.
  - rewrite Heq. apply rnd_at_le, Hxx.
  - exfalso.
    assert (Hk : (-1021 < k)%Z) by (rewrite !fexp_eq in Hgt; lia).
    destruct Hlo as [Hlo|Hlo]; [|rewrite emin_eq, prec_eq in Hlo; lia].
    assert (Hkk : (k' <= k - 1)%Z) by (rewrite !fexp_eq in Hgt; lia).
    assert (bpow k' <= bpow (k - 1)) by (apply bpow_le; lia). lra.
Qed.

Lemma rounds_le (v v' w w' : R) :
  v <= v' -> rounds v w -> rounds v' w' -> w <= w'.
Proof.
  intros Hvv [[H0 Hr]|[H0 Hr]] [[H0' Hr']|[H0' Hr']].
  - exact (rounds_pos_le v v' w w' H0 Hvv Hr Hr').
  - lra.
  - assert (Hv : 0 <= - v) by lra.
    pose proof (rounds_pos_nonneg _ _ Hv Hr).
    pose proof (rounds_pos_nonneg _ _ H0' Hr'). lra.
  - assert (Hv : 0 <= - v') by lra. assert (Hv' : - v' <= - v) by lra.
    pose proof (rounds_pos_le (- v') (- v) (- w') (- w) Hv Hv' Hr' Hr).
    lra.
Qed.

Lemma rounds_unique (v w w' : R) : rounds v w -> rounds v w' -> w = w'.
Proof.
  intros H H'.
  pose proof (rounds_le v v w w' (Rle_refl v) H H').
  pose proof (rounds_le v v w' w (Rle_refl v) H' H). lra.
Qed.

Lemma Rounded_le (v v' : R) (r r' : spec_float) :
  v <= v' -> Rounded v r -> Rounded v' r' -> SFval r <= SFval r'.
Proof.
  intros Hvv (_ & _ & w & Hw & ->) (_ & _ & w' & Hw' & ->).
  apply clamp_le. exact (rounds_le v v' w w' Hvv Hw Hw').
Qed.

Lemma Rounded_SFleb (v v' : R) (r r' : spec_float) :
  v <= v' -> Rounded v r -> Rounded v' r' -> SFleb r r' = true.
Proof.
  intros Hvv H H'. pose proof (Rounded_le v v' r r' Hvv H H') as Hle.
  destruct H as (Hv & Hn & _). destruct H' as (Hv' & Hn' & _).
  apply SFleb_SFval; assumption.
Qed.

(** *** Floats round to themselves *)

Lemma rounds_pos_canonical (m : positive) (e : Z) :
  fexp (Zdigits2 (Zpos m) + e) = e ->
  rounds_pos (IZR (Zpos m) * bpow e) (IZR (Zpos m) * bpow e).
Proof.
  intros Hcan. exists (Zdigits2 (Zpos m) + e)%Z.
  pose proof (mantissa_binade (Zpos m) e ltac:(lia)) as [Hlo Hhi].
  split; [split; [exact Hhi | left; exact Hlo]|].
  rewrite Hcan. symmetry. apply rnd_at_multiple.
Qed.

Lemma Rounded_self (x : spec_float) :
  valid_binary x = true -> B64.is_finite x = true -> Rounded (SF2R x) x.
Proof.
  intros Hv Hf. pose proof bpow_emax_pos as He.
  split; [exact Hv|]. split; [destruct x; try discriminate Hf; reflexivity|].
  exists (SF2R x). split.
  - destruct x as [s|s| |s m e]; try discriminate Hf; cbn [SF2R].
    + apply rounds_0.
    + destruct (valid_canonical s m e Hv) as [Hcan _].
      destruct (canonical_value_bounds m e Hcan) as [[H0 _] _].
      pose proof (rounds_pos_canonical m e Hcan) as Hr.
      destruct s; cbn [cond_Zopp].
      * right. change (Z.opp (Zpos m)) with (- Zpos m)%Z. rewrite opp_IZR.
        replace (- (- IZR (Zpos m) * bpow e)) with (IZR (Zpos m) * bpow e) by ring.
        split; [lra | exact Hr].
      * left. split; [lra | exact Hr].
  - rewrite clamp_id by (apply valid_finite_bound; assumption).
    apply SFval_finite, Hf.
Qed.

(** An exact result that is a float is returned as it is, and every
    result stays on its side of a float. *)
Lemma Rounded_float (f r : spec_float) :
  valid_binary f = true -> B64.is_finite f = true ->
  Rounded (SF2R f) r -> SFval r = SF2R f.
Proof.
  intros Hv Hf (_ & _ & w & Hw & ->).
  destruct (Rounded_self f Hv Hf) as (_ & _ & w' & Hw' & E).
  rewrite (rounds_unique _ _ _ Hw Hw'), <- E. apply SFval_finite, Hf.
Qed.

Lemma Rounded_ge_float (f r : spec_float) (v : R) :
  valid_binary f = true -> B64.is_finite f = true ->
  SF2R f <= v -> Rounded v r -> SF2R f <= SFval r.
Proof.
  intros Hv Hf Hle H. rewrite <- (SFval_finite f Hf).
  exact (Rounded_le _ _ _ _ Hle (Rounded_self f Hv Hf) H).
Qed.

Lemma Rounded_le_float (f r : spec_float) (v : R) :
  valid_binary f = true -> B64.is_finite f = true ->
  v <= SF2R f -> Rounded v r -> SFval r <= SF2R f.
Proof.
  intros Hv Hf Hle H. rewrite <- (SFval_finite f Hf).
  exact (Rounded_le _ _ _ _ Hle H (Rounded_self f Hv Hf)).
Qed.

Lemma Rounded_finite (f g r : spec_float) (v : R) :
  valid_binary f = true -> B64.is_finite f = true ->
  valid_binary g = true -> B64.is_finite g = true ->
  SF2R f <= v <= SF2R g -> Rounded v r ->
  B64.is_finite r = true /\ SF2R f <= SF2R r <= SF2R g.
Proof.
  intros Hvf Hf Hvg Hg [Hlo Hhi] H.
  pose proof (Rounded_ge_float f r v Hvf Hf Hlo H) as H1.
  pose proof (Rounded_le_float g r v Hvg Hg Hhi H) as H2.
  pose proof (valid_finite_bound f Hvf Hf). pose proof (valid_finite_bound g Hvg Hg).
  destruct H as (Hv & Hn & _).
  assert (Hfin : B64.is_finite r = true) by (apply finite_of_SFval; [exact Hn | lra]).
  split; [exact Hfin|]. rewrite <- (SFval_finite r Hfin). lra.
Qed.

(** The relative error of rounding in the normal range. *)
Lemma rounds_pos_error (x w : R) :
  bpow (-1022) <= x -> rounds_pos x w -> Rabs (w - x) <= bpow (-53) * x.
Proof.
  intros Hx (k & [Hup Hlo] & ->).
  assert (Hk : (-1022 < k)%Z) by (apply bpow_lt_inv; lra).
  assert (Hlo' : bpow (k - 1) <= x).
  { destruct Hlo as [|Hlo]; [assumption|].
    rewrite emin_eq, prec_eq in Hlo. replace k with (-1021)%Z by lia. exact Hx. }
  assert (E : fexp k = (k - 53)%Z) by (rewrite fexp_eq; lia).
  rewrite E. unfold rnd_at. pose proof (bpow_pos (k - 53)) as Hp.
  pose proof (ExactFacts.rne_near (x / bpow (k - 53))) as Hn.
  set (z := IZR (Exact.rne (x / bpow (k - 53)))) in *.
  assert (Hx' : x = x / bpow (k - 53) * bpow (k - 53)) by (field; lra).
  assert (Hb : bpow (-53) * bpow (k - 1) = bpow (k - 53) / 2).
  { rewrite <- bpow_add. replace (-53 + (k - 1))%Z with (k - 53 - 1)%Z by lia.
    apply bpow_pred. }
  assert (Hb' : bpow (k - 53) / 2 <= bpow (-53) * x).
  { rewrite <- Hb. apply Rmult_le_compat_l; [apply Rlt_le, bpow_pos | exact Hlo']. }
  apply Rabs_le. split; nra.
Qed.


(** *** The operations *)

Lemma IZR_cond_Zopp (s : bool) (m : Z) :
  IZR (cond_Zopp s m) = if s then - IZR m else IZR m.
Proof. destruct s; cbn [cond_Zopp]; [apply opp_IZR | reflexivity]. Qed.

Lemma Rounded_zero (s : bool) : Rounded 0 (S754_zero s).
Proof.
  split; [reflexivity|]. split; [reflexivity|].
  exists 0. split; [apply rounds_0|].
  pose proof bpow_emax_pos. rewrite clamp_id by lra. reflexivity.
Qed.

Lemma aligned_value (s : bool) (m : positive) (e ez : Z) :
  (ez <= e)%Z ->
  IZR (cond_Zopp s (Zpos (fst (shl_align m e ez)))) * bpow ez
  = SF2R (S754_finite s m e).
Proof.
  intros Hle. destruct (shl_align_spec m e ez) as (Ev & _ & _ & _ & Hez).
  specialize (Hez Hle). rewrite Hez in Ev.
  cbn [SF2R]. rewrite !IZR_cond_Zopp. destruct s; lra.
Qed.

Lemma fadd_Rounded (x y : spec_float) :
  valid_binary x = true -> valid_binary y = true ->
  B64.is_finite x = true -> B64.is_finite y = true ->
  Rounded (SF2R x + SF2R y) (B64.fadd x y).
Proof.
  intros Hvx Hvy Hfx Hfy. unfold B64.fadd.
  destruct x as [sx|sx| |sx mx ex]; try discriminate Hfx;
    destruct y as [sy|sy| |sy my ey]; try discriminate Hfy.
  - cbn [SFadd SF2R]. rewrite Rplus_0_l.
    destruct sx, sy; apply Rounded_zero.
  - cbn [SFadd]. change (SF2R (S754_zero sx)) with 0. rewrite Rplus_0_l.
    apply Rounded_self; assumption.
  - cbn [SFadd]. change (SF2R (S754_zero sy)) with 0. rewrite Rplus_0_r.
    apply Rounded_self; assumption.
  - cbn [SFadd].
    rewrite <- (aligned_value sx mx ex (Z.min ex ey)) by lia.
    rewrite <- (aligned_value sy my ey (Z.min ex ey)) by lia.
    rewrite <- Rmult_plus_distr_r, <- plus_IZR.
    apply binary_normalize_Rounded.
Qed.

Lemma fsub_Rounded (x y : spec_float) :
  valid_binary x = true -> valid_binary y = true ->
  B64.is_finite x = true -> B64.is_finite y = true ->
  Rounded (SF2R x - SF2R y) (B64.fsub x y).
Proof.
  intros Hvx Hvy Hfx Hfy. unfold B64.fsub.
  destruct x as [sx|sx| |sx mx ex]; try discriminate Hfx;
    destruct y as [sy|sy| |sy my ey]; try discriminate Hfy.
  - cbn [SFsub SF2R]. rewrite Rminus_0_r.
    destruct sx, sy; apply Rounded_zero.
  - cbn [SFsub]. change (SF2R (S754_zero sx)) with 0.
    replace (0 - SF2R (S754_finite sy my ey))
      with (SF2R (S754_finite (negb sy) my ey)).
    + apply Rounded_self; [exact Hvy | reflexivity].
    + cbn [SF2R]. rewrite !IZR_cond_Zopp. destruct sy; simpl; ring.
  - cbn [SFsub]. change (SF2R (S754_zero sy)) with 0. rewrite Rminus_0_r.
    apply Rounded_self; assumption.
  - cbn [SFsub].
    rewrite <- (aligned_value sx mx ex (Z.min ex ey)) by lia.
    rewrite <- (aligned_value sy my ey (Z.min ex ey)) by lia.
    rewrite <- Rmult_minus_distr_r, <- minus_IZR.
    apply binary_normalize_Rounded.
Qed.

Lemma Zdigits2_mul (a b : Z) :
  (0 < a)%Z -> (0 < b)%Z -> (Zdigits2 a + Zdigits2 b - 1 <= Zdigits2 (a * b))%Z.
Proof.
  intros Ha Hb.
  destruct (Zdigits2_bounds a Ha) as [Hla _].
  destruct (Zdigits2_bounds b Hb) as [Hlb _].
  pose proof (Zdigits2_pos a Ha). pose proof (Zdigits2_pos b Hb).
  assert (Hp : (2 ^ (Zdigits2 a + Zdigits2 b - 2) <= a * b)%Z).
  { replace (Zdigits2 a + Zdigits2 b - 2)%Z
      with ((Zdigits2 a - 1) + (Zdigits2 b - 1))%Z by lia.
    rewrite Z.pow_add_r by lia.
    assert (0 < 2 ^ (Zdigits2 a - 1))%Z by (apply Z.pow_pos_nonneg; lia).
    assert (0 < 2 ^ (Zdigits2 b - 1))%Z by (apply Z.pow_pos_nonneg; lia).
    nia. }
  apply Zdigits2_gt_iff in Hp; [lia | nia | lia].
Qed.

Lemma fmul_Rounded (x y : spec_float) :
  valid_binary x = true -> valid_binary y = true ->
  B64.is_finite x = true -> B64.is_finite y = true ->
  Rounded (SF2R x * SF2R y) (B64.fmul x y).
Proof.
  intros Hvx Hvy Hfx Hfy. unfold B64.fmul.
  destruct x as [sx|sx| |sx mx ex]; try discriminate Hfx;
    destruct y as [sy|sy| |sy my ey]; try discriminate Hfy;
    cbn [SFmul]; try (cbn [SF2R]; rewrite ?Rmult_0_l, ?Rmult_0_r; apply Rounded_zero).
  destruct (valid_canonical sx mx ex Hvx) as [Hcx _].
  destruct (valid_canonical sy my ey Hvy) as [Hcy _].
  replace (SF2R (S754_finite sx mx ex) * SF2R (S754_finite sy my ey))
    with (if xorb sx sy
          then - (IZR (Zpos (mx * my)) * bpow (ex + ey))
          else IZR (Zpos (mx * my)) * bpow (ex + ey)).
  - apply round_aux_Rounded.
    + lia.
    + simpl. pose proof (bpow_pos (ex + ey)). field. lra.
    + pose proof (Zdigits2_mul (Zpos mx) (Zpos my) ltac:(lia) ltac:(lia)) as Hd.
      pose proof (Zdigits2_pos (Zpos mx) ltac:(lia)).
      pose proof (Zdigits2_pos (Zpos my) ltac:(lia)).
      change (Zpos (mx * my)) with (Zpos mx * Zpos my)%Z.
      rewrite fexp_eq in *. lia.
  - cbn [SF2R]. rewrite !IZR_cond_Zopp, Pos2Z.inj_mul, mult_IZR, bpow_add.
    destruct sx, sy; simpl; ring.
Qed.

(** The location of a quotient from its remainder. *)
Lemma new_location_spec (d r q : Z) :
  (0 < d)%Z -> (0 <= r < d)%Z ->
  inbetween q (new_location d r) (IZR q + IZR r / IZR d).
Proof.
  intros Hd Hr.
  assert (Hd' : 0 < IZR d) by (apply IZR_lt; exact Hd).
  assert (Hfrac : forall c : comparison,
             (2 * r ?= d)%Z = c -> (r <> 0)%Z ->
             inbetween q (loc_Inexact c) (IZR q + IZR r / IZR d)).
  { intros c Hc Hne.
    assert (Hr0 : 0 < IZR r) by (apply IZR_lt; lia).
    assert (Hq : 0 < IZR r / IZR d) by (apply Rdiv_lt_0_compat; assumption).
    assert (Hr1 : IZR r / IZR d < 1).
    { apply Rmult_lt_reg_r with (IZR d); [exact Hd'|].
      replace (IZR r / IZR d * IZR d) with (IZR r) by (field; lra).
      rewrite Rmult_1_l. apply IZR_lt. lia. }
    assert (Hhalf : IZR r / IZR d - 1 / 2 = (2 * IZR r - IZR d) / (2 * IZR d))
      by (field; lra).
    assert (Hden : 0 < / (2 * IZR d)) by (apply Rinv_0_lt_compat; lra).
    unfold Rdiv in Hhalf at 3.
    set (f := IZR r / IZR d) in *. set (k := / (2 * IZR d)) in *.
    subst c. destruct (Z.compare_spec (2 * r) d) as [E|Hlt|Hgt]; cbn [inbetween].
    - apply (f_equal IZR) in E. rewrite mult_IZR in E. nra.
    - apply IZR_lt in Hlt. rewrite mult_IZR in Hlt. nra.
    - apply IZR_lt in Hgt. rewrite mult_IZR in Hgt. nra. }
  unfold new_location. destruct (Z.even d) eqn:Heven.
  - unfold new_location_even. destruct (Z.eqb_spec r 0) as [->|Hne].
    + cbn [inbetween]. unfold Rdiv. simpl. lra.
    + apply Hfrac; [reflexivity | exact Hne].
  - unfold new_location_odd. destruct (Z.eqb_spec r 0) as [->|Hne].
    + cbn [inbetween]. unfold Rdiv. simpl. lra.
    + assert (Hodd : Z.odd d = true) by (rewrite <- Z.negb_even, Heven; reflexivity).
      apply Z.odd_spec in Hodd as [j Hj].
      destruct (Z.compare_spec (2 * r + 1) d) as [E|Hlt|Hgt].
      * apply Hfrac; [|exact Hne]. apply Z.compare_lt_iff. lia.
      * apply Hfrac; [|exact Hne]. apply Z.compare_lt_iff. lia.
      * apply Hfrac; [|exact Hne]. apply Z.compare_gt_iff. lia.
Qed.

Lemma fdiv_Rounded (sx sy : bool) (mx my : positive) (ex ey : Z) :
  Rounded (SF2R (S754_finite sx mx ex) / SF2R (S754_finite sy my ey))
          (B64.fdiv (S754_finite sx mx ex) (S754_finite sy my ey)).
Proof.
  unfold B64.fdiv. cbn [SFdiv]. unfold SFdiv_core_binary.
  change (SpecFloat.fexp prec emax) with fexp.
  set (d1 := Zdigits2 (Zpos mx)). set (d2 := Zdigits2 (Zpos my)).
  set (e' := Z.min (fexp (d1 + ex - (d2 + ey))) (ex - ey)).
  set (s := (ex - ey - e')%Z).
  assert (Hs : (0 <= s)%Z) by (unfold s, e'; lia).
  assert (Es : s = (ex - ey - e')%Z) by reflexivity. clearbody s.
  set (m' := match s with
             | Zpos _ => Z.shiftl (Zpos mx) s
             | Z0 => Zpos mx
             | Zneg _ => 0%Z
             end).
  assert (Em : m' = (Zpos mx * 2 ^ s)%Z).
  { unfold m'. destruct s as [|p|p]; try lia.
    rewrite Z.shiftl_mul_pow2 by lia. reflexivity. }
  assert (H2s : (0 < 2 ^ s)%Z) by (apply Z.pow_pos_nonneg; lia).
  pose proof (Z_div_mod m' (Zpos my) ltac:(lia)) as Hdm.
  destruct (Z.div_eucl m' (Zpos my)) as [q r]. destruct Hdm as [Eq Hr].
  assert (Hq : (0 <= q)%Z) by nia.
  pose proof (bpow_pos ex) as Hpx. pose proof (bpow_pos ey) as Hpy.
  pose proof (bpow_pos e') as Hpe.
  assert (Hmy : 0 < IZR (Zpos my)) by (apply IZR_lt; lia).
  set (x := IZR (Zpos mx) * bpow ex / (IZR (Zpos my) * bpow ey)).
  replace (SF2R (S754_finite sx mx ex) / SF2R (S754_finite sy my ey))
    with (if xorb sx sy then - x else x).
  - apply round_aux_Rounded.
    + exact Hq.
    + replace (x / bpow e') with (IZR q + IZR r / IZR (Zpos my)).
      * apply new_location_spec; lia.
      * unfold x.
        assert (Ex : bpow ex = bpow s * bpow ey * bpow e').
        { rewrite <- !bpow_add. f_equal. lia. }
        rewrite Ex.
        assert (Em' : IZR m' = IZR (Zpos mx) * bpow s)
          by (rewrite Em, mult_IZR, IZR_pow2_bpow by lia; reflexivity).
        assert (Eq' : IZR m' = IZR (Zpos my) * IZR q + IZR r)
          by (rewrite Eq, plus_IZR, mult_IZR; reflexivity).
        pose proof (bpow_pos s).
        transitivity (IZR m' / IZR (Zpos my)); [rewrite Eq'; field; lra|].
        rewrite Em'. field. lra.
    + (* the quotient has enough digits *)
      assert (Hkm : (d1 + ex - (d2 + ey) <= Zdigits2 q + e')%Z).
      { destruct (Z_le_gt_dec (d1 - d2 + s) 0) as [Hsmall|Hbig].
        - pose proof (Zdigits2_nonneg q). lia.
        - assert (Hj : (2 ^ (d1 - d2 + s - 1) <= q)%Z).
          { destruct (Zdigits2_bounds (Zpos mx) ltac:(lia)) as [Hl1 _].
            destruct (Zdigits2_bounds (Zpos my) ltac:(lia)) as [_ Hh2].
            fold d1 in Hl1. fold d2 in Hh2.
            pose proof (Zdigits2_pos (Zpos mx) ltac:(lia)) as Hd1. fold d1 in Hd1.
            pose proof (Zdigits2_pos (Zpos my) ltac:(lia)) as Hd2. fold d2 in Hd2.
            assert (Hp : (2 ^ (d1 - d2 + s - 1) * 2 ^ d2 = 2 ^ (d1 - 1) * 2 ^ s)%Z).
            { rewrite <- !Z.pow_add_r by lia. f_equal. lia. }
            assert (H0 : (0 < 2 ^ (d1 - d2 + s - 1))%Z)
              by (apply Z.pow_pos_nonneg; lia).
            assert (Hlow : (Zpos my * 2 ^ (d1 - d2 + s - 1) <= m')%Z) by nia.
            apply Z.div_le_lower_bound in Hlow; [|lia].
            replace q with (m' / Zpos my)%Z; [exact Hlow|].
            symmetry. apply Z.div_unique with r; [lia | exact Eq]. }
          assert (Hq0 : (0 < q)%Z).
          { assert (0 < 2 ^ (d1 - d2 + s - 1))%Z by (apply Z.pow_pos_nonneg; lia). lia. }
          apply Zdigits2_gt_iff in Hj; [|exact Hq0 | lia].
          lia. }
      apply fexp_le in Hkm. unfold e' at 1. lia.
  - unfold x. cbn [SF2R]. rewrite !IZR_cond_Zopp.
    destruct sx, sy; simpl; field; lra.
Qed.

Lemma of_Z_Rounded (z : Z) : Rounded (IZR z) (B64.of_Z z).
Proof.
  unfold B64.of_Z. replace (IZR z) with (IZR z * bpow 0) by (rewrite bpow_0; ring).
  apply binary_normalize_Rounded.
Qed.


(** *** Shapes of results *)

Lemma located_exists (m : Z) (l : location) : exists t : R, inbetween m l t.
Proof.
  destruct l as [|[| |]]; cbn [inbetween].
  - exists (IZR m). reflexivity.
  - exists (IZR m + 1 / 2). reflexivity.
  - exists (IZR m + 1 / 4). lra.
  - exists (IZR m + 3 / 4). lra.
Qed.

Lemma shr_fexp_nonneg (m e : Z) (l : location) :
  (0 <= m)%Z -> (0 <= shr_m (fst (shr_fexp prec emax m e l)))%Z.
Proof.
  intros Hm. unfold shr_fexp.
  destruct (shr_record_of_loc_spec m l) as [Em El].
  destruct (located_exists m l) as [t Ht].
  destruct (SpecFloat.fexp prec emax (Zdigits2 m + e) - e)%Z as [|p|p] eqn:E.
  - cbn [shr fst]. rewrite Em. exact Hm.
  - pose proof (shr_spec (shr_record_of_loc m l) e (Zpos p) t ltac:(lia)
                  ltac:(rewrite Em; exact Hm) ltac:(rewrite Em, El; exact Ht))
      as (_ & _ & H & _).
    exact H.
  - cbn [shr fst]. rewrite Em. exact Hm.
Qed.

Lemma round_nearest_even_nonneg (m : Z) (l : location) :
  (0 <= m)%Z -> (0 <= round_nearest_even m l)%Z.
Proof.
  intros Hm. destruct l as [|[| |]]; cbn [round_nearest_even]; try lia.
  destruct (Z.even m); lia.
Qed.

(** The sign of the result of [binary_round_aux] is the sign it is given,
    and the result is never NaN. *)
Lemma binary_round_aux_signed (s : bool) (m e : Z) (l : location) :
  (0 <= m)%Z -> signed s (binary_round_aux prec emax s m e l).
Proof.
  intros Hm. unfold binary_round_aux.
  pose proof (shr_fexp_nonneg m e l Hm) as H1.
  destruct (shr_fexp prec emax m e l) as [mrs' e']. cbn [fst] in H1.
  pose proof (round_nearest_even_nonneg _ (loc_of_shr_record mrs') H1) as H2.
  pose proof (shr_fexp_nonneg _ e' loc_Exact H2) as H3.
  destruct (shr_fexp prec emax _ e' loc_Exact) as [mrs'' e'']. cbn [fst] in H3.
  destruct (shr_m mrs'') as [|p|p]; try lia; cbn [signed]; [reflexivity|].
  destruct (Z.leb e'' (emax - prec)); reflexivity.
Qed.

Lemma signed_number (s : bool) (r : spec_float) :
  signed s r -> B64.is_nan r = false.
Proof. destruct r; cbn [signed]; [reflexivity | reflexivity | contradiction | reflexivity]. Qed.

Lemma signed_nonneg (r : spec_float) : signed false r -> 0 <= SFval r.
Proof.
  pose proof bpow_emax_pos as He.
  destruct r as [s|s| |s m e]; cbn [signed]; intros H; try contradiction; subst.
  - cbn [SFval SF2R]. lra.
  - cbn [SFval]. lra.
  - cbn [SFval SF2R cond_Zopp].
    apply Rmult_le_pos; [apply IZR_le; lia | apply Rlt_le, bpow_pos].
Qed.


(** *** Integers and bounds *)

Lemma rounds_pos_small (z : Z) :
  (0 < z < 2 ^ 53)%Z -> rounds_pos (IZR z) (IZR z).
Proof.
  intros [H0 H1]. exists (Zdigits2 z).
  destruct (Zdigits2_bounds z H0) as [Hlo Hhi].
  pose proof (Zdigits2_pos z H0) as Hd.
  assert (Hd53 : (Zdigits2 z <= 53)%Z) by (apply Zdigits2_le_iff; lia).
  split.
  - split.
    + rewrite <- IZR_pow2_bpow by lia. apply IZR_lt, Hhi.
    + left. rewrite <- IZR_pow2_bpow by lia. apply IZR_le, Hlo.
  - assert (E : fexp (Zdigits2 z) = (Zdigits2 z - 53)%Z) by (rewrite fexp_eq; lia).
    rewrite E.
    replace (IZR z) with (IZR (z * 2 ^ (53 - Zdigits2 z)) * bpow (Zdigits2 z - 53)) at 1 2.
    + symmetry. apply rnd_at_multiple.
    + rewrite mult_IZR, IZR_pow2_bpow by lia. rewrite Rmult_assoc, <- bpow_add.
      replace (53 - Zdigits2 z + (Zdigits2 z - 53))%Z with 0%Z by lia.
      rewrite bpow_0. ring.
Qed.

Lemma rounds_small (z : Z) : (Z.abs z < 2 ^ 53)%Z -> rounds (IZR z) (IZR z).
Proof.
  intros Hz. destruct (Z.lt_trichotomy z 0) as [Hneg|[->|Hpos]].
  - right. split; [apply IZR_lt; exact Hneg|].
    rewrite <- opp_IZR. apply rounds_pos_small. lia.
  - apply rounds_0.
  - left. split; [apply IZR_le; lia|]. apply rounds_pos_small. lia.
Qed.

Lemma pow53_lt_emax : IZR (2 ^ 53) < bpow emax.
Proof. rewrite IZR_pow2_bpow by lia. apply bpow_lt. rewrite emax_eq. lia. Qed.

(** A result whose exact value is an integer of at most 53 bits is that
    integer. *)
Lemma Rounded_integer (z : Z) (r : spec_float) :
  (Z.abs z < 2 ^ 53)%Z -> Rounded (IZR z) r -> within (IZR z) (IZR z) r.
Proof.
  intros Hz (Hv & Hn & w & Hw & E).
  rewrite (rounds_unique _ _ _ Hw (rounds_small z Hz)) in E.
  pose proof pow53_lt_emax as Hp.
  assert (Hb : - bpow emax < IZR z < bpow emax).
  { assert (- IZR (2 ^ 53) < IZR z < IZR (2 ^ 53)).
    { rewrite <- opp_IZR. split; apply IZR_lt; lia. }
    lra. }
  rewrite clamp_id in E by exact Hb.
  assert (Hf : B64.is_finite r = true) by (apply finite_of_SFval; [exact Hn | lra]).
  rewrite SFval_finite in E by exact Hf.
  split; [exact Hv|]. split; [exact Hf|]. lra.
Qed.

Lemma of_Z_within (z : Z) :
  (Z.abs z < 2 ^ 53)%Z -> within (IZR z) (IZR z) (B64.of_Z z).
Proof. intros Hz. apply Rounded_integer; [exact Hz | apply of_Z_Rounded]. Qed.

Lemma of_Z_value (z : Z) : (Z.abs z < 2 ^ 53)%Z -> SF2R (B64.of_Z z) = IZR z.
Proof. intros Hz. destruct (of_Z_within z Hz) as (_ & _ & H). lra. Qed.

(** A result between two integers is a finite number between them. *)
Lemma Rounded_within (lo hi : Z) (v : R) (r : spec_float) :
  (Z.abs lo < 2 ^ 53)%Z -> (Z.abs hi < 2 ^ 53)%Z ->
  IZR lo <= v <= IZR hi -> Rounded v r -> within (IZR lo) (IZR hi) r.
Proof.
  intros Hlo Hhi Hv H.
  destruct (of_Z_within lo Hlo) as (Hv1 & Hf1 & E1).
  destruct (of_Z_within hi Hhi) as (Hv2 & Hf2 & E2).
  destruct (Rounded_finite (B64.of_Z lo) (B64.of_Z hi) r v Hv1 Hf1 Hv2 Hf2
              ltac:(lra) H) as [Hf Hb].
  destruct H as (Hvr & _). split; [exact Hvr|]. split; [exact Hf|]. lra.
Qed.

Lemma Rounded_number (v : R) (r : spec_float) : Rounded v r -> number r.
Proof. intros (Hv & Hn & _). split; assumption. Qed.

Lemma within_number (lo hi : R) (r : spec_float) : within lo hi r -> number r.
Proof.
  intros (Hv & Hf & _). split; [exact Hv|].
  destruct r; try discriminate Hf; reflexivity.
Qed.

Lemma within_weaken (lo hi lo' hi' : R) (r : spec_float) :
  lo' <= lo -> hi <= hi' -> within lo hi r -> within lo' hi' r.
Proof. intros H1 H2 (Hv & Hf & H). split; [exact Hv|]. split; [exact Hf|]. lra. Qed.

(** Products and quotients by a finite constant other than zero keep
    numbers numbers. *)
Lemma fmul_number (x : spec_float) (s : bool) (m : positive) (e : Z) :
  number x -> valid_binary (S754_finite s m e) = true ->
  number (B64.fmul x (S754_finite s m e)).
Proof.
  intros [Hv Hn] Hc.
  destruct x as [sx|sx| |sx mx ex]; try discriminate Hn.
  - split; reflexivity.
  - split; reflexivity.
  - apply (Rounded_number (SF2R (S754_finite sx mx ex) * SF2R (S754_finite s m e))).
    apply fmul_Rounded; try assumption; reflexivity.
Qed.

Lemma fdiv_number (x : spec_float) (s : bool) (m : positive) (e : Z) :
  number x -> number (B64.fdiv x (S754_finite s m e)).
Proof.
  intros [Hv Hn].
  destruct x as [sx|sx| |sx mx ex]; try discriminate Hn.
  - split; reflexivity.
  - split; reflexivity.
  - exact (Rounded_number _ _ (fdiv_Rounded sx s mx m ex e)).
Qed.

End ValuesFacts.

(** ** Distances in binary64 *)

Module DistanceFacts.
Import B64 Values ValuesFacts.
Local Open Scope R_scope.

Lemma math_1_Ok (func : f64 -> f64) (x r : f64) :
  math_1 func x = Ok r ->
  r = func x /\ (is_nan x = false -> is_nan r = false).
Proof.
  unfold math_1. intros H.
  destruct (is_nan (func x)) eqn:En; destruct (is_nan x) eqn:Ex; cbn [andb negb] in H;
    try discriminate H.
  - destruct (is_inf (func x) && is_finite x); [discriminate H|].
    injection H as <-. split; [reflexivity | discriminate].
  - destruct (is_inf (func x) && is_finite x); [discriminate H|].
    injection H as <-. split; [reflexivity | intros _; exact En].
  - destruct (is_inf (func x) && is_finite x); [discriminate H|].
    injection H as <-. split; [reflexivity | intros _; exact En].
Qed.

Lemma degToRad_finite :
  exists (m : positive) (e : Z),
    degToRad = S754_finite false m e
    /\ valid_binary (S754_finite false m e) = true.
Proof. eexists _, _. split; reflexivity. Qed.

Lemma two_finite :
  exists (m : positive) (e : Z), of_Z 2 = S754_finite false m e.
Proof. eexists _, _. reflexivity. Qed.

Lemma fradians_number (x : f64) : number x -> number (fradians x).
Proof.
  intros H. unfold fradians.
  destruct degToRad_finite as (m & e & -> & Hv). apply fmul_number; assumption.
Qed.

Lemma half_number (x : f64) : number x -> number (fdiv x (of_Z 2)).
Proof.
  intros H. destruct two_finite as (m & e & ->). apply fdiv_number, H.
Qed.

Lemma finite_number (x : f64) :
  valid_binary x = true -> is_finite x = true -> number x.
Proof.
  intros Hv Hf. split; [exact Hv|]. destruct x; try discriminate Hf; reflexivity.
Qed.

Section Library.
Variable M : Libm.
Hypothesis ranges : in_range M.

Lemma sin_within (x r : f64) :
  number x -> math_1 (c_sin M) x = Ok r -> within (-1) 1 r.
Proof.
  intros [_ Hn] H. apply math_1_Ok in H as [-> Hr]. specialize (Hr Hn).
  destruct (sin_unit M ranges x) as [E|E]; [congruence | exact E].
Qed.

Lemma cos_within (x r : f64) :
  number x -> math_1 (c_cos M) x = Ok r -> within (-1) 1 r.
Proof.
  intros [_ Hn] H. apply math_1_Ok in H as [-> Hr]. specialize (Hr Hn).
  destruct (cos_unit M ranges x) as [E|E]; [congruence | exact E].
Qed.

Lemma pow2_within (v r : f64) :
  within (-1) 1 v -> float_pow2 M v = Ok r -> within 0 1 r.
Proof.
  intros (Hv & Hf & Hb) H.
  destruct v as [s|s| |s m e]; try discriminate Hf; cbn [float_pow2] in H.
  - injection H as <-. split; [reflexivity|]. split; [reflexivity|]. simpl. lra.
  - destruct (feqb (S754_finite false m e) (of_Z 1)).
    + injection H as <-. apply within_weaken with (lo := 1) (hi := 1); try lra.
      apply (of_Z_within 1). reflexivity.
    + destruct (is_inf (c_pow M (S754_finite false m e) (of_Z 2))); [discriminate H|].
      injection H as <-. apply (pow_unit M ranges).
      split; [exact Hv|]. split; [reflexivity|].
      cbn [SF2R] in *. rewrite IZR_cond_Zopp in Hb. cbn [cond_Zopp].
      assert (0 < IZR (Zpos m) * bpow e)
        by (apply Rmult_lt_0_compat; [apply IZR_lt; lia | apply bpow_pos]).
      destruct s; lra.
Qed.

Lemma sqrt_nonneg (a root : f64) :
  number a -> math_1 fsqrt a = Ok root ->
  is_nan root = false /\ 0 <= SFval root.
Proof.
  intros [_ Hn] H. apply math_1_Ok in H as [-> Hr]. specialize (Hr Hn).
  split; [exact Hr|]. pose proof bpow_emax_pos as He.
  unfold fsqrt in *.
  destruct a as [s|s| |s m e]; try discriminate Hn; cbn [SFsqrt] in *.
  - simpl. lra.
  - destruct s; [discriminate Hr|]. simpl. lra.
  - destruct s; [discriminate Hr|].
    apply signed_nonneg.
    unfold SFsqrt_core_binary.
    match goal with
    | |- context [Z.sqrtrem ?n] =>
        pose proof (Z.sqrtrem_spec n) as Hs; destruct (Z.sqrtrem n) as [q r]
    end.
    apply binary_round_aux_signed.
    match type of Hs with
    | (0 <= ?n)%Z -> _ => assert (H0 : (0 <= n)%Z)
    end.
    { match goal with
      | |- (0 <= match ?s with _ => _ end)%Z => destruct s
      end; try lia.
      apply Z.shiftl_nonneg. lia. }
    specialize (Hs H0). lia.
Qed.

Lemma asin_within (root ang : f64) :
  is_nan root = false -> 0 <= SFval root ->
  math_1 (c_asin M) root = Ok ang -> within 0 2 ang.
Proof.
  intros Hn H0 H. apply math_1_Ok in H as [-> Hr]. specialize (Hr Hn).
  destruct (asin_range M ranges root Hn H0) as [E|E]; [congruence | exact E].
Qed.

Lemma fmul_within (lo hi : Z) (x y : f64) (a b c d : R) :
  (Z.abs lo < 2 ^ 53)%Z -> (Z.abs hi < 2 ^ 53)%Z ->
  within a b x -> within c d y ->
  (forall u v : R, a <= u <= b -> c <= v <= d -> IZR lo <= u * v <= IZR hi) ->
  within (IZR lo) (IZR hi) (fmul x y).
Proof.
  intros Hlo Hhi (Hvx & Hfx & Hx) (Hvy & Hfy & Hy) Hb.
  apply Rounded_within with (v := SF2R x * SF2R y); try assumption.
  - apply Hb; assumption.
  - apply fmul_Rounded; assumption.
Qed.

Lemma fadd_within (lo hi : Z) (x y : f64) (a b c d : R) :
  (Z.abs lo < 2 ^ 53)%Z -> (Z.abs hi < 2 ^ 53)%Z ->
  within a b x -> within c d y ->
  IZR lo <= a + c -> b + d <= IZR hi ->
  within (IZR lo) (IZR hi) (fadd x y).
Proof.
  intros Hlo Hhi (Hvx & Hfx & Hx) (Hvy & Hfy & Hy) H1 H2.
  apply Rounded_within with (v := SF2R x + SF2R y); try assumption.
  - lra.
  - apply fadd_Rounded; assumption.
Qed.

(** A returned distance is a number between 0 and four radii. *)
Lemma haversine_within (a_lat a_lon b_lat b_lon h : f64) :
  valid_binary a_lat = true -> is_finite a_lat = true ->
  valid_binary a_lon = true -> is_finite a_lon = true ->
  valid_binary b_lat = true -> is_finite b_lat = true ->
  valid_binary b_lon = true -> is_finite b_lon = true ->
  haversine_km (F := binary64 M) a_lat a_lon b_lat b_lon = Ok h ->
  within 0 25484 h.
Proof.
  intros Hv1 Hf1 Hv2 Hf2 Hv3 Hf3 Hv4 Hf4 H.
  unfold haversine_km in H. cbv zeta in H.
  apply bind_Ok in H as (hlat & Hhlat & H).
  apply bind_Ok in H as (slat & Hslat & H).
  apply bind_Ok in H as (slat2 & Hslat2 & H).
  apply bind_Ok in H as (ca & Hca & H).
  apply bind_Ok in H as (cb & Hcb & H).
  apply bind_Ok in H as (hlon & Hhlon & H).
  apply bind_Ok in H as (slon & Hslon & H).
  apply bind_Ok in H as (slon2 & Hslon2 & H).
  apply bind_Ok in H as (root & Hroot & H).
  apply bind_Ok in H as (ang & Hang & H).
  injection H as <-.
  apply (truediv_Ok (F := binary64 M)) in Hhlat as [-> _].
  apply (truediv_Ok (F := binary64 M)) in Hhlon as [-> _].
  cbn [binary64 num of_int add sub mul div radians math_sin math_cos
       math_asin math_sqrt pow2] in *.
  assert (Hdlat : number (fdiv (fradians (fsub b_lat a_lat)) (of_Z 2))).
  { apply half_number, fradians_number.
    exact (Rounded_number _ _ (fsub_Rounded b_lat a_lat Hv3 Hv1 Hf3 Hf1)). }
  assert (Hdlon : number (fdiv (fradians (fsub b_lon a_lon)) (of_Z 2))).
  { apply half_number, fradians_number.
    exact (Rounded_number _ _ (fsub_Rounded b_lon a_lon Hv4 Hv2 Hf4 Hf2)). }
  pose proof (sin_within _ _ Hdlat Hslat) as Wslat.
  pose proof (sin_within _ _ Hdlon Hslon) as Wslon.
  pose proof (pow2_within _ _ Wslat Hslat2) as Wslat2.
  pose proof (pow2_within _ _ Wslon Hslon2) as Wslon2.
  pose proof (cos_within _ _ (fradians_number _ (finite_number _ Hv1 Hf1)) Hca) as Wca.
  pose proof (cos_within _ _ (fradians_number _ (finite_number _ Hv3 Hf3)) Hcb) as Wcb.
  assert (Wp : within (IZR (-1)) (IZR 1) (fmul ca cb)).
  { apply (fmul_within (-1) 1 ca cb (-1) 1 (-1) 1); try assumption; try reflexivity.
    intros u v Hu Hv. simpl. split; nra. }
  assert (Wq : within (IZR (-1)) (IZR 1) (fmul (fmul ca cb) slon2)).
  { apply (fmul_within (-1) 1 _ slon2 (-1) 1 0 1); try assumption; try reflexivity.
    intros u v Hu Hv. simpl in *. split; nra. }
  assert (Wa : within (IZR (-1)) (IZR 2) (fadd slat2 (fmul (fmul ca cb) slon2))).
  { apply (fadd_within (-1) 2 slat2 _ 0 1 (-1) 1); try assumption; try reflexivity;
      simpl; lra. }
  destruct (sqrt_nonneg _ _ (within_number _ _ _ Wa) Hroot) as [Hnr Hr0].
  pose proof (asin_within _ _ Hnr Hr0 Hang) as Wang.
  assert (Wc : within (IZR 0) (IZR 4) (fmul (of_Z 2) ang)).
  { apply (fmul_within 0 4 (of_Z 2) ang 2 2 0 2); try assumption; try reflexivity.
    - apply (of_Z_within 2). reflexivity.
    - intros u v Hu Hv. simpl. split; nra. }
  apply (fmul_within 0 25484 (of_Z 6371) _ 6371 6371 0 4); try assumption;
    try reflexivity.
  - apply (of_Z_within 6371). reflexivity.
  - intros u v Hu Hv. simpl in *. split; nra.
Qed.


(** The cosine of the first latitude of a returned distance has a finite
    square. *)
Lemma haversine_cos_finite (a_lat a_lon b_lat b_lon h : f64) :
  valid_binary a_lat = true -> is_finite a_lat = true ->
  haversine_km (F := binary64 M) a_lat a_lon b_lat b_lon = Ok h ->
  is_finite (fmul (c_cos M (fradians a_lat)) (c_cos M (fradians a_lat))) = true.
Proof.
  intros Hv1 Hf1 H.
  unfold haversine_km in H. cbv zeta in H.
  apply bind_Ok in H as (hlat & Hhlat & H).
  apply bind_Ok in H as (slat & Hslat & H).
  apply bind_Ok in H as (slat2 & Hslat2 & H).
  apply bind_Ok in H as (ca & Hca & _).
  cbn [binary64 math_cos radians] in Hca.
  pose proof (cos_within _ _ (fradians_number _ (finite_number _ Hv1 Hf1)) Hca) as W.
  apply math_1_Ok in Hca as [-> _].
  assert (Wp : within (IZR (-1)) (IZR 1)
                 (fmul (c_cos M (fradians a_lat)) (c_cos M (fradians a_lat)))).
  { apply (fmul_within (-1) 1 _ _ (-1) 1 (-1) 1); try assumption; try reflexivity.
    intros u v Hu Hv. simpl. split; nra. }
  apply Wp.
Qed.

End Library.

(** *** The accumulator *)

Lemma fadd_grows (cum h : f64) (hi : R) :
  grown cum -> within 0 hi h ->
  grown (fadd cum h) /\ vle cum (fadd cum h).
Proof.
  intros [[Hv Hn] H0] (Hvh & Hfh & Hh). unfold vle.
  destruct (is_finite cum) eqn:Hf.
  - pose proof (fadd_Rounded cum h Hv Hvh Hf Hfh) as HR.
    rewrite (SFval_finite cum Hf) in *.
    assert (Hge : SF2R cum <= SFval (fadd cum h)).
    { apply (Rounded_ge_float cum _ (SF2R cum + SF2R h)); try assumption. lra. }
    split; [|exact Hge].
    split; [exact (Rounded_number _ _ HR) | lra].
  - destruct cum as [s|s| |s m e]; try discriminate Hf; try discriminate Hn.
    pose proof bpow_emax_pos as He.
    destruct s; [simpl in H0; lra|].
    assert (E : fadd (S754_infinity false) h = S754_infinity false).
    { destruct h as [s'|s'| |s' m' e']; try discriminate Hfh; reflexivity. }
    rewrite E. split; [|lra].
    split; [split; reflexivity | simpl; lra].
Qed.

Section Accumulator.
Variable M : Libm.
Hypothesis ranges : in_range M.

Lemma running_grows (cum lat lon : f64) (points : list (@sample (binary64 M)))
  (accs : list f64) :
  running (F := binary64 M) cum lat lon points accs ->
  grown cum -> placed lat lon ->
  Forall (fun p : @sample (binary64 M) => placed (lat_of p) (lon_of p)) points ->
  Forall grown accs /\ Sorted vle accs /\ HdRel vle cum accs.
Proof.
  induction 1 as [cum lat lon|cum lat lon p rest h accs Hh Hrun IH];
    intros Hcum Hplace Hall.
  - repeat split; constructor.
  - inversion Hall as [|p' rest' Hp Hrest]; subst.
    destruct Hplace as (Hv1 & Hf1 & Hv2 & Hf2).
    pose proof Hp as (Hv3 & Hf3 & Hv4 & Hf4).
    pose proof (haversine_within M ranges _ _ _ _ _
                  Hv1 Hf1 Hv2 Hf2 Hv3 Hf3 Hv4 Hf4 Hh) as Wh.
    destruct (fadd_grows cum h _ Hcum Wh) as [Hg Hle].
    change (@add (binary64 M) cum h) with (fadd cum h) in *.
    destruct (IH Hg Hp Hrest) as (Hgs & Hsorted & Hhd).
    split; [constructor; assumption|].
    split; [constructor; assumption|].
    constructor. exact Hle.
Qed.

End Accumulator.

(** *** Rounding to two places *)

Lemma rne_dyadic_rne (k e : Z) :
  (0 <= k)%Z -> rne_dyadic k e = Exact.rne (IZR k * bpow e).
Proof.
  intros Hk. destruct e as [|p|p]; unfold rne_dyadic.
  - rewrite bpow_0, Rmult_1_r, ExactFacts.rne_IZR. simpl. lia.
  - rewrite <- IZR_pow2_bpow by lia. rewrite <- mult_IZR, ExactFacts.rne_IZR.
    reflexivity.
  - rewrite Z.pow_pos_fold.
    assert (Hd : (0 < 2 ^ Zpos p)%Z) by (apply Z.pow_pos_nonneg; lia).
    pose proof (Z.div_mod k (2 ^ Zpos p) ltac:(lia)) as Hdiv.
    pose proof (Z.mod_pos_bound k (2 ^ Zpos p) Hd) as Hmod.
    assert (Ht : IZR k * bpow (Zneg p)
                 = IZR (k / 2 ^ Zpos p) + IZR (k mod 2 ^ Zpos p) / IZR (2 ^ Zpos p)).
    { change (Zneg p) with (- Zpos p)%Z. rewrite bpow_opp.
      rewrite <- IZR_pow2_bpow by lia.
      rewrite Hdiv at 1. rewrite plus_IZR, mult_IZR.
      assert (IZR (2 ^ Zpos p) <> 0) by (apply not_0_IZR; lia).
      field. assumption. }
    rewrite Ht.
    generalize dependent (k mod 2 ^ Zpos p)%Z.
    generalize dependent (k / 2 ^ Zpos p)%Z.
    generalize dependent (2 ^ Zpos p)%Z.
    intros d Hd q r Hdiv Hmod _.
    assert (HdR : 0 < IZR d) by (apply IZR_lt; lia).
    assert (Hr0 : 0 <= IZR r) by (apply IZR_le; lia).
    assert (Hf : forall c : R, IZR r / IZR d < c <-> IZR r < c * IZR d).
    { intros c. split; intros H.
      - apply Rmult_lt_reg_r with (/ IZR d); [apply Rinv_0_lt_compat, HdR|].
        rewrite Rmult_assoc, Rinv_r, Rmult_1_r by lra. exact H.
      - apply Rmult_lt_reg_r with (IZR d); [exact HdR|].
        unfold Rdiv. rewrite Rmult_assoc, Rinv_l, Rmult_1_r by lra. exact H. }
    assert (Hg : forall c : R, c < IZR r / IZR d <-> c * IZR d < IZR r).
    { intros c. split; intros H.
      - apply Rmult_lt_reg_r with (/ IZR d); [apply Rinv_0_lt_compat, HdR|].
        rewrite Rmult_assoc, Rinv_r, Rmult_1_r by lra. exact H.
      - apply Rmult_lt_reg_r with (IZR d); [exact HdR|].
        unfold Rdiv. rewrite Rmult_assoc, Rinv_l, Rmult_1_r by lra. exact H. }
    destruct (Z.compare_spec (2 * r) d) as [H|H|H].
    + rewrite <- (rne_inbetween q (loc_Inexact Eq)); [reflexivity|].
      cbn [inbetween]. apply (f_equal IZR) in H. rewrite mult_IZR in H.
      rewrite <- H. field. lra.
    + destruct (Z.eq_dec r 0) as [->|Hr].
      * rewrite <- (rne_inbetween q loc_Exact); [reflexivity|].
        cbn [inbetween]. unfold Rdiv. lra.
      * rewrite <- (rne_inbetween q (loc_Inexact Lt)); [reflexivity|].
        cbn [inbetween]. apply IZR_lt in H. rewrite mult_IZR in H.
        assert (0 < IZR r) by (apply IZR_lt; lia).
        assert (0 < IZR r / IZR d) by (apply Hg; lra).
        assert (IZR r / IZR d < 1 / 2) by (apply Hf; lra).
        lra.
    + rewrite <- (rne_inbetween q (loc_Inexact Gt)); [reflexivity|].
      cbn [inbetween]. apply IZR_lt in H. rewrite mult_IZR in H.
      assert (IZR r < IZR d) by (apply IZR_lt; lia).
      assert (1 / 2 < IZR r / IZR d) by (apply Hg; lra).
      assert (IZR r / IZR d < 1) by (apply Hf; lra).
      lra.
Qed.

Lemma hundredths_rne (m : positive) (e : Z) :
  hundredths m e = Exact.rne (100 * (IZR (Zpos m) * bpow e)).
Proof.
  unfold hundredths. rewrite rne_dyadic_rne by lia.
  rewrite mult_IZR. f_equal. ring.
Qed.

(** [round(x, 2)] of a finite [x] that is not negative: the double nearest
    to the nearest whole number of hundredths. *)
Lemma float_round2_Rounded (x d : f64) :
  valid_binary x = true -> is_finite x = true -> 0 <= SF2R x ->
  float_round2 x = Ok d ->
  Rounded (IZR (Exact.rne (100 * SF2R x)) / 100) d.
Proof.
  intros Hv Hf H0 H.
  destruct x as [s|s| |s m e]; try discriminate Hf.
  - injection H as <-. simpl. rewrite Rmult_0_r.
    change 0 with (IZR 0). rewrite ExactFacts.rne_IZR.
    replace (IZR 0 / 100) with 0 by (simpl; lra). apply Rounded_zero.
  - assert (Hs : s = false).
    { destruct s; [|reflexivity]. exfalso.
      cbn [SF2R cond_Zopp] in H0.
      change (IZR (- Zpos m)) with (- IZR (Zpos m)) in H0.
      assert (0 < IZR (Zpos m) * bpow e)
        by (apply Rmult_lt_0_compat; [apply IZR_lt; lia | apply bpow_pos]).
      lra. }
    subst s. cbn [float_round2] in H. cbn [SF2R cond_Zopp].
    rewrite hundredths_rne in H.
    destruct (Exact.rne (100 * (IZR (Zpos m) * bpow e))) as [|n|n] eqn:En.
    + injection H as <-. replace (IZR 0 / 100) with 0 by (simpl; lra).
      apply Rounded_zero.
    + destruct (is_inf _); [discriminate H|]. injection H as <-.
      pose proof (fdiv_Rounded false false n 100 0 0) as HR.
      cbn [SF2R cond_Zopp] in HR. rewrite bpow_0, !Rmult_1_r in HR. exact HR.
    + exfalso.
      assert (0 <= 100 * (IZR (Zpos m) * bpow e)).
      { assert (0 < IZR (Zpos m) * bpow e)
          by (apply Rmult_lt_0_compat; [apply IZR_lt; lia | apply bpow_pos]).
        lra. }
      pose proof (rne_nonneg _ H1) as Hnn. rewrite En in Hnn. lia.
Qed.

Lemma float_round2_vle (a b da db : f64) :
  grown a -> grown b -> vle a b ->
  float_round2 a = Ok da -> float_round2 b = Ok db ->
  number da /\ number db /\ vle da db.
Proof.
  intros [[Hva Hna] Ha0] [[Hvb Hnb] Hb0] Hab Ha Hb. unfold vle in *.
  pose proof bpow_emax_pos as He.
  assert (Hinf : forall x d : f64, grown x -> is_finite x = false ->
                   float_round2 x = Ok d -> d = S754_infinity false).
  { intros x d [[Hv Hn] H0] Hf H.
    destruct x as [s|s| |s m e]; try discriminate Hf; try discriminate Hn.
    destruct s; [simpl in H0; lra|]. injection H as <-. reflexivity. }
  destruct (is_finite a) eqn:Hfa; destruct (is_finite b) eqn:Hfb.
  - rewrite (SFval_finite a Hfa) in *. rewrite (SFval_finite b Hfb) in *.
    pose proof (float_round2_Rounded a da Hva Hfa Ha0 Ha) as Ra.
    pose proof (float_round2_Rounded b db Hvb Hfb Hb0 Hb) as Rb.
    split; [exact (Rounded_number _ _ Ra)|].
    split; [exact (Rounded_number _ _ Rb)|].
    apply (Rounded_le _ _ _ _) with (2 := Ra) (3 := Rb).
    apply Rmult_le_compat_r; [lra|]. apply IZR_le, ExactFacts.rne_le. lra.
  - rewrite (SFval_finite a Hfa) in *.
    pose proof (float_round2_Rounded a da Hva Hfa Ha0 Ha) as Ra.
    rewrite (Hinf b db) by (try split; try split; assumption).
    split; [exact (Rounded_number _ _ Ra)|].
    split; [split; reflexivity|].
    destruct Ra as (Hvd & _). apply (SFval_bounds da Hvd).
  - exfalso. rewrite (SFval_finite b Hfb) in *.
    pose proof (valid_finite_bound b Hvb Hfb) as Hbb.
    destruct a as [s|s| |s m e]; try discriminate Hfa; try discriminate Hna.
    destruct s; simpl in Ha0, Hab; lra.
  - rewrite (Hinf a da) by (try split; try split; assumption).
    rewrite (Hinf b db) by (try split; try split; assumption).
    split; [split; reflexivity|]. split; [split; reflexivity|]. lra.
Qed.

Section Entries.
Variable M : Libm.

Lemma entries_sorted (accs : list f64) (points : list (@sample (binary64 M)))
  (es : list (@entry (binary64 M))) :
  entries (F := binary64 M) accs points es ->
  Forall grown accs -> Sorted vle accs ->
  Forall number (map fst es) /\ Sorted vle (map fst es)
  /\ forall a0 d0 : f64,
       grown a0 -> float_round2 a0 = Ok d0 -> HdRel vle a0 accs ->
       HdRel vle d0 (map fst es).
Proof.
  induction 1 as [|acc accs p rest d e es Hd He Hent IH]; intros Hg Hs.
  - repeat split; constructor.
  - inversion Hg as [|? ? Hacc Hg']; subst.
    inversion Hs as [|? ? Hs' Hhd]; subst.
    destruct (IH Hg' Hs') as (Hnum & Hsorted & Hnext).
    change (@round2 (binary64 M) acc) with (float_round2 acc) in Hd.
    cbn [map fst].
    assert (Hdn : number d).
    { destruct (float_round2_vle acc acc d d Hacc Hacc (Rle_refl _) Hd Hd) as [H _].
      exact H. }
    split; [constructor; assumption|].
    split; [constructor; [exact Hsorted | exact (Hnext acc d Hacc Hd Hhd)]|].
    intros a0 d0 Ha0 Hd0 Hrel. constructor.
    inversion Hrel as [|? ? Hle]; subst.
    exact (proj2 (proj2 (float_round2_vle a0 acc d0 d Ha0 Hacc Hle Hd0 Hd))).
Qed.

End Entries.

Lemma vle_trans : Relations_1.Transitive vle.
Proof. intros a b c. unfold vle. lra. Qed.

Lemma sorted_SFleb (l : list f64) :
  Forall number l -> StronglySorted vle l ->
  StronglySorted (fun a b => SFleb a b = true) l.
Proof.
  intros Hn Hs. induction Hs as [|a l Hs IH Hall]; constructor.
  - inversion Hn; subst. apply IH. assumption.
  - inversion Hn as [|? ? [Hva Hna] Hn']; subst.
    rewrite Forall_forall in *. intros b Hb.
    destruct (Hn' b Hb) as [Hvb Hnb].
    apply (SFleb_SFval a b Hva Hvb Hna Hnb). apply Hall, Hb.
Qed.

(** A latitude between -90 and 90 is finite. *)
Lemma latitude_finite (lat : f64) :
  SFleb (of_Z (-90)) lat = true -> SFleb lat (of_Z 90) = true ->
  is_finite lat = true.
Proof.
  destruct lat as [s|[|]| |s m e]; intros H1 H2; try reflexivity;
    try discriminate H1; discriminate H2.
Qed.

(** In binary64, with a C library whose results are in range: the
    distances of a returned profile start at [+0.0] and never decrease. *)
Lemma distances_sorted_binary64 (M : Libm)
  (points : list (@sample (binary64 M)))
  (ns : list (@point (binary64 M))) (pf : list (@entry (binary64 M))) :
  in_range M ->
  points <> [] ->
  Forall (fun p : @sample (binary64 M) => placed (lat_of p) (lon_of p)) points ->
  normalize_coordinates (F := binary64 M) points = Ok (ns, pf) ->
  (exists n : Z, nth_error pf 0 = Some (S754_zero false, n))
  /\ StronglySorted (fun a b => SFleb a b = true) (map fst pf).
Proof.
  intros HM Hne Hall H.
  destruct points as [|first rest]; [contradiction|].
  pose proof H as H'.
  apply normalize_Ok in H' as (sl & so & accs & _ & _ & Hrun & Hent & _).
  inversion Hall as [|? ? Hfirst _]; subst.
  split.
  - inversion Hrun as [|cum lat lon p rest' h accs' Hh Hrest]; subst.
    destruct Hfirst as (Hv1 & Hf1 & Hv2 & Hf2).
    apply (Binary64Facts.first_distance M (sin_zero M HM) (asin_zero M HM)
             first rest ns pf Hf1 Hf2); [|exact H].
    exact (haversine_cos_finite M HM _ _ _ _ _ Hv1 Hf1 Hh).
  - assert (Hzero : grown (of_Z 0)).
    { split; [split; reflexivity | simpl; lra]. }
    destruct (running_grows M HM _ _ _ _ _ Hrun Hzero Hfirst Hall)
      as (Hg & Hs & _).
    destruct (entries_sorted M _ _ _ Hent Hg Hs) as (Hnum & Hsorted & _).
    apply sorted_SFleb; [exact Hnum|].
    apply Sorted_StronglySorted; [exact vle_trans | exact Hsorted].
Qed.

(** *** A library in range *)

Lemma withinb_within (lo hi : Z) (r : f64) :
  (Z.abs lo < 2 ^ 53)%Z -> (Z.abs hi < 2 ^ 53)%Z ->
  withinb lo hi r = true -> within (IZR lo) (IZR hi) r.
Proof.
  intros Hlo Hhi H. unfold withinb in H.
  apply andb_prop in H as [H H4]. apply andb_prop in H as [H H3].
  apply andb_prop in H as [H1 H2].
  destruct (of_Z_within lo Hlo) as (Hvl & Hfl & Hl).
  destruct (of_Z_within hi Hhi) as (Hvh & Hfh & Hh).
  assert (Hn : is_nan r = false) by (destruct r; try discriminate H2; reflexivity).
  assert (Hnl : is_nan (of_Z lo) = false)
    by (destruct (of_Z lo); try discriminate Hfl; reflexivity).
  assert (Hnh : is_nan (of_Z hi) = false)
    by (destruct (of_Z hi); try discriminate Hfh; reflexivity).
  apply (SFleb_SFval _ _ Hvl H1 Hnl Hn) in H3.
  apply (SFleb_SFval _ _ H1 Hvh Hn Hnh) in H4.
  rewrite (SFval_finite _ Hfl) in H3. rewrite (SFval_finite _ Hfh) in H4.
  rewrite (SFval_finite _ H2) in H3, H4.
  split; [exact H1|]. split; [exact H2|]. lra.
Qed.

Lemma checked_in_range (L : Libm) :
  c_sin L (S754_zero false) = S754_zero false ->
  c_asin L (S754_zero false) = S754_zero false ->
  (forall x, within 0 1 x -> within 0 1 (c_pow L x (of_Z 2))) ->
  in_range (checked L).
Proof.
  intros Hsin Hasin Hpow. constructor; cbn [checked c_sin c_cos c_asin c_pow].
  - rewrite Hsin. reflexivity.
  - rewrite Hasin. reflexivity.
  - intros x. destruct (withinb (-1) 1 (c_sin L x)) eqn:E.
    + right. apply (withinb_within (-1) 1); [reflexivity | reflexivity | exact E].
    + left. reflexivity.
  - intros x. destruct (withinb (-1) 1 (c_cos L x)) eqn:E.
    + right. apply (withinb_within (-1) 1); [reflexivity | reflexivity | exact E].
    + left. reflexivity.
  - exact Hpow.
  - intros x Hn H0.
    assert (Hle : SFleb (S754_zero false) x = true).
    { pose proof bpow_emax_pos as He.
      destruct x as [s|s| |s m e]; try discriminate Hn.
      - destruct s; reflexivity.
      - destruct s; [simpl in H0; lra | reflexivity].
      - destruct s; [|reflexivity]. exfalso.
        cbn [SFval SF2R cond_Zopp] in H0.
        change (IZR (- Zpos m)) with (- IZR (Zpos m)) in H0.
        assert (0 < IZR (Zpos m) * bpow e)
          by (apply Rmult_lt_0_compat; [apply IZR_lt; lia | apply bpow_pos]).
        lra. }
    rewrite Hle. destruct (withinb 0 2 (c_asin L x)) eqn:E.
    + right. apply (withinb_within 0 2); [reflexivity | reflexivity | exact E].
    + left. reflexivity.
Qed.

Lemma series_in_range : in_range (checked series_libm).
Proof.
  apply checked_in_range; [vm_compute; reflexivity | vm_compute; reflexivity |].
  intros x Hx. cbn [series_libm c_pow]. unfold series_pow.
  change (feqb (of_Z 2) (of_Z 2)) with true. cbv iota.
  apply (fmul_within 0 1 x x 0 1 0 1); try assumption; try reflexivity.
  intros u v Hu Hv. simpl. split; nra.
Qed.

End DistanceFacts.

(** ** The frame in binary64 *)

Module FrameFacts.
Import B64 Values ValuesFacts DistanceFacts.
Local Open Scope R_scope.

Lemma fine_number (x : f64) : fine x -> number x.
Proof. intros [Hv Hf]. apply finite_number; assumption. Qed.

Lemma fltb_lt (x y : f64) :
  fine x -> fine y -> (fltb x y = true <-> SF2R x < SF2R y).
Proof.
  intros [Hvx Hfx] [Hvy Hfy].
  rewrite <- (SFval_finite x Hfx), <- (SFval_finite y Hfy).
  apply SFltb_SFval; try assumption.
  - destruct x; try discriminate Hfx; reflexivity.
  - destruct y; try discriminate Hfy; reflexivity.
Qed.

Lemma fltb_ge (x y : f64) :
  fine x -> fine y -> (fltb x y = false <-> SF2R y <= SF2R x).
Proof.
  intros [Hvx Hfx] [Hvy Hfy].
  rewrite <- (SFval_finite x Hfx), <- (SFval_finite y Hfy).
  apply SFltb_false_SFval; try assumption.
  - destruct x; try discriminate Hfx; reflexivity.
  - destruct y; try discriminate Hfy; reflexivity.
Qed.

Section Extremes.
Variable M : Libm.

Lemma py_min_from_fine (xs : list f64) :
  forall x : f64,
    fine x -> Forall fine xs ->
    let m := py_min_from (F := binary64 M) x xs in
    In m (x :: xs) /\ fine m /\ SF2R m <= SF2R x
    /\ Forall (fun v => SF2R m <= SF2R v) xs.
Proof.
  induction xs as [|a xs IH]; intros x Hx Hall; cbv zeta.
  - split; [left; reflexivity|]. split; [exact Hx|].
    split; [apply Rle_refl | constructor].
  - inversion Hall as [|? ? Ha Hxs]; subst.
    change (py_min_from (F := binary64 M) x (a :: xs))
      with (py_min_from (F := binary64 M) (if fltb a x then a else x) xs).
    destruct (fltb a x) eqn:E.
    + apply (fltb_lt a x Ha Hx) in E.
      destruct (IH a Ha Hxs) as (Hin & Hf & Hle & Hrest).
      split; [right; exact Hin|]. split; [exact Hf|]. split; [lra|].
      constructor; assumption.
    + apply (fltb_ge a x Ha Hx) in E.
      destruct (IH x Hx Hxs) as (Hin & Hf & Hle & Hrest).
      split; [destruct Hin as [<-|Hin]; [left; reflexivity | right; right; exact Hin]|].
      split; [exact Hf|]. split; [exact Hle|].
      constructor; [lra | assumption].
Qed.

Lemma py_max_from_fine (xs : list f64) :
  forall x : f64,
    fine x -> Forall fine xs ->
    let m := py_max_from (F := binary64 M) x xs in
    In m (x :: xs) /\ fine m /\ SF2R x <= SF2R m
    /\ Forall (fun v => SF2R v <= SF2R m) xs.
Proof.
  induction xs as [|a xs IH]; intros x Hx Hall; cbv zeta.
  - split; [left; reflexivity|]. split; [exact Hx|].
    split; [apply Rle_refl | constructor].
  - inversion Hall as [|? ? Ha Hxs]; subst.
    change (py_max_from (F := binary64 M) x (a :: xs))
      with (py_max_from (F := binary64 M) (if fltb x a then a else x) xs).
    destruct (fltb x a) eqn:E.
    + apply (fltb_lt x a Hx Ha) in E.
      destruct (IH a Ha Hxs) as (Hin & Hf & Hle & Hrest).
      split; [right; exact Hin|]. split; [exact Hf|]. split; [lra|].
      constructor; assumption.
    + apply (fltb_ge x a Hx Ha) in E.
      destruct (IH x Hx Hxs) as (Hin & Hf & Hle & Hrest).
      split; [destruct Hin as [<-|Hin]; [left; reflexivity | right; right; exact Hin]|].
      split; [exact Hf|]. split; [exact Hle|].
      constructor; [lra | assumption].
Qed.

End Extremes.

(** *** The scale of an axis *)

Lemma clamp_pos (w : R) : 0 < w -> 0 < clamp w <= w.
Proof.
  intros Hw. pose proof bpow_emax_pos as He. unfold clamp.
  destruct (Rle_dec (bpow emax) w); [lra|].
  destruct (Rle_dec w (- bpow emax)); lra.
Qed.

Lemma Rounded_pos (v : R) (r : f64) :
  bpow (-1022) <= v -> Rounded v r ->
  0 < SFval r <= v * (1 + bpow (-53)).
Proof.
  intros Hv (_ & _ & w & Hw & E).
  pose proof (bpow_pos (-1022)) as H0.
  destruct Hw as [[_ Hw]|[Hneg _]]; [|lra].
  pose proof (rounds_pos_error v w Hv Hw) as Herr.
  assert (Hh : bpow (-53) <= 1 / 2).
  { unfold bpow. simpl. lra. }
  pose proof (bpow_pos (-53)) as Hp.
  assert (Hwv : v * (1 - bpow (-53)) <= w <= v * (1 + bpow (-53))).
  { unfold Rabs in Herr. destruct (Rcase_abs (w - v)); split; nra. }
  assert (Hwpos : 0 < w) by nra.
  destruct (clamp_pos w Hwpos) as [H1 H2]. rewrite E. split; [exact H1 | lra].
Qed.

(** The scale of an axis whose range is a finite double that is not
    negative and at most [limit]: a positive number, and the range times
    the scale exceeds the extent by a relative error of [2^-53] at most. *)
Lemma axis_scale_value (extent limit : Z) (range : f64) :
  (1 <= extent < 2 ^ 53)%Z -> (1 <= limit <= 2 ^ 53)%Z ->
  within 0 (IZR limit) range ->
  let s := if fltb (of_Z 0) range then fdiv (of_Z extent) range else of_Z 1 in
  number s /\ 0 < SFval s
  /\ (0 < SF2R range -> SFval s * SF2R range <= IZR extent * (1 + bpow (-53)))
  /\ (fltb (of_Z 0) range = false -> SF2R range = 0).
Proof.
  intros Hext Hlim (Hv & Hf & Hr) s.
  assert (Hzero : fine (of_Z 0)) by (split; reflexivity).
  assert (Hfine : fine range) by (split; assumption).
  destruct (fltb (of_Z 0) range) eqn:E; subst s.
  - apply (fltb_lt _ _ Hzero Hfine) in E. change (SF2R (of_Z 0)) with 0 in E.
    destruct (of_Z_within extent) as (Hve & Hfe & Hee); [lia|].
    destruct range as [s|s| |s m e]; try discriminate Hf; [simpl in E; lra|].
    assert (Hex : exists me ee, of_Z extent = S754_finite false me ee).
    { destruct (of_Z extent) as [s'|s'| |s' me ee] eqn:Eo; try discriminate Hfe.
      - simpl in Hee. assert (1 <= IZR extent) by (apply IZR_le; lia). lra.
      - exists me, ee. destruct s'; [|reflexivity]. exfalso.
        cbn [SF2R cond_Zopp] in Hee.
        change (IZR (- Zpos me)) with (- IZR (Zpos me)) in Hee.
        assert (0 < IZR (Zpos me) * bpow ee)
          by (apply Rmult_lt_0_compat; [apply IZR_lt; lia | apply bpow_pos]).
        assert (1 <= IZR extent) by (apply IZR_le; lia). lra. }
    destruct Hex as (me & ee & Eo).
    pose proof (fdiv_Rounded false s me m ee e) as HR.
    rewrite <- Eo in HR.
    assert (He1 : SF2R (of_Z extent) = IZR extent) by lra.
    rewrite He1 in HR.
    set (r := SF2R (S754_finite s m e)) in *.
    assert (H1 : 1 <= IZR extent) by (apply IZR_le; lia).
    assert (Hl : IZR limit <= bpow 53).
    { rewrite bpow_IZR by lia. apply IZR_le. lia. }
    assert (Hq : bpow (-1022) <= IZR extent / r).
    { assert (Hb : bpow (-1022) * r <= 1).
      { assert (bpow (-1022) * bpow 53 <= 1).
        { rewrite <- bpow_add. replace (-1022 + 53)%Z with (-969)%Z by lia.
          rewrite <- bpow_0. apply bpow_le. lia. }
        pose proof (bpow_pos (-1022)). nra. }
      apply Rmult_le_reg_r with r; [exact E|].
      unfold Rdiv. rewrite Rmult_assoc, Rinv_l, Rmult_1_r by lra. lra. }
    destruct (Rounded_pos _ _ Hq HR) as [Hpos Hup].
    split; [exact (Rounded_number _ _ HR)|]. split; [exact Hpos|].
    split; [|discriminate].
    intros _.
    apply Rle_trans with (IZR extent / r * (1 + bpow (-53)) * r).
    + apply Rmult_le_compat_r; lra.
    + right. field. lra.
  - apply (fltb_ge _ _ Hzero Hfine) in E. change (SF2R (of_Z 0)) with 0 in E.
    destruct (of_Z_within 1) as (Hv1 & Hf1 & H1); [reflexivity|].
    split; [exact (finite_number _ Hv1 Hf1)|].
    rewrite (SFval_finite _ Hf1).
    split; [lra|]. split; [intros; lra|]. intros _. lra.
Qed.

(** The smaller of two numbers. *)
Lemma min2_value (M : Libm) (a b : f64) :
  number a -> number b ->
  let s := min2 (F := binary64 M) a b in
  (s = a \/ s = b) /\ number s /\ SFval s <= SFval a /\ SFval s <= SFval b.
Proof.
  intros [Hva Hna] [Hvb Hnb] s. subst s. unfold min2.
  change (@ltb (binary64 M) b a) with (SFltb b a).
  destruct (SFltb b a) eqn:E.
  - apply (SFltb_SFval b a Hvb Hva Hnb Hna) in E.
    split; [right; reflexivity|]. split; [split; assumption|]. lra.
  - apply (SFltb_false_SFval b a Hvb Hva Hnb Hna) in E.
    split; [left; reflexivity|]. split; [split; assumption|]. lra.
Qed.

(** *** One coordinate *)

(** The offset of a coordinate from the least one, times the scale. *)
Lemma offset_within (extent : Z) (top d range scale : f64) :
  fine top -> IZR extent * (1 + bpow (-53)) <= SF2R top ->
  (0 <= extent)%Z ->
  fine d -> 0 <= SF2R d <= SF2R range ->
  fine scale -> 0 < SF2R scale ->
  (0 < SF2R range -> SF2R scale * SF2R range <= IZR extent * (1 + bpow (-53))) ->
  within 0 (SF2R top) (fmul d scale).
Proof.
  intros [Hvt Hft] Htop Hext [Hvd Hfd] Hd [Hvs Hfs] Hs Hprod.
  pose proof (fmul_Rounded d scale Hvd Hvs Hfd Hfs) as HR.
  assert (Hb : 0 <= SF2R d * SF2R scale <= SF2R top).
  { split; [nra|].
    pose proof (bpow_pos (-53)) as Hp.
    assert (0 <= IZR extent) by (apply IZR_le; lia).
    destruct (Rle_lt_dec (SF2R range) 0) as [H0|H0].
    - assert (SF2R d = 0) by lra. nra.
    - specialize (Hprod H0). nra. }
  destruct (Rounded_finite (S754_zero false) top _ _
              eq_refl eq_refl Hvt Hft Hb HR) as [Hf Hbounds].
  split; [apply HR|]. split; [exact Hf|]. simpl in Hbounds. exact Hbounds.
Qed.


(** *** The constants of the frame *)

Lemma bounded_within (lo hi : Z) (x : f64) :
  (Z.abs lo < 2 ^ 53)%Z -> (Z.abs hi < 2 ^ 53)%Z ->
  bounded lo hi x -> within (IZR lo) (IZR hi) x.
Proof.
  intros Hlo Hhi (Hv & H1 & H2).
  apply withinb_within; try assumption. unfold withinb.
  rewrite Hv, H1, H2.
  destruct (of_Z_within lo Hlo) as (_ & Hfl & _).
  destruct (of_Z_within hi Hhi) as (_ & Hfh & _).
  destruct x as [s|[|]| |s m e]; try reflexivity.
  - destruct (of_Z lo); try discriminate Hfl; discriminate H1.
  - destruct (of_Z hi); try discriminate Hfh; discriminate H2.
  - destruct (of_Z hi); try discriminate Hfh; discriminate H2.
Qed.

Lemma unit_43 : IZR 8796093022208 * bpow (-43) = 1.
Proof.
  change 8796093022208%Z with (2 ^ 43)%Z. rewrite IZR_pow2_bpow by lia.
  rewrite <- bpow_add. reflexivity.
Qed.

Lemma unit_48 : IZR 281474976710656 * bpow (-48) = 1.
Proof.
  change 281474976710656%Z with (2 ^ 48)%Z. rewrite IZR_pow2_bpow by lia.
  rewrite <- bpow_add. reflexivity.
Qed.

Lemma ulp_53 : bpow (-53) * 1024 = bpow (-43).
Proof.
  change 1024 with (IZR (2 ^ 10)). rewrite IZR_pow2_bpow by lia.
  rewrite <- bpow_add. reflexivity.
Qed.

Lemma ulp_48 : bpow (-48) * 32 = bpow (-43).
Proof.
  change 32 with (IZR (2 ^ 5)). rewrite IZR_pow2_bpow by lia.
  rewrite <- bpow_add. reflexivity.
Qed.

Lemma top_760 :
  fine (lit 760.0000000000001)
  /\ SF2R (lit 760.0000000000001) = 760 + bpow (-43).
Proof.
  split; [split; reflexivity|].
  change (lit 760.0000000000001) with (S754_finite false 6685030696878081 (-43)).
  cbn [SF2R cond_Zopp]. pose proof unit_43. lra.
Qed.

Lemma top_560 :
  fine (lit 560.0000000000001)
  /\ SF2R (lit 560.0000000000001) = 560 + bpow (-43).
Proof.
  split; [split; reflexivity|].
  change (lit 560.0000000000001) with (S754_finite false 4925812092436481 (-43)).
  cbn [SF2R cond_Zopp]. pose proof unit_43. lra.
Qed.

Lemma right_780 :
  fine (lit 780.0000000000001)
  /\ SF2R (lit 780.0000000000001) = 780 + bpow (-43).
Proof.
  split; [split; reflexivity|].
  change (lit 780.0000000000001) with (S754_finite false 6860952557322241 (-43)).
  cbn [SF2R cond_Zopp]. pose proof unit_43. lra.
Qed.

Lemma above_20 :
  fine (lit 19.999999999999886)
  /\ SF2R (lit 19.999999999999886) = 20 - bpow (-43).
Proof.
  split; [split; reflexivity|].
  change (lit 19.999999999999886) with (S754_finite false 5629499534213088 (-48)).
  cbn [SF2R cond_Zopp]. pose proof unit_48. pose proof ulp_48. lra.
Qed.

Lemma fine_SFleb (x y : f64) :
  fine x -> fine y -> SF2R x <= SF2R y -> SFleb x y = true.
Proof.
  intros [Hvx Hfx] [Hvy Hfy] H.
  apply SFleb_SFval; try assumption.
  - destruct x; try discriminate Hfx; reflexivity.
  - destruct y; try discriminate Hfy; reflexivity.
  - rewrite (SFval_finite x Hfx), (SFval_finite y Hfy). exact H.
Qed.

(** *** One drawing point *)

Lemma draw_x_within (d range scale : f64) :
  fine d -> 0 <= SF2R d <= SF2R range ->
  fine scale -> 0 < SF2R scale ->
  (0 < SF2R range -> SF2R scale * SF2R range <= 760 * (1 + bpow (-53))) ->
  let x := fadd (of_Z margin) (fmul d scale) in
  SFleb (of_Z margin) x = true /\ SFleb x (lit 780.0000000000001) = true.
Proof.
  intros Hd Hdr Hs Hs0 Hprod x.
  destruct top_760 as [Ht Etop]. destruct right_780 as [Hr Eright].
  pose proof ulp_53 as Hu. pose proof (bpow_pos (-53)) as Hp.
  assert (Hm : within 0 (SF2R (lit 760.0000000000001)) (fmul d scale)).
  { apply (offset_within 760 _ d range scale); try assumption; [|lia].
    rewrite Etop. change (IZR 760) with 760. lra. }
  destruct Hm as (Hvm & Hfm & Hmb).
  destruct (of_Z_within margin) as (Hv20 & Hf20 & H20); [reflexivity|].
  change (IZR margin) with 20 in H20.
  pose proof (fadd_Rounded (of_Z margin) (fmul d scale) Hv20 Hvm Hf20 Hfm) as HR.
  fold x in HR.
  assert (Hb : SF2R (of_Z margin) <= SF2R (of_Z margin) + SF2R (fmul d scale)
               <= SF2R (lit 780.0000000000001)) by lra.
  destruct (Rounded_finite (of_Z margin) (lit 780.0000000000001) x _
              Hv20 Hf20 (proj1 Hr) (proj2 Hr) Hb HR) as [Hfx Hxb].
  assert (Hx : fine x) by (split; [apply HR | exact Hfx]).
  assert (H20f : fine (of_Z margin)) by (split; assumption).
  split; apply fine_SFleb; try assumption; lra.
Qed.

Lemma draw_y_within (d range scale : f64) :
  fine d -> 0 <= SF2R d <= SF2R range ->
  fine scale -> 0 < SF2R scale ->
  (0 < SF2R range -> SF2R scale * SF2R range <= 560 * (1 + bpow (-53))) ->
  let y := fsub (of_Z (height - margin)) (fmul d scale) in
  SFleb (lit 19.999999999999886) y = true
  /\ SFleb y (of_Z (height - margin)) = true.
Proof.
  intros Hd Hdr Hs Hs0 Hprod y.
  destruct top_560 as [Ht Etop]. destruct above_20 as [Hr Eabove].
  pose proof ulp_53 as Hu. pose proof (bpow_pos (-53)) as Hp.
  assert (Hm : within 0 (SF2R (lit 560.0000000000001)) (fmul d scale)).
  { apply (offset_within 560 _ d range scale); try assumption; [|lia].
    rewrite Etop. change (IZR 560) with 560. lra. }
  destruct Hm as (Hvm & Hfm & Hmb).
  destruct (of_Z_within (height - margin)) as (Hv & Hf & H580); [reflexivity|].
  change (IZR (height - margin)) with 580 in H580.
  pose proof (fsub_Rounded (of_Z (height - margin)) (fmul d scale) Hv Hvm Hf Hfm) as HR.
  fold y in HR.
  assert (Hb : SF2R (lit 19.999999999999886)
               <= SF2R (of_Z (height - margin)) - SF2R (fmul d scale)
               <= SF2R (of_Z (height - margin))) by lra.
  destruct (Rounded_finite (lit 19.999999999999886) (of_Z (height - margin)) y _
              (proj1 Hr) (proj2 Hr) Hv Hf Hb HR) as [Hfy Hyb].
  assert (Hy : fine y) by (split; [apply HR | exact Hfy]).
  assert (H580f : fine (of_Z (height - margin))) by (split; assumption).
  split; apply fine_SFleb; try assumption; lra.
Qed.

(** The offset of a coordinate from the least one. *)
Lemma offset_value (v lo hi : f64) :
  fine v -> fine lo -> fine hi ->
  SF2R lo <= SF2R v <= SF2R hi ->
  SF2R hi - SF2R lo <= 360 ->
  fine (fsub v lo) /\ fine (fsub hi lo)
  /\ 0 <= SF2R (fsub v lo) <= SF2R (fsub hi lo)
  /\ SF2R (fsub hi lo) <= 360.
Proof.
  intros [Hvv Hfv] [Hvl Hfl] [Hvh Hfh] Hb Hspan.
  pose proof (fsub_Rounded v lo Hvv Hvl Hfv Hfl) as Rd.
  pose proof (fsub_Rounded hi lo Hvh Hvl Hfh Hfl) as Rr.
  assert (Wd : within (IZR 0) (IZR 360) (fsub v lo)).
  { apply (Rounded_within 0 360 _ _) with (4 := Rd); try reflexivity. simpl. lra. }
  assert (Wr : within (IZR 0) (IZR 360) (fsub hi lo)).
  { apply (Rounded_within 0 360 _ _) with (4 := Rr); try reflexivity. simpl. lra. }
  destruct Wd as (Hvd & Hfd & Hd). destruct Wr as (Hvr & Hfr & Hr).
  split; [split; assumption|]. split; [split; assumption|].
  assert (Hle : SFval (fsub v lo) <= SFval (fsub hi lo)).
  { apply (Rounded_le _ _ _ _) with (2 := Rd) (3 := Rr). lra. }
  rewrite (SFval_finite _ Hfd), (SFval_finite _ Hfr) in Hle.
  simpl in Hd, Hr. lra.
Qed.

Section Frame.
Variable M : Libm.

(** In binary64, when the scale is finite: every drawing point of samples
    in the ranges is in the frame with its rounding. *)
Lemma frame_binary64 (first : @sample (binary64 M))
  (rest : list (@sample (binary64 M)))
  (ns : list (@point (binary64 M))) (pf : list (@entry (binary64 M))) :
  let points := first :: rest in
  let min_lat := py_min_from (F := binary64 M) (lat_of first) (map lat_of rest) in
  let max_lat := py_max_from (F := binary64 M) (lat_of first) (map lat_of rest) in
  let min_lon := py_min_from (F := binary64 M) (lon_of first) (map lon_of rest) in
  let max_lon := py_max_from (F := binary64 M) (lon_of first) (map lon_of rest) in
  let lat_range := fsub max_lat min_lat in
  let lon_range := fsub max_lon min_lon in
  let scale_lat :=
    if fltb (of_Z 0) lat_range
    then fdiv (of_Z (height - 2 * margin)) lat_range else of_Z 1 in
  let scale_lon :=
    if fltb (of_Z 0) lon_range
    then fdiv (of_Z (width - 2 * margin)) lon_range else of_Z 1 in
  let scale := min2 (F := binary64 M) scale_lat scale_lon in
  Forall (fun p : @sample (binary64 M) =>
            bounded (-90) 90 (lat_of p) /\ bounded (-180) 180 (lon_of p)) points ->
  is_finite scale = true ->
  normalize_coordinates (F := binary64 M) points = Ok (ns, pf) ->
  Forall in_frame64 ns.
Proof.
  intros points min_lat max_lat min_lon max_lon lat_range lon_range
    scale_lat scale_lon scale Hall Hfin H.
  apply (normalize_Ok (F := binary64 M)) in H
    as (sl & so & accs & Hsl & Hso & _ & _ & ->).
  apply (axis_scale_Ok (F := binary64 M)) in Hsl, Hso. subst sl so.
  change (Forall in_frame64 (map (draw (F := binary64 M) min_lat min_lon scale) points)).
  assert (Wlat : Forall (fun v => within (IZR (-90)) (IZR 90) v) (map lat_of points)).
  { apply Forall_map. eapply Forall_impl; [|exact Hall].
    intros p [Hp _]. apply bounded_within; [reflexivity | reflexivity | exact Hp]. }
  assert (Wlon : Forall (fun v => within (IZR (-180)) (IZR 180) v) (map lon_of points)).
  { apply Forall_map. eapply Forall_impl; [|exact Hall].
    intros p [_ Hp]. apply bounded_within; [reflexivity | reflexivity | exact Hp]. }
  assert (Flat : Forall fine (map lat_of points)).
  { eapply Forall_impl; [|exact Wlat]. intros v (Hv & Hf & _). split; assumption. }
  assert (Flon : Forall fine (map lon_of points)).
  { eapply Forall_impl; [|exact Wlon]. intros v (Hv & Hf & _). split; assumption. }
  unfold points in Wlat, Wlon, Flat, Flon. cbn [map] in Wlat, Wlon, Flat, Flon.
  inversion Flat as [|? ? Flat1 Flat2]; subst.
  inversion Flon as [|? ? Flon1 Flon2]; subst.
  pose proof (py_min_from_fine M _ _ Flat1 Flat2
              : In min_lat (lat_of first :: map lat_of rest) /\ fine min_lat
                /\ SF2R min_lat <= SF2R (lat_of first)
                /\ Forall (fun v => SF2R min_lat <= SF2R v) (map lat_of rest))
    as (Imin_lat & Fmin_lat & Lmin_lat1 & Lmin_lat).
  pose proof (py_max_from_fine M _ _ Flat1 Flat2
              : In max_lat (lat_of first :: map lat_of rest) /\ fine max_lat
                /\ SF2R (lat_of first) <= SF2R max_lat
                /\ Forall (fun v => SF2R v <= SF2R max_lat) (map lat_of rest))
    as (Imax_lat & Fmax_lat & Lmax_lat1 & Lmax_lat).
  pose proof (py_min_from_fine M _ _ Flon1 Flon2
              : In min_lon (lon_of first :: map lon_of rest) /\ fine min_lon
                /\ SF2R min_lon <= SF2R (lon_of first)
                /\ Forall (fun v => SF2R min_lon <= SF2R v) (map lon_of rest))
    as (Imin_lon & Fmin_lon & Lmin_lon1 & Lmin_lon).
  pose proof (py_max_from_fine M _ _ Flon1 Flon2
              : In max_lon (lon_of first :: map lon_of rest) /\ fine max_lon
                /\ SF2R (lon_of first) <= SF2R max_lon
                /\ Forall (fun v => SF2R v <= SF2R max_lon) (map lon_of rest))
    as (Imax_lon & Fmax_lon & Lmax_lon1 & Lmax_lon).
  rewrite Forall_forall in Wlat, Wlon.
  pose proof (Wlat _ Imin_lat) as (_ & _ & Bmin_lat).
  pose proof (Wlat _ Imax_lat) as (_ & _ & Bmax_lat).
  pose proof (Wlon _ Imin_lon) as (_ & _ & Bmin_lon).
  pose proof (Wlon _ Imax_lon) as (_ & _ & Bmax_lon).
  simpl in Bmin_lat, Bmax_lat, Bmin_lon, Bmax_lon.
  assert (Hmm_lat : SF2R min_lat <= SF2R max_lat) by lra.
  assert (Hmm_lon : SF2R min_lon <= SF2R max_lon) by lra.
  (* the ranges and the scales *)
  destruct (offset_value max_lat min_lat max_lat Fmax_lat Fmin_lat Fmax_lat)
    as (_ & Frange_lat & Brange_lat); [lra | lra |].
  destruct (offset_value max_lon min_lon max_lon Fmax_lon Fmin_lon Fmax_lon)
    as (_ & Frange_lon & Brange_lon); [lra | lra |].
  fold lat_range in Frange_lat, Brange_lat. fold lon_range in Frange_lon, Brange_lon.
  assert (Wrange_lat : within 0 (IZR 360) lat_range).
  { split; [apply Frange_lat|]. split; [apply Frange_lat|]. simpl. lra. }
  assert (Wrange_lon : within 0 (IZR 360) lon_range).
  { split; [apply Frange_lon|]. split; [apply Frange_lon|]. simpl. lra. }
  destruct (axis_scale_value (height - 2 * margin) 360 lat_range)
    as (Nlat & Plat & Slat & _); [unfold height, margin; lia | lia | exact Wrange_lat |].
  destruct (axis_scale_value (width - 2 * margin) 360 lon_range)
    as (Nlon & Plon & Slon & _); [unfold width, margin; lia | lia | exact Wrange_lon |].
  fold scale_lat in Nlat, Plat, Slat. fold scale_lon in Nlon, Plon, Slon.
  change (IZR (height - 2 * margin)) with 560 in Slat.
  change (IZR (width - 2 * margin)) with 760 in Slon.
  destruct (min2_value M scale_lat scale_lon Nlat Nlon)
    as (Hcase & Nscale & Hle_lat & Hle_lon).
  fold scale in Hcase, Nscale, Hle_lat, Hle_lon.
  assert (Fscale : fine scale) by (split; [apply Nscale | exact Hfin]).
  assert (Pscale : 0 < SF2R scale).
  { rewrite <- (SFval_finite _ Hfin). destruct Hcase as [->| ->]; assumption. }
  rewrite (SFval_finite _ Hfin) in Hle_lat, Hle_lon.
  (* one sample *)
  apply Forall_map, Forall_forall. intros p Hp.
  assert (Hlat_p : In (lat_of p) (lat_of first :: map lat_of rest)).
  { destruct Hp as [<-|Hp]; [left; reflexivity | right; apply in_map, Hp]. }
  assert (Hlon_p : In (lon_of p) (lon_of first :: map lon_of rest)).
  { destruct Hp as [<-|Hp]; [left; reflexivity | right; apply in_map, Hp]. }
  assert (Flat_p : fine (lat_of p)).
  { destruct (Wlat _ Hlat_p) as (Hv & Hf & _). split; assumption. }
  assert (Flon_p : fine (lon_of p)).
  { destruct (Wlon _ Hlon_p) as (Hv & Hf & _). split; assumption. }
  assert (Blat_p : SF2R min_lat <= SF2R (lat_of p) <= SF2R max_lat).
  { rewrite Forall_forall in Lmin_lat, Lmax_lat.
    destruct Hlat_p as [<-|Hin]; [lra|].
    split; [apply Lmin_lat | apply Lmax_lat]; exact Hin. }
  assert (Blon_p : SF2R min_lon <= SF2R (lon_of p) <= SF2R max_lon).
  { rewrite Forall_forall in Lmin_lon, Lmax_lon.
    destruct Hlon_p as [<-|Hin]; [lra|].
    split; [apply Lmin_lon | apply Lmax_lon]; exact Hin. }
  destruct (offset_value (lat_of p) min_lat max_lat Flat_p Fmin_lat Fmax_lat)
    as (Fd_lat & _ & Bd_lat); [lra | lra |].
  destruct (offset_value (lon_of p) min_lon max_lon Flon_p Fmin_lon Fmax_lon)
    as (Fd_lon & _ & Bd_lon); [lra | lra |].
  fold lat_range in Bd_lat. fold lon_range in Bd_lon.
  destruct (draw_x_within (fsub (lon_of p) min_lon) lon_range scale)
    as [Hx1 Hx2]; try assumption; [lra | |].
  { intros Hpos. specialize (Slon Hpos).
    apply Rle_trans with (SFval scale_lon * SF2R lon_range); [|exact Slon].
    apply Rmult_le_compat_r; lra. }
  destruct (draw_y_within (fsub (lat_of p) min_lat) lat_range scale)
    as [Hy1 Hy2]; try assumption; [lra | |].
  { intros Hpos. specialize (Slat Hpos).
    apply Rle_trans with (SFval scale_lat * SF2R lat_range); [|exact Slat].
    apply Rmult_le_compat_r; lra. }
  unfold in_frame64, draw. cbn [fst snd].
  repeat split; assumption.
Qed.

End Frame.

End FrameFacts.

(** ** Reading a coordinate back *)

Module TextFacts.

Lemma before_point_digits (d : Decimal.uint) (frac : string) :
  before_point (NilEmpty.string_of_uint d ++ "." ++ frac)
  = Some (NilEmpty.string_of_uint d, frac).
Proof.
  induction d; simpl in *; try rewrite IHd; reflexivity.
Qed.

Lemma to_uint_digits (n : N) :
  NilZero.string_of_uint (N.to_uint n) = NilEmpty.string_of_uint (N.to_uint n)
  /\ N.to_uint n <> Decimal.Nil.
Proof.
  assert (H : N.to_uint n <> Decimal.Nil).
  { destruct n as [|p]; [discriminate|]. simpl.
    intros E. apply (f_equal Pos.of_uint) in E.
    rewrite DecimalPos.Unsigned.of_to in E. discriminate E. }
  split; [|exact H]. destruct (N.to_uint n); [contradiction | | | | | | | | | |];
    reflexivity.
Qed.

Lemma digits_value_dec (n : Z) : (0 <= n)%Z -> digits_value (dec n) = Some n.
Proof.
  intros Hn. unfold digits_value, dec.
  destruct (to_uint_digits (Z.to_N n)) as [_ Hnil].
  rewrite (NilZero.usu _ Hnil). simpl.
  rewrite DecimalN.Unsigned.of_to. f_equal. lia.
Qed.

Lemma dec_first (n : Z) :
  exists (c : ascii) (rest : string),
    dec n = String c rest /\ Ascii.eqb c "-" = false.
Proof.
  unfold dec. destruct (to_uint_digits (Z.to_N n)) as [-> Hnil].
  destruct (N.to_uint (Z.to_N n)); [contradiction | | | | | | | | | |];
    simpl; eexists _, _; split; reflexivity.
Qed.

Lemma before_point_dec (n : Z) (frac : string) :
  before_point (dec n ++ "." ++ frac) = Some (dec n, frac).
Proof.
  unfold dec. destruct (to_uint_digits (Z.to_N n)) as [-> _].
  apply before_point_digits.
Qed.

Lemma two_digits_value (k : Z) :
  (0 <= k < 100)%Z ->
  String.length (two_digits k) = 2%nat /\ digits_value (two_digits k) = Some k.
Proof.
  intros Hk.
  assert (Hm : exists m : nat, (m < 100)%nat /\ k = Z.of_nat m).
  { exists (Z.to_nat k). split; lia. }
  destruct Hm as (m & Hm & ->). clear Hk.
  do 100 (destruct m as [|m]; [split; reflexivity|]). lia.
Qed.

(** The text of a count of hundredths reads back as the count. *)
Lemma read_fixed2_fixed2 (negative : bool) (n : Z) :
  (0 <= n)%Z -> read_fixed2 (fixed2 negative n) = Some (negative, n).
Proof.
  intros Hn. unfold fixed2, read_fixed2.
  assert (Hq : (0 <= n / 100)%Z) by (apply Z.div_pos; lia).
  assert (Hr : (0 <= n mod 100 < 100)%Z) by (apply Z.mod_pos_bound; lia).
  destruct (two_digits_value _ Hr) as [Hlen Hval].
  assert (Hbody : forall body : string,
            body = (dec (n / 100) ++ "." ++ two_digits (n mod 100))%string ->
            match before_point body with
            | Some (whole, frac) =>
                if (String.length frac =? 2)%nat then
                  match digits_value whole, digits_value frac with
                  | Some w, Some f => Some (negative, (100 * w + f)%Z)
                  | _, _ => None
                  end
                else None
            | None => None
            end = Some (negative, n)).
  { intros body ->. rewrite before_point_dec, Hlen, digits_value_dec, Hval by exact Hq.
    cbn [Nat.eqb]. f_equal. f_equal. rewrite (Z.div_mod n 100) at 3 by lia. reflexivity. }
  destruct negative.
  - change (("-" ++ dec (n / 100) ++ "." ++ two_digits (n mod 100))%string)
      with (String "-" (dec (n / 100) ++ "." ++ two_digits (n mod 100))).
    cbn [Ascii.eqb Bool.eqb]. apply Hbody. reflexivity.
  - change (("" ++ dec (n / 100) ++ "." ++ two_digits (n mod 100))%string)
      with ((dec (n / 100) ++ "." ++ two_digits (n mod 100))%string).
    destruct (dec_first (n / 100)) as (c & rest & E & Hc).
    rewrite E. cbn [append]. rewrite Hc.
    apply Hbody. rewrite E. reflexivity.
Qed.

End TextFacts.

Module CoordinateFacts.
Import B64 Values ValuesFacts DistanceFacts FrameFacts TextFacts.
Local Open Scope R_scope.

(** The text of a finite coordinate in binary64 reads back as its sign
    and the whole number of hundredths nearest to its magnitude. *)
Lemma fmt2_reads_binary64 (M : Libm) (x : f64) :
  is_finite x = true ->
  exists (negative : bool) (n : Z),
    read_fixed2 (@fmt2 (binary64 M) x) = Some (negative, n)
    /\ Rabs (IZR n - 100 * Rabs (SF2R x)) <= 1 / 2
    /\ (if negative then SF2R x <= 0 else 0 <= SF2R x).
Proof.
  intros Hf. destruct x as [s|s| |s m e]; try discriminate Hf.
  - exists s, 0%Z. split; [apply (read_fixed2_fixed2 s 0); lia|].
    simpl. rewrite Rabs_R0, Rmult_0_r, Rminus_0_r, Rabs_R0.
    split; [lra|]. destruct s; lra.
  - exists s, (hundredths m e).
    assert (Hpos : 0 < IZR (Zpos m) * bpow e)
      by (apply Rmult_lt_0_compat; [apply IZR_lt; lia | apply bpow_pos]).
    assert (Habs : Rabs (SF2R (S754_finite s m e)) = IZR (Zpos m) * bpow e).
    { cbn [SF2R]. destruct s; cbn [cond_Zopp].
      - change (IZR (- Zpos m)) with (- IZR (Zpos m)).
        rewrite <- Ropp_mult_distr_l, Rabs_Ropp. apply Rabs_pos_eq. lra.
      - apply Rabs_pos_eq. lra. }
    rewrite Habs, hundredths_rne.
    pose proof (ExactFacts.rne_near (100 * (IZR (Zpos m) * bpow e))) as Hnear.
    split.
    + change (@fmt2 (binary64 M) (S754_finite s m e))
        with (fixed2 s (hundredths m e)).
      rewrite <- hundredths_rne. apply read_fixed2_fixed2.
      rewrite hundredths_rne. apply rne_nonneg. lra.
    + split.
      * unfold Rabs. destruct (Rcase_abs _); lra.
      * cbn [SF2R]. destruct s; cbn [cond_Zopp].
        -- change (IZR (- Zpos m)) with (- IZR (Zpos m)). lra.
        -- lra.
Qed.

(** The same in exact arithmetic. *)
Lemma fmt2_reads_exact (x : R) :
  exists (negative : bool) (n : Z),
    read_fixed2 (@fmt2 Exact.Rexact x) = Some (negative, n)
    /\ Rabs (IZR n - 100 * Rabs x) <= 1 / 2
    /\ (if negative then x <= 0 else 0 <= x).
Proof.
  exists (Exact.Rltb x 0), (Z.abs (Exact.rne (x * 100))).
  split; [apply read_fixed2_fixed2; lia|]. split.
  - rewrite abs_IZR.
    replace (100 * Rabs x) with (Rabs (x * 100)).
    + eapply Rle_trans; [apply Rabs_triang_inv2|].
      pose proof (ExactFacts.rne_near (x * 100)) as H.
      unfold Rabs. destruct (Rcase_abs _); lra.
    + rewrite Rabs_mult, (Rabs_pos_eq 100) by lra. ring.
  - unfold Exact.Rltb. destruct (Rlt_dec x 0); lra.
Qed.

(** *** The least and the greatest, the smaller scale *)

Lemma extremes_binary64 (M : Libm) (x : f64) (xs : list f64) :
  fine x -> Forall fine xs ->
  (In (py_min_from (F := binary64 M) x xs) (x :: xs)
   /\ Forall (fun v => fltb v (py_min_from (F := binary64 M) x xs) = false) (x :: xs))
  /\ (In (py_max_from (F := binary64 M) x xs) (x :: xs)
      /\ Forall (fun v => fltb (py_max_from (F := binary64 M) x xs) v = false) (x :: xs)).
Proof.
  intros Hx Hxs.
  destruct (py_min_from_fine M xs x Hx Hxs) as (Imin & Fmin & Lmin1 & Lmin).
  destruct (py_max_from_fine M xs x Hx Hxs) as (Imax & Fmax & Lmax1 & Lmax).
  assert (Hall : Forall fine (x :: xs)) by (constructor; assumption).
  rewrite Forall_forall in Hall, Lmin, Lmax.
  split; (split; [assumption|]); apply Forall_forall; intros v Hv.
  - apply fltb_ge; [apply Hall, Hv | exact Fmin|].
    destruct Hv as [<-|Hv]; [exact Lmin1 | apply Lmin, Hv].
  - apply fltb_ge; [exact Fmax | apply Hall, Hv|].
    destruct Hv as [<-|Hv]; [exact Lmax1 | apply Lmax, Hv].
Qed.

Lemma of_Z_positive (z : Z) :
  (1 <= z < 2 ^ 53)%Z -> exists m e, of_Z z = S754_finite false m e.
Proof.
  intros Hz. destruct (of_Z_within z) as (Hv & Hf & Hb); [lia|].
  assert (H1 : 1 <= IZR z) by (apply IZR_le; lia).
  destruct (of_Z z) as [s|s| |s m e]; try discriminate Hf.
  - simpl in Hb. lra.
  - exists m, e. destruct s; [|reflexivity]. exfalso.
    cbn [SF2R cond_Zopp] in Hb.
    change (IZR (- Zpos m)) with (- IZR (Zpos m)) in Hb.
    assert (0 < IZR (Zpos m) * bpow e)
      by (apply Rmult_lt_0_compat; [apply IZR_lt; lia | apply bpow_pos]).
    lra.
Qed.

Lemma axis_scale_number (extent : Z) (range : f64) :
  (1 <= extent < 2 ^ 53)%Z -> number range ->
  number (if fltb (of_Z 0) range then fdiv (of_Z extent) range else of_Z 1).
Proof.
  intros Hext [Hv Hn].
  destruct (fltb (of_Z 0) range) eqn:E; [|split; reflexivity].
  destruct (of_Z_positive extent Hext) as (m & e & ->).
  destruct range as [s|s| |s' m' e']; try discriminate Hn.
  - discriminate E.
  - split; reflexivity.
  - exact (Rounded_number _ _ (fdiv_Rounded false s' m m' e e')).
Qed.

(** The scale is one of the two axis scales, and neither is below it. *)
Lemma scale_binary64 (M : Libm) (max_lat min_lat max_lon min_lon : f64) :
  fine max_lat -> fine min_lat -> fine max_lon -> fine min_lon ->
  let lat_range := fsub max_lat min_lat in
  let lon_range := fsub max_lon min_lon in
  let scale_lat :=
    if fltb (of_Z 0) lat_range
    then fdiv (of_Z (height - 2 * margin)) lat_range else of_Z 1 in
  let scale_lon :=
    if fltb (of_Z 0) lon_range
    then fdiv (of_Z (width - 2 * margin)) lon_range else of_Z 1 in
  let scale := min2 (F := binary64 M) scale_lat scale_lon in
  (scale = scale_lat \/ scale = scale_lon)
  /\ fltb scale_lat scale = false /\ fltb scale_lon scale = false.
Proof.
  intros [V1 F1] [V2 F2] [V3 F3] [V4 F4] lat_range lon_range scale_lat scale_lon scale.
  assert (Nlat : number scale_lat).
  { apply axis_scale_number; [unfold height, margin; lia|].
    exact (Rounded_number _ _ (fsub_Rounded _ _ V1 V2 F1 F2)). }
  assert (Nlon : number scale_lon).
  { apply axis_scale_number; [unfold width, margin; lia|].
    exact (Rounded_number _ _ (fsub_Rounded _ _ V3 V4 F3 F4)). }
  destruct (min2_value M scale_lat scale_lon Nlat Nlon)
    as (Hcase & [Vs Ns] & H1 & H2).
  split; [exact Hcase|].
  split; apply SFltb_false_SFval; try assumption;
    try apply Nlat; try apply Nlon.
Qed.

End CoordinateFacts.

(** * The properties of the specification *)

Section Structure.
Context {F : PyFloat}.

Lemma track_lats (a b : list sample) :
  track a = track b -> map lat_of a = map lat_of b.
Proof.
  intros H. apply (f_equal (map fst)) in H.
  unfold track in H. rewrite !map_map in H. exact H.
Qed.

Lemma track_lons (a b : list sample) :
  track a = track b -> map lon_of a = map lon_of b.
Proof.
  intros H. apply (f_equal (map snd)) in H.
  unfold track in H. rewrite !map_map in H. exact H.
Qed.

Lemma track_draw (min_lat min_lon scale : num) (a b : list sample) :
  track a = track b ->
  map (draw min_lat min_lon scale) a = map (draw min_lat min_lon scale) b.
Proof.
  revert b. induction a as [|p a IH]; intros [|q b] H; try discriminate H.
  - reflexivity.
  - unfold track in H. simpl in H. injection H as Hlat Hlon H.
    simpl. rewrite (IH b H). unfold draw. rewrite Hlat, Hlon. reflexivity.
Qed.

Lemma track_running (a : list sample) :
  forall (b : list sample) (cum lat lon : num) (accs : list num),
    track a = track b ->
    running cum lat lon a accs -> running cum lat lon b accs.
Proof.
  induction a as [|p a IH]; intros [|q b] cum lat lon accs H Hrun;
    try discriminate H.
  - inversion Hrun; subst. constructor.
  - unfold track in H. simpl in H. injection H as Hlat Hlon H.
    inversion Hrun as [|cum' lat' lon' p' rest' h accs' Hh Hrest]; subst.
    rewrite Hlat, Hlon in Hh, Hrest.
    econstructor; [exact Hh|]. apply (IH b); assumption.
Qed.

Lemma entries_elevations (accs : list num) (a : list sample) (pf : list entry) :
  entries accs a pf ->
  forall (b : list sample) (es : list Z),
    length a = length b ->
    Forall2 (fun p e => round0 (ele_of p) = Ok e) b es ->
    entries accs b (combine (map fst pf) es).
Proof.
  induction 1 as [|acc accs p rest d e pf Hd He Hent IH];
    intros [|q b] es Hlen Hes; try discriminate Hlen.
  - inversion Hes; subst. constructor.
  - inversion Hes as [|q' e' b' es' Hq Hrest]; subst. simpl.
    constructor; [exact Hd | exact Hq |].
    apply IH; [simpl in Hlen; lia | exact Hrest].
Qed.

Lemma entries_nth_entry (accs : list num) (points : list sample) (es : list entry) :
  entries accs points es ->
  forall i d e, nth_error es i = Some (d, e) ->
    exists acc p,
      nth_error accs i = Some acc
      /\ nth_error points i = Some p
      /\ round2 acc = Ok d
      /\ round0 (ele_of p) = Ok e.
Proof.
  induction 1 as [|acc accs p rest d e es Hd He Hent IH]; intros i d' e' Hi.
  - destruct i; discriminate Hi.
  - destruct i as [|i]; simpl in Hi.
    + injection Hi as <- <-. exists acc, p. repeat split; assumption.
    + apply IH in Hi. exact Hi.
Qed.

(** C4. The empty list of samples is normalised to two empty lists, no
    exception raised, and no path is written for an empty list of points. *)
Theorem empty_track (writes : string -> string -> bool) (output_file : string) :
  normalize_coordinates [] = Ok ([], [])
  /\ written (create_svg writes [] output_file) = None.
Proof. split; reflexivity. Qed.

(** C10. Elevations reach nothing but the second component of the
    profile: a list of samples with the same latitudes and longitudes and
    other elevations (each with an integer rounding) is normalised to the
    same drawing points and the same distances, next to its own rounded
    elevations. *)
Theorem elevations_framed (a b : list sample)
  (ns : list point) (pf : list entry) (es : list Z) :
  track a = track b ->
  normalize_coordinates a = Ok (ns, pf) ->
  Forall2 (fun p e => round0 (ele_of p) = Ok e) b es ->
  normalize_coordinates b = Ok (ns, combine (map fst pf) es)
  /\ map fst (combine (map fst pf) es) = map fst pf.
Proof.
  intros Htrack Ha Hes.
  assert (Hlen : length a = length b).
  { apply (f_equal (@length _)) in Htrack. unfold track in Htrack.
    rewrite !length_map in Htrack. exact Htrack. }
  destruct a as [|fa ra], b as [|fb rb]; try discriminate Hlen.
  - injection Ha as <- <-. inversion Hes; subst. split; reflexivity.
  - pose proof (track_lats _ _ Htrack) as Hlats.
    pose proof (track_lons _ _ Htrack) as Hlons.
    simpl in Hlats, Hlons.
    injection Hlats as Hlat0 Hlats. injection Hlons as Hlon0 Hlons.
    apply normalize_Ok in Ha as (sl & so & accs & Hsl & Hso & Hrun & Hent & ->).
    pose proof (entries_elevations _ _ _ Hent _ _ Hlen Hes) as Hent'.
    split.
    + rewrite (track_draw _ _ _ _ _ Htrack).
      rewrite Hlat0, Hlats, Hlon0, Hlons in *.
      apply normalize_run with (accs := accs); try assumption.
      apply (track_running _ _ _ _ _ _ Htrack). exact Hrun.
    + apply entries_length in Hent as [_ Hpf].
      apply Forall2_length in Hes.
      assert (Hl : length (map fst pf) = length es)
        by (rewrite length_map; unfold entry in Hpf;
            rewrite Hpf, Hlen; exact Hes).
      clear - Hl. revert es Hl.
      induction (map fst pf) as [|d ds IH]; intros [|e es] Hl;
        try discriminate Hl; simpl; [reflexivity|].
      f_equal. apply IH. simpl in Hl. lia.
Qed.

End Structure.

(** C1. For a non-empty list of samples, the drawing point of sample [i]
    is [x = margin + (lon - min_lon) * scale] and
    [y = height - margin - (lat - min_lat) * scale], where [scale] is the
    smaller of [scale_lat] and [scale_lon], each the extent
    [height - 2 * margin] (resp. [width - 2 * margin]) divided by the range
    when the range is positive and 1 otherwise: so in every arithmetic for
    a returned result, and in exact arithmetic a result is returned.
    The names mean what they say.  In binary64, for finite coordinates,
    [min_lat] is a latitude of the list that no latitude is below and
    [max_lat] one that no latitude is above, likewise for the longitudes,
    and [scale] is one of [scale_lat] and [scale_lon] with neither below
    it; in exact arithmetic the same holds with the order of the reals. *)
Theorem normalize_draws :
  (forall (F : PyFloat) (first : sample) (rest : list sample)
      (ns : list point) (pf : list entry),
      let points := first :: rest in
      let min_lat := py_min_from (lat_of first) (map lat_of rest) in
      let max_lat := py_max_from (lat_of first) (map lat_of rest) in
      let min_lon := py_min_from (lon_of first) (map lon_of rest) in
      let max_lon := py_max_from (lon_of first) (map lon_of rest) in
      let lat_range := sub max_lat min_lat in
      let lon_range := sub max_lon min_lon in
      let scale_lat :=
        if gtb lat_range (of_int 0)
        then div (of_int (height - 2 * margin)) lat_range else of_int 1 in
      let scale_lon :=
        if gtb lon_range (of_int 0)
        then div (of_int (width - 2 * margin)) lon_range else of_int 1 in
      let scale := min2 scale_lat scale_lon in
      normalize_coordinates points = Ok (ns, pf) ->
      forall (i : nat) (p : sample),
        nth_error points i = Some p ->
        nth_error ns i =
          Some (add (of_int margin) (mul (sub (lon_of p) min_lon) scale),
                sub (of_int (height - margin))
                    (mul (sub (lat_of p) min_lat) scale)))
  /\ (forall points : list (@sample Exact.Rexact),
        exists ns pf, normalize_coordinates points = Ok (ns, pf))
  /\ (forall (M : B64.Libm) (first : @sample (B64.binary64 M))
        (rest : list (@sample (B64.binary64 M))),
        let points := first :: rest in
        let lats := map lat_of points in
        let lons := map lon_of points in
        let min_lat := py_min_from (lat_of first) (map lat_of rest) in
        let max_lat := py_max_from (lat_of first) (map lat_of rest) in
        let min_lon := py_min_from (lon_of first) (map lon_of rest) in
        let max_lon := py_max_from (lon_of first) (map lon_of rest) in
        let lat_range := sub max_lat min_lat in
        let lon_range := sub max_lon min_lon in
        let scale_lat :=
          if gtb lat_range (of_int 0)
          then div (of_int (height - 2 * margin)) lat_range else of_int 1 in
        let scale_lon :=
          if gtb lon_range (of_int 0)
          then div (of_int (width - 2 * margin)) lon_range else of_int 1 in
        let scale := min2 scale_lat scale_lon in
        Forall (fun p : @sample (B64.binary64 M) =>
                  Values.fine (lat_of p) /\ Values.fine (lon_of p)) points ->
        (In min_lat lats /\ Forall (fun v => B64.fltb v min_lat = false) lats)
        /\ (In max_lat lats /\ Forall (fun v => B64.fltb max_lat v = false) lats)
        /\ (In min_lon lons /\ Forall (fun v => B64.fltb v min_lon = false) lons)
        /\ (In max_lon lons /\ Forall (fun v => B64.fltb max_lon v = false) lons)
        /\ (scale = scale_lat \/ scale = scale_lon)
        /\ B64.fltb scale_lat scale = false
        /\ B64.fltb scale_lon scale = false)
  /\ (forall (first : @sample Exact.Rexact) (rest : list (@sample Exact.Rexact)),
        let points := first :: rest in
        let lats := map lat_of points in
        let lons := map lon_of points in
        let min_lat := py_min_from (lat_of first) (map lat_of rest) in
        let max_lat := py_max_from (lat_of first) (map lat_of rest) in
        let min_lon := py_min_from (lon_of first) (map lon_of rest) in
        let max_lon := py_max_from (lon_of first) (map lon_of rest) in
        let lat_range := sub max_lat min_lat in
        let lon_range := sub max_lon min_lon in
        let scale_lat :=
          if gtb lat_range (of_int 0)
          then div (of_int (height - 2 * margin)) lat_range else of_int 1 in
        let scale_lon :=
          if gtb lon_range (of_int 0)
          then div (of_int (width - 2 * margin)) lon_range else of_int 1 in
        let scale := min2 scale_lat scale_lon in
        (In min_lat lats /\ Forall (fun v => min_lat <= v) lats)
        /\ (In max_lat lats /\ Forall (fun v => v <= max_lat) lats)
        /\ (In min_lon lons /\ Forall (fun v => min_lon <= v) lons)
        /\ (In max_lon lons /\ Forall (fun v => v <= max_lon) lons)
        /\ (scale = scale_lat \/ scale = scale_lon)
        /\ scale <= scale_lat
        /\ scale <= scale_lon)%R.
Proof.
  split; [|split; [|split]].
  - intros F first rest ns pf points min_lat max_lat min_lon max_lon
      lat_range lon_range scale_lat scale_lon scale H i p Hp.
    apply normalize_Ok in H as (sl & so & accs & Hsl & Hso & _ & _ & ->).
    apply axis_scale_Ok in Hsl, Hso. subst sl so.
    apply (map_nth_error (draw min_lat min_lon scale)) in Hp. exact Hp.
  - apply ExactFacts.normalize_total.
  - intros M first rest points lats lons min_lat max_lat min_lon max_lon
      lat_range lon_range scale_lat scale_lon scale Hall.
    assert (Flat : Forall Values.fine (lat_of first :: map lat_of rest)).
    { change (Forall Values.fine (map lat_of points)).
      apply Forall_map. eapply Forall_impl; [|exact Hall]. intros p Hp. apply Hp. }
    assert (Flon : Forall Values.fine (lon_of first :: map lon_of rest)).
    { change (Forall Values.fine (map lon_of points)).
      apply Forall_map. eapply Forall_impl; [|exact Hall]. intros p Hp. apply Hp. }
    inversion Flat as [|? ? Flat1 Flat2]; subst.
    inversion Flon as [|? ? Flon1 Flon2]; subst.
    destruct (CoordinateFacts.extremes_binary64 M _ _ Flat1 Flat2) as [Hmin_lat Hmax_lat].
    destruct (CoordinateFacts.extremes_binary64 M _ _ Flon1 Flon2) as [Hmin_lon Hmax_lon].
    split; [exact Hmin_lat|]. split; [exact Hmax_lat|].
    split; [exact Hmin_lon|]. split; [exact Hmax_lon|].
    apply (CoordinateFacts.scale_binary64 M max_lat min_lat max_lon min_lon).
    + apply (FrameFacts.py_max_from_fine M _ _ Flat1 Flat2).
    + apply (FrameFacts.py_min_from_fine M _ _ Flat1 Flat2).
    + apply (FrameFacts.py_max_from_fine M _ _ Flon1 Flon2).
    + apply (FrameFacts.py_min_from_fine M _ _ Flon1 Flon2).
  - intros first rest points lats lons min_lat max_lat min_lon max_lon
      lat_range lon_range scale_lat scale_lon scale.
    destruct (ExactFacts.py_min_from_le (map lat_of rest) (lat_of first))
      as [Hmin_lat1 Hmin_lat].
    destruct (ExactFacts.py_max_from_ge (map lat_of rest) (lat_of first))
      as [Hmax_lat1 Hmax_lat].
    destruct (ExactFacts.py_min_from_le (map lon_of rest) (lon_of first))
      as [Hmin_lon1 Hmin_lon].
    destruct (ExactFacts.py_max_from_ge (map lon_of rest) (lon_of first))
      as [Hmax_lon1 Hmax_lon].
    split; [split; [apply ExactFacts.py_min_from_in | constructor; assumption]|].
    split; [split; [apply ExactFacts.py_max_from_in | constructor; assumption]|].
    split; [split; [apply ExactFacts.py_min_from_in | constructor; assumption]|].
    split; [split; [apply ExactFacts.py_max_from_in | constructor; assumption]|].
    destruct (ExactFacts.min2_cases scale_lat scale_lon) as (H1 & H2 & H3).
    split; [exact H3|]. split; [exact H1 | exact H2].
Qed.

(** ** Rounding *)

Lemma rne_dyadic_near (k : Z) (p : positive) :
  (0 <= k)%Z ->
  (Z.abs (2 * (B64.rne_dyadic k (Zneg p) * 2 ^ Zpos p - k)) <= 2 ^ Zpos p)%Z.
Proof.
  intros Hk. unfold B64.rne_dyadic. rewrite Z.pow_pos_fold.
  assert (Hd : (0 < 2 ^ Zpos p)%Z) by (apply Z.pow_pos_nonneg; lia).
  pose proof (Z.div_mod k (2 ^ Zpos p) ltac:(lia)) as Hdiv.
  pose proof (Z.mod_pos_bound k (2 ^ Zpos p) Hd) as Hmod.
  generalize dependent (k mod 2 ^ Zpos p)%Z.
  generalize dependent (k / 2 ^ Zpos p)%Z.
  generalize dependent (2 ^ Zpos p)%Z.
  intros d Hd q r Hdiv Hmod.
  destruct (Z.compare_spec (2 * r) d) as [H|H|H];
    [destruct (Z.even q)| |]; nia.
Qed.

(** C8. Entry [i] of a returned profile is the value of the accumulator
    after sample [i] rounded to two places, paired with the elevation of
    sample [i] rounded to an integer, in every arithmetic.  The roundings
    are to nearest: in exact arithmetic [round(x, 2)] is a whole number of
    hundredths within half a hundredth of [x] and [round(x)] an integer
    within one half of [x]; in binary64 [round(x)] of a finite [x] is the
    integer nearest to its exact value. *)
Theorem profile_rounds :
  (forall (F : PyFloat) (first : sample) (rest : list sample)
      (ns : list point) (pf : list entry),
      normalize_coordinates (first :: rest) = Ok (ns, pf) ->
      exists accs : list num,
        running (of_int 0) (lat_of first) (lon_of first) (first :: rest) accs
        /\ forall (i : nat) (d : num) (e : Z),
             nth_error pf i = Some (d, e) ->
             exists (acc : num) (p : sample),
               nth_error accs i = Some acc
               /\ nth_error (first :: rest) i = Some p
               /\ round2 acc = Ok d
               /\ round0 (ele_of p) = Ok e)
  /\ (forall x : R,
        @round2 Exact.Rexact x = Ok (IZR (Exact.rne (x * 100)) / 100)
        /\ - (1 / 200) <= IZR (Exact.rne (x * 100)) / 100 - x <= 1 / 200
        /\ @round0 Exact.Rexact x = Ok (Exact.rne x)
        /\ - (1 / 2) <= IZR (Exact.rne x) - x <= 1 / 2)%R
  /\ (forall (M : B64.Libm) (s : bool) (m : positive) (e : Z),
        @round0 (B64.binary64 M) (S754_finite s m e)
        = Ok (cond_Zopp s (B64.rne_dyadic (Zpos m) e))
        /\ (0 <= e -> B64.rne_dyadic (Zpos m) e = Zpos m * 2 ^ e)%Z
        /\ (forall p : positive, e = Zneg p ->
             Z.abs (2 * (B64.rne_dyadic (Zpos m) e * 2 ^ Zpos p - Zpos m))
             <= 2 ^ Zpos p)%Z).
Proof.
  split; [|split].
  - intros F first rest ns pf H.
    apply normalize_Ok in H as (sl & so & accs & _ & _ & Hrun & Hent & _).
    exists accs. split; [exact Hrun|].
    intros i d e Hi. eapply entries_nth_entry; eassumption.
  - intros x. split; [reflexivity|].
    split; [apply (ExactFacts.real_round2_near x)|].
    split; [reflexivity | apply ExactFacts.rne_near].
  - intros M s m e. split; [reflexivity|]. split.
    + intros He. destruct e as [|p|p]; [reflexivity | reflexivity | lia].
    + intros p ->. apply rne_dyadic_near. lia.
Qed.

(** ** Texts *)

Lemma append_empty_r (s : string) : (s ++ "")%string = s.
Proof. induction s as [|c s IH]; simpl; [reflexivity | rewrite IH; reflexivity]. Qed.

Lemma append_assoc3 (s t u : string) :
  ((s ++ t) ++ u)%string = (s ++ t ++ u)%string.
Proof. induction s as [|c s IH]; simpl; [reflexivity | rewrite IH; reflexivity]. Qed.

Lemma two_digits_length (k : Z) :
  (0 <= k < 100)%Z -> String.length (two_digits k) = 2%nat.
Proof.
  intros Hk.
  assert (Hm : exists m : nat, (m < 100)%nat /\ k = Z.of_nat m).
  { exists (Z.to_nat k). split; lia. }
  destruct Hm as (m & Hm & ->). clear Hk.
  do 100 (destruct m as [|m]; [reflexivity|]). lia.
Qed.

Lemma fixed2_two_places (negative : bool) (n : Z) : two_places (fixed2 negative n).
Proof.
  exists ((if negative then "-" else "") ++ dec (n / 100))%string,
         (two_digits (n mod 100)).
  split.
  - unfold fixed2. rewrite append_assoc3. reflexivity.
  - apply two_digits_length. apply Z.mod_pos_bound. lia.
Qed.

Section Path.
Context {F : PyFloat}.

Lemma join_line_tos (p : point) (rest : list point) :
  join " L " (map point_text (p :: rest))
  = (point_text p ++ line_tos rest)%string.
Proof.
  revert p. induction rest as [|q rest IH]; intros p.
  - simpl. rewrite append_empty_r. reflexivity.
  - change (join " L " (map point_text (p :: q :: rest)))
      with (point_text p ++ " L " ++ join " L " (map point_text (q :: rest)))%string.
    rewrite IH. reflexivity.
Qed.

End Path.

(** C9. For a non-empty list of points the path is a move-to command for
    the first point followed by one line-to command for every later point,
    in the order of the list and with none left out, each coordinate
    printed by the format [.2f]; that is the path in the file when the
    file can be written, and nothing is written otherwise.
    In binary64 (and in exact arithmetic) the format prints a finite
    coordinate with exactly two places, and the text read back as a
    decimal has the sign of the coordinate and the whole number of
    hundredths nearest to its magnitude. *)
Theorem path_moves_then_lines :
  (forall (F : PyFloat) (p : point) (rest : list point),
      path_data (p :: rest) = ("M " ++ point_text p ++ line_tos rest)%string
      /\ point_text p = (fmt2 (fst p) ++ "," ++ fmt2 (snd p))%string)
  /\ (forall (F : PyFloat) (writes : string -> string -> bool)
             (p : point) (rest : list point) (output_file : string),
        written (create_svg writes (p :: rest) output_file)
        = if writes output_file (svg_content (path_data (p :: rest)))
          then Some (svg_content (path_data (p :: rest)))
          else None)
  /\ (forall (M : B64.Libm) (x : B64.f64),
        B64.is_finite x = true ->
        two_places (@fmt2 (B64.binary64 M) x))
  /\ (forall x : R, two_places (@fmt2 Exact.Rexact x))
  /\ (forall (M : B64.Libm) (x : B64.f64),
        B64.is_finite x = true ->
        exists (negative : bool) (n : Z),
          read_fixed2 (@fmt2 (B64.binary64 M) x) = Some (negative, n)
          /\ (Rabs (IZR n - 100 * Rabs (Values.SF2R x)) <= 1 / 2)%R
          /\ (if negative then Values.SF2R x <= 0 else 0 <= Values.SF2R x)%R)
  /\ (forall x : R,
        exists (negative : bool) (n : Z),
          read_fixed2 (@fmt2 Exact.Rexact x) = Some (negative, n)
          /\ (Rabs (IZR n - 100 * Rabs x) <= 1 / 2)%R
          /\ (if negative then x <= 0 else 0 <= x)%R).
Proof.
  split; [|split; [|split; [|split; [|split]]]];
    [| | | | apply CoordinateFacts.fmt2_reads_binary64
     | apply CoordinateFacts.fmt2_reads_exact].
  - intros F p rest. split.
    + unfold path_data. rewrite join_line_tos. reflexivity.
    + reflexivity.
  - intros F writes p rest output_file. unfold create_svg.
    destruct (writes output_file (svg_content (path_data (p :: rest))));
      reflexivity.
  - intros M [s|s| |s m e] Hfin; try discriminate Hfin; simpl;
      apply fixed2_two_places.
  - intros x. simpl. apply fixed2_two_places.
Qed.

(** The path of the track [east] and its two-place coordinates. *)
Lemma path_moves_then_lines_witness :
  path_data (F := py64)
    [(B64.lit 20, B64.lit 580); (B64.lit 780.0000000000001, B64.lit 287.6923076923077)]
  = "M 20.00,580.00 L 780.00,287.69"%string
  /\ two_places (@fmt2 py64 (B64.lit 780.0000000000001))
  /\ exists (negative : bool) (n : Z),
       read_fixed2 (@fmt2 py64 (B64.lit 287.6923076923077)) = Some (negative, n)
       /\ (Rabs (IZR n - 100 * Rabs (Values.SF2R (B64.lit 287.6923076923077)))
           <= 1 / 2)%R
       /\ (if negative then Values.SF2R (B64.lit 287.6923076923077) <= 0
           else 0 <= Values.SF2R (B64.lit 287.6923076923077))%R.
Proof.
  split; [|split].
  - rewrite (proj1 (proj1 path_moves_then_lines py64 _ _)).
    vm_compute. reflexivity.
  - apply (proj1 (proj2 (proj2 path_moves_then_lines))). vm_compute. reflexivity.
  - apply (proj1 (proj2 (proj2 (proj2 (proj2 path_moves_then_lines))))).
    vm_compute. reflexivity.
Defined.

(** C6. A returned result has one drawing point and one profile entry per
    sample, entry [i] of each computed from sample [i]; this in every
    arithmetic.  In exact arithmetic a result is returned for every list
    of samples. *)
Theorem normalize_aligned :
  (forall (F : PyFloat) (points : list sample) (ns : list point) (pf : list entry),
      normalize_coordinates points = Ok (ns, pf) ->
      length ns = length points
      /\ length pf = length points
      /\ exists (min_lat min_lon scale : num) (accs : list num),
           forall (i : nat) (p : sample),
             nth_error points i = Some p ->
             nth_error ns i = Some (draw min_lat min_lon scale p)
             /\ exists (acc d : num) (e : Z),
                  nth_error accs i = Some acc
                  /\ nth_error pf i = Some (d, e)
                  /\ round2 acc = Ok d
                  /\ round0 (ele_of p) = Ok e)
  /\ (forall points : list (@sample Exact.Rexact),
        exists ns pf, normalize_coordinates points = Ok (ns, pf)).
Proof.
  split.
  - intros F [|first rest] ns pf H.
    + injection H as <- <-. repeat split.
      exists (of_int 0), (of_int 0), (of_int 0), [].
      intros [|i] p Hp; discriminate Hp.
    + apply normalize_Ok in H as (sl & so & accs & _ & _ & _ & Hent & ->).
      rewrite length_map. split; [reflexivity|].
      split; [apply (entries_length _ _ _ Hent)|].
      eexists _, _, _, accs. intros i p Hp. split.
      * apply map_nth_error. exact Hp.
      * eapply entries_nth; eassumption.
  - apply ExactFacts.normalize_total.
Qed.

(** The Paris scenario: two samples in, two points and two entries out. *)
Lemma normalize_aligned_witness :
  exists ns pf,
    normalize_coordinates (F := py64) Tracks.paris = Ok (ns, pf)
    /\ length ns = 2%nat /\ length pf = 2%nat.
Proof.
  eexists _, _. split; [vm_compute; reflexivity|].
  pose proof (proj1 normalize_aligned py64 Tracks.paris) as H.
  edestruct H as (Hn & Hp & _); [vm_compute; reflexivity|].
  split; [exact Hn | exact Hp].
Defined.

(** ** Metric facts, in exact arithmetic *)

Module Metric.
Import Exact ExactFacts.
Local Open Scope R_scope.
#[local] Existing Instance Rexact.

Lemma lat_between (first : sample) (rest : list sample) (p : sample) :
  In p (first :: rest) ->
  py_min_from (lat_of first) (map lat_of rest) <= lat_of p
  <= py_max_from (lat_of first) (map lat_of rest).
Proof.
  destruct (py_min_from_le (map lat_of rest) (lat_of first)) as [Hmin Hmins].
  destruct (py_max_from_ge (map lat_of rest) (lat_of first)) as [Hmax Hmaxs].
  rewrite Forall_forall in Hmins, Hmaxs.
  intros [<-|Hin]; [split; assumption|].
  apply (in_map lat_of) in Hin. split; [apply Hmins | apply Hmaxs]; exact Hin.
Qed.

Lemma lon_between (first : sample) (rest : list sample) (p : sample) :
  In p (first :: rest) ->
  py_min_from (lon_of first) (map lon_of rest) <= lon_of p
  <= py_max_from (lon_of first) (map lon_of rest).
Proof.
  destruct (py_min_from_le (map lon_of rest) (lon_of first)) as [Hmin Hmins].
  destruct (py_max_from_ge (map lon_of rest) (lon_of first)) as [Hmax Hmaxs].
  rewrite Forall_forall in Hmins, Hmaxs.
  intros [<-|Hin]; [split; assumption|].
  apply (in_map lon_of) in Hin. split; [apply Hmins | apply Hmaxs]; exact Hin.
Qed.

(** The scale is positive and no larger than either axis scale. *)
Lemma scale_bounds (lat_range lon_range : R) :
  let scale_lat :=
    if Rlt_dec 0 lat_range then IZR (height - 2 * margin) / lat_range else 1 in
  let scale_lon :=
    if Rlt_dec 0 lon_range then IZR (width - 2 * margin) / lon_range else 1 in
  0 < min2 scale_lat scale_lon <= scale_lat
  /\ 0 < min2 scale_lat scale_lon <= scale_lon.
Proof.
  intros scale_lat scale_lon.
  assert (Hlat : 0 < scale_lat) by (apply axis_scale_pos; reflexivity).
  assert (Hlon : 0 < scale_lon) by (apply axis_scale_pos; reflexivity).
  clearbody scale_lat scale_lon.
  destruct (min2_cases scale_lat scale_lon) as (H1 & H2 & [E|E]);
    rewrite E in *; repeat split; lra.
Qed.

Lemma draw_in_frame (min_lat max_lat min_lon max_lon : R) (p : sample) :
  let lat_range := max_lat - min_lat in
  let lon_range := max_lon - min_lon in
  let scale_lat :=
    if Rlt_dec 0 lat_range then IZR (height - 2 * margin) / lat_range else 1 in
  let scale_lon :=
    if Rlt_dec 0 lon_range then IZR (width - 2 * margin) / lon_range else 1 in
  min_lat <= lat_of p <= max_lat ->
  min_lon <= lon_of p <= max_lon ->
  in_frame (draw min_lat min_lon (min2 scale_lat scale_lon) p).
Proof.
  intros lat_range lon_range scale_lat scale_lon Hlat Hlon.
  destruct (scale_bounds lat_range lon_range) as [Hs1 Hs2].
  fold scale_lat scale_lon in Hs1, Hs2.
  assert (Hx : 0 <= (lon_of p - min_lon) * min2 scale_lat scale_lon
               <= IZR (width - 2 * margin)).
  { apply offset_fits with (range := lon_range);
      [reflexivity | exact Hs2 | unfold lon_range; lra]. }
  assert (Hy : 0 <= (lat_of p - min_lat) * min2 scale_lat scale_lon
               <= IZR (height - 2 * margin)).
  { apply offset_fits with (range := lat_range);
      [reflexivity | exact Hs1 | unfold lat_range; lra]. }
  unfold in_frame, draw. simpl fst. simpl snd.
  change (IZR (width - 2 * margin)) with 760 in Hx.
  change (IZR (height - 2 * margin)) with 560 in Hy.
  change (IZR (width - margin)) with 780.
  change (IZR (height - margin)) with 580.
  change (IZR margin) with 20.
  simpl. lra.
Qed.

(** In exact arithmetic, every drawing point of a non-empty list of
    samples has [margin <= x <= width - margin] and
    [margin <= y <= height - margin], also when a range is zero and the
    scale of that axis is 1.  (The bounds on the coordinates are those of
    the specification; the proof does not need them.) *)
Lemma frame_exact (points : list sample) :
  points <> [] ->
  Forall (fun p => -90 <= lat_of p <= 90 /\ -180 <= lon_of p <= 180) points ->
  exists ns pf,
    normalize_coordinates points = Ok (ns, pf) /\ Forall in_frame ns.
Proof.
  intros Hne _. destruct points as [|first rest]; [contradiction|].
  eexists _, _. split; [apply normalize_exact|].
  apply Forall_map, Forall_forall. intros p Hp.
  apply draw_in_frame; [apply lat_between | apply lon_between]; exact Hp.
Qed.

(** C2 as stated fails in binary64, on three tracks within the ranges.
    The second point of [east] has [x = 780.0000000000001], beyond
    [width - margin]; the second point of [north] has
    [y = 19.999999999999886], short of [margin]; and the ranges of [speck]
    are too small for their quotients, so that the scale is infinite and
    the drawing points are not numbers. *)
Lemma frame_overshoot_binary64 :
  (normalize_coordinates (F := py64) Tracks.east
   = Ok ([(B64.lit 20, B64.lit 580);
          (B64.lit 780.0000000000001, B64.lit 287.6923076923077)],
         [(B64.lit 0, 0%Z); (B64.lit 154.87, 0%Z)])
   /\ B64.fltb (B64.of_Z (width - margin)) (B64.lit 780.0000000000001) = true)
  /\ (normalize_coordinates (F := py64) Tracks.north
      = Ok ([(B64.lit 20, B64.lit 580);
             (B64.lit 76, B64.lit 19.999999999999886)],
            [(B64.lit 0, 0%Z); (B64.lit 1865.95, 0%Z)])
      /\ B64.fltb (B64.lit 19.999999999999886) (B64.of_Z margin) = true)
  /\ normalize_coordinates (F := py64) Tracks.speck
     = Ok ([(S754_nan, S754_nan); (S754_infinity false, S754_infinity true)],
           [(B64.lit 0, 0%Z); (B64.lit 0, 0%Z)])
  /\ forallb (fun p : @sample py64 =>
                SFleb (B64.lit (-90)) (lat_of p) && SFleb (lat_of p) (B64.lit 90)
                && SFleb (B64.lit (-180)) (lon_of p)
                && SFleb (lon_of p) (B64.lit 180))
       (Tracks.east ++ Tracks.north ++ Tracks.speck) = true.
Proof. repeat split; vm_compute; reflexivity. Qed.

(** The drawing points of [east] are these with every C library: the
    library only decides whether a result is returned. *)
Lemma east_points (M : B64.Libm)
  (ns : list (@point (B64.binary64 M))) (pf : list (@entry (B64.binary64 M))) :
  normalize_coordinates (F := B64.binary64 M) Tracks.east = Ok (ns, pf) ->
  ns = [(B64.lit 20, B64.lit 580);
        (B64.lit 780.0000000000001, B64.lit 287.6923076923077)].
Proof.
  intros H.
  apply (normalize_Ok (F := B64.binary64 M)) in H
    as (sl & so & accs & Hsl & Hso & _ & _ & ->).
  apply axis_scale_Ok in Hsl, Hso. subst sl so.
  vm_compute. reflexivity.
Qed.




(** The drawing points of [meridian] coincide with every C library. *)
Lemma meridian_points (M : B64.Libm)
  (ns : list (@point (B64.binary64 M))) (pf : list (@entry (B64.binary64 M))) :
  normalize_coordinates (F := B64.binary64 M) Tracks.meridian = Ok (ns, pf) ->
  ns = [(B64.lit 20, B64.lit 580); (B64.lit 20, B64.lit 580)].
Proof.
  intros H.
  apply (normalize_Ok (F := B64.binary64 M)) in H
    as (sl & so & accs & Hsl & Hso & _ & _ & ->).
  apply axis_scale_Ok in Hsl, Hso. subst sl so.
  vm_compute. reflexivity.
Qed.

(** In exact arithmetic the distances of the profile start at 0 (the
    first sample is its own previous sample) and never decrease. *)
Lemma distances_exact (points : list sample) :
  points <> [] ->
  exists ns pf,
    normalize_coordinates points = Ok (ns, pf)
    /\ (exists e : Z, nth_error pf 0 = Some (0, e))
    /\ StronglySorted Rle (map fst pf).
Proof.
  intros Hne. destruct points as [|first rest]; [contradiction|].
  eexists _, _. split; [apply normalize_exact|]. split.
  - exists (rne (ele_of first)). simpl. unfold profile_of. simpl.
    change (fst (fst first)) with (lat_of first).
    change (snd (fst first)) with (lon_of first).
    rewrite hav_same, Rplus_0_r, real_round2_0. reflexivity.
  - rewrite profile_of_distances by apply totals_length.
    apply map_round2_sorted, totals_sorted.
Qed.

Lemma py_min_from_same (x : R) : py_min_from x [x] = x.
Proof.
  unfold py_min_from. simpl. unfold Rltb. destruct (Rlt_dec x x); reflexivity.
Qed.

Lemma py_max_from_same (x : R) : py_max_from x [x] = x.
Proof.
  unfold py_max_from, gtb. simpl. unfold Rltb. destruct (Rlt_dec x x); reflexivity.
Qed.

Lemma same_place_exact (lat lon ele_1 ele_2 : R) :
  normalize_coordinates [(lat, lon, ele_1); (lat, lon, ele_2)]
  = Ok ([(IZR margin, IZR (height - margin)); (IZR margin, IZR (height - margin))],
        [(0, rne ele_1); (0, rne ele_2)]).
Proof.
  rewrite (normalize_exact (lat, lon, ele_1) [(lat, lon, ele_2)]).
  cbv zeta.
  cbn [map lat_of lon_of fst snd].
  rewrite !py_min_from_same, !py_max_from_same.
  destruct (Rlt_dec 0 (lat - lat)) as [H|_]; [lra|].
  destruct (Rlt_dec 0 (lon - lon)) as [H|_]; [lra|].
  assert (Hscale : min2 1 1 = 1).
  { unfold min2. simpl. unfold Rltb. destruct (Rlt_dec 1 1); reflexivity. }
  rewrite Hscale.
  unfold profile_of, draw, lat_of, lon_of. simpl.
  rewrite !hav_same, !Rplus_0_r, !real_round2_0.
  assert (Ex : forall a b : R, a + (b - b) * 1 = a) by (intros; ring).
  assert (Ey : forall a b : R, a - (b - b) * 1 = a) by (intros; ring).
  rewrite !Ex, !Ey. reflexivity.
Qed.

(** C5. No division by zero is ever made, in any arithmetic that keeps
    the laws, binary64 included.  Two samples at the same latitude and
    longitude, whatever their elevations, are drawn at the same point with
    both distances 0.0 and nothing raised: in binary64 for finite samples
    and every C library that keeps zero and gives the latitude a cosine of
    finite square, and in exact arithmetic, where nothing is raised on any
    input. *)
Theorem degenerate_collapse :
  (forall (F : PyFloat) (L : PyLaws F) (points : list sample),
      normalize_coordinates points <> Raise ZeroDivisionError)
  /\ (forall (M : B64.Libm) (lat lon ele_1 ele_2 : B64.f64),
        B64.c_sin M (S754_zero false) = S754_zero false ->
        B64.c_asin M (S754_zero false) = S754_zero false ->
        B64.is_finite lat = true ->
        B64.is_finite lon = true ->
        B64.is_finite ele_1 = true ->
        B64.is_finite ele_2 = true ->
        B64.is_finite (B64.fmul (B64.c_cos M (B64.fradians lat))
                                (B64.c_cos M (B64.fradians lat))) = true ->
        exists n_1 n_2 : Z,
          normalize_coordinates (F := B64.binary64 M)
            [(lat, lon, ele_1); (lat, lon, ele_2)]
          = Ok ([(B64.of_Z margin, B64.of_Z (height - margin));
                 (B64.of_Z margin, B64.of_Z (height - margin))],
                [(S754_zero false, n_1); (S754_zero false, n_2)]))
  /\ (forall points : list sample,
        exists ns pf, normalize_coordinates (F := Rexact) points = Ok (ns, pf))
  /\ (forall lat lon ele_1 ele_2 : R,
        normalize_coordinates [(lat, lon, ele_1); (lat, lon, ele_2)]
        = Ok ([(IZR margin, IZR (height - margin));
               (IZR margin, IZR (height - margin))],
              [(0, rne ele_1); (0, rne ele_2)])).
Proof.
  split; [|split; [|split]].
  - intros F L points. apply normalize_no_zero_division.
  - intros M lat lon ele_1 ele_2 Hsin Hasin Hlat Hlon He1 He2 Hcos.
    exact (Binary64Facts.same_place_binary64 M Hsin Hasin lat lon ele_1 ele_2
             Hlat Hlon He1 He2 Hcos).
  - apply normalize_total.
  - apply same_place_exact.
Qed.

Lemma degenerate_collapse_witness :
  normalize_coordinates (F := py64) Tracks.summit <> Raise ZeroDivisionError
  /\ (exists n_1 n_2 : Z,
        normalize_coordinates (F := py64) Tracks.summit
        = Ok ([(B64.of_Z margin, B64.of_Z (height - margin));
               (B64.of_Z margin, B64.of_Z (height - margin))],
              [(S754_zero false, n_1); (S754_zero false, n_2)]))
  /\ normalize_coordinates [(45, 6, 4805); (45, 6, 4808)]
     = Ok ([(IZR margin, IZR (height - margin));
            (IZR margin, IZR (height - margin))],
           [(0, rne 4805); (0, rne 4808)]).
Proof.
  split; [|split].
  - apply (proj1 degenerate_collapse py64 (binary64_laws B64.series_libm)).
  - apply (proj1 (proj2 degenerate_collapse) B64.series_libm);
      vm_compute; reflexivity.
  - apply (proj2 (proj2 (proj2 degenerate_collapse))).
Defined.

End Metric.

(** ** Metric claims, in binary64 and in exact arithmetic *)

(** C2, amended. Every drawing point of a non-empty list of samples with
    latitudes in [-90, 90] and longitudes in [-180, 180] is in the frame up
    to the rounding of binary64: when the scale is finite,
    [margin <= x <= 780.0000000000001] and
    [19.999999999999886 <= y <= height - margin], also when a range is
    zero and the scale of that axis is 1; the two constants are
    [width - margin + 2^-43] and [margin - 2^-43], one unit in the last
    place of the extents beyond the frame at the right and at the top.
    In exact arithmetic the bounds are those of the frame. *)
Theorem frame_with_rounding :
  (forall (M : B64.Libm) (first : @sample (B64.binary64 M))
      (rest : list (@sample (B64.binary64 M)))
      (ns : list (@point (B64.binary64 M))) (pf : list (@entry (B64.binary64 M))),
      let points := first :: rest in
      let min_lat := py_min_from (lat_of first) (map lat_of rest) in
      let max_lat := py_max_from (lat_of first) (map lat_of rest) in
      let min_lon := py_min_from (lon_of first) (map lon_of rest) in
      let max_lon := py_max_from (lon_of first) (map lon_of rest) in
      let lat_range := sub max_lat min_lat in
      let lon_range := sub max_lon min_lon in
      let scale_lat :=
        if gtb lat_range (of_int 0)
        then div (of_int (height - 2 * margin)) lat_range else of_int 1 in
      let scale_lon :=
        if gtb lon_range (of_int 0)
        then div (of_int (width - 2 * margin)) lon_range else of_int 1 in
      let scale := min2 scale_lat scale_lon in
      Forall (fun p : @sample (B64.binary64 M) =>
                Values.bounded (-90) 90 (lat_of p)
                /\ Values.bounded (-180) 180 (lon_of p)) points ->
      B64.is_finite scale = true ->
      normalize_coordinates points = Ok (ns, pf) ->
      Forall Values.in_frame64 ns)
  /\ (Values.SF2R (B64.lit 780.0000000000001)
      = IZR (width - margin) + Values.bpow (-43)
      /\ Values.SF2R (B64.lit 19.999999999999886)
         = IZR margin - Values.bpow (-43))%R
  /\ (forall points : list (@sample Exact.Rexact),
        points <> [] ->
        Forall (fun p : @sample Exact.Rexact =>
                  -90 <= lat_of p <= 90 /\ -180 <= lon_of p <= 180)%R points ->
        exists ns pf,
          normalize_coordinates points = Ok (ns, pf) /\ Forall Exact.in_frame ns).
Proof.
  split; [|split].
  - intros M first rest ns pf. exact (FrameFacts.frame_binary64 M first rest ns pf).
  - split; [apply FrameFacts.right_780 | apply FrameFacts.above_20].
  - exact Metric.frame_exact.
Qed.

(** The track [east] in binary64, and the same place in exact arithmetic. *)
Lemma frame_with_rounding_witness :
  Forall Values.in_frame64
    [(B64.lit 20, B64.lit 580);
     (B64.lit 780.0000000000001, B64.lit 287.6923076923077)]
  /\ (exists ns pf,
        normalize_coordinates (F := Exact.Rexact)
          [(0, 0, 0); (1 / 2, 13 / 10, 0)]%R = Ok (ns, pf)
        /\ Forall Exact.in_frame ns).
Proof.
  split.
  - apply (proj1 frame_with_rounding B64.series_libm
             (B64.lit 0, B64.lit 0, B64.lit 0)
             [(B64.lit 0.5, B64.lit 1.3, B64.lit 0)]
             _ [(B64.lit 0, 0%Z); (B64.lit 154.87, 0%Z)]).
    + repeat constructor.
    + vm_compute. reflexivity.
    + vm_compute. reflexivity.
  - apply (proj2 (proj2 frame_with_rounding)); [discriminate|].
    apply Forall_cons; [unfold lat_of, lon_of; simpl; lra|].
    apply Forall_cons; [unfold lat_of, lon_of; simpl; lra|].
    apply Forall_nil.
Defined.

(** C3. For a non-empty list of samples with latitudes in [-90, 90], the
    distances of the profile start at 0.0 (the first sample is its own
    previous sample) and never decrease.  In exact arithmetic, where a
    result is always returned and the bound on the latitudes is not
    needed; and in binary64 for every returned profile, when the
    longitudes are finite and the results of the C library are in the
    ranges of its functions ([Values.in_range]): the first distance is
    [+0.0] and every distance is [<=] every later one. *)
Theorem distances_monotone :
  (forall points : list (@sample Exact.Rexact),
      points <> [] ->
      Forall (fun p : @sample Exact.Rexact => -90 <= lat_of p <= 90)%R points ->
      exists ns pf,
        normalize_coordinates points = Ok (ns, pf)
        /\ (exists e : Z, nth_error pf 0 = Some (0%R, e))
        /\ StronglySorted Rle (map fst pf))
  /\ (forall (M : B64.Libm) (points : list (@sample (B64.binary64 M)))
        (ns : list (@point (B64.binary64 M))) (pf : list (@entry (B64.binary64 M))),
        Values.in_range M ->
        points <> [] ->
        Forall (fun p : @sample (B64.binary64 M) =>
                  Values.bounded (-90) 90 (lat_of p) /\ Values.fine (lon_of p))
          points ->
        normalize_coordinates points = Ok (ns, pf) ->
        (exists n : Z, nth_error pf 0 = Some (S754_zero false, n))
        /\ StronglySorted (fun a b : B64.f64 => SFleb a b = true) (map fst pf)).
Proof.
  split.
  - intros points Hne _. apply Metric.distances_exact, Hne.
  - intros M points ns pf HM Hne Hall H.
    apply (DistanceFacts.distances_sorted_binary64 M points ns pf HM Hne); [|exact H].
    eapply Forall_impl; [|exact Hall].
    intros p [(Hv & H1 & H2) [Hvl Hfl]].
    split; [exact Hv|]. split; [exact (DistanceFacts.latitude_finite _ H1 H2)|].
    split; assumption.
Qed.

(** Three samples in exact arithmetic, and the Paris scenario in binary64
    with the series library under the range check. *)
Lemma distances_monotone_witness :
  (exists ns pf,
      normalize_coordinates (F := Exact.Rexact)
        [(48, 2, 35); (48 + 1 / 100, 2 + 1 / 100, 40); (49, 3, 38)]%R
      = Ok (ns, pf)
      /\ (exists e : Z, nth_error pf 0 = Some (0%R, e))
      /\ StronglySorted Rle (map fst pf))
  /\ ((exists n : Z, nth_error Tracks.paris_profile 0 = Some (S754_zero false, n))
      /\ StronglySorted (fun a b : B64.f64 => SFleb a b = true)
           (map fst Tracks.paris_profile)).
Proof.
  split.
  - apply (proj1 distances_monotone); [discriminate|].
    apply Forall_cons; [unfold lat_of; simpl; lra|].
    apply Forall_cons; [unfold lat_of; simpl; lra|].
    apply Forall_cons; [unfold lat_of; simpl; lra|].
    apply Forall_nil.
  - apply (proj2 distances_monotone (Values.checked B64.series_libm)
             Tracks.paris Tracks.paris_points Tracks.paris_profile).
    + exact DistanceFacts.series_in_range.
    + discriminate.
    + repeat constructor.
    + vm_compute. reflexivity.
Defined.

(** ** Runs in binary64 *)

Module Runs.
Import B64 Tracks.

(** The scenario of the specification: the second point is drawn to the
    right of and above the first, 0.07 km further. *)
Lemma paris_run :
  normalize_coordinates (F := py64) paris = Ok (paris_points, paris_profile).
Proof. vm_compute. reflexivity. Qed.

Lemma paris_path :
  path_data (F := py64) paris_points = "M 20.00,580.00 L 780.00,200.00"%string.
Proof. vm_compute. reflexivity. Qed.

(** Two samples at one place: the points coincide and both distances are
    0.0, with no exception. *)
Lemma summit_run :
  normalize_coordinates (F := py64) summit
  = Ok ([(lit 20, lit 580); (lit 20, lit 580)],
        [(lit 0, 4806%Z); (lit 0, 4808%Z)]).
Proof. vm_compute. reflexivity. Qed.

(** Ranges too small for their quotient: the scale overflows to infinity
    and the drawing points are not numbers. *)
Lemma speck_run :
  normalize_coordinates (F := py64) speck
  = Ok ([(S754_nan, S754_nan); (S754_infinity false, S754_infinity true)],
        [(lit 0, 0%Z); (lit 0, 0%Z)]).
Proof. vm_compute. reflexivity. Qed.

(** The roundings and the format on values whose Python results are
    well known. *)
Lemma round2_runs :
  map float_round2
    [lit 2.675; lit 1.005; lit 0.125; lit 0.375; lit (-0.001); lit 154.8749;
     lit 1e22]
  = map Ok [lit 2.67; lit 1; lit 0.12; lit 0.38; lit (-0); lit 154.87; lit 1e22].
Proof. vm_compute. reflexivity. Qed.

Lemma round0_runs :
  map float_round0 [lit 2.5; lit 3.5; lit (-0.5); lit 1.5; lit 4805.59; lit (-2.5)]
  = map Ok [2; 4; 0; 2; 4806; -2]%Z
  /\ float_round0 S754_nan = Raise ValueError
  /\ float_round0 (S754_infinity false) = Raise OverflowError.
Proof. repeat split; vm_compute; reflexivity. Qed.

Lemma fmt2_runs :
  map float_fmt2
    [lit 2.675; lit 0.125; lit (-0.001); lit 780.0000000000001; lit 0.995;
     lit 1234.5; S754_nan; S754_infinity true]
  = ["2.67"; "0.12"; "-0.00"; "780.00"; "0.99"; "1234.50"; "nan"; "-inf"]%string.
Proof. vm_compute. reflexivity. Qed.

Lemma normalize_draws_witness :
  normalize_coordinates (F := py64) paris = Ok (paris_points, paris_profile)
  /\ nth_error paris_points 1 = Some (lit 780, lit 200.00000000105473)
  /\ In (py_min_from (F := py64) (lit 48.8566) [lit 48.8570])
        [lit 48.8566; lit 48.8570]
  /\ Forall (fun v => fltb v (py_min_from (F := py64) (lit 48.8566) [lit 48.8570])
                      = false)
        [lit 48.8566; lit 48.8570].
Proof.
  split; [exact paris_run|]. split.
  - rewrite (proj1 normalize_draws py64 _ _ _ _ paris_run 1 _ eq_refl).
    vm_compute. reflexivity.
  - refine (proj1 (proj1 (proj2 (proj2 normalize_draws)) series_libm
                     (lit 48.8566, lit 2.3522, lit 35)
                     [(lit 48.8570, lit 2.3530, lit 40)] _)).
    repeat constructor.
Defined.

Lemma profile_rounds_witness :
  exists accs : list f64,
    running (F := py64) (of_Z 0) (lit 48.8566) (lit 2.3522) paris accs
    /\ forall (i : nat) (d : f64) (e : Z),
         nth_error paris_profile i = Some (d, e) ->
         exists (acc : f64) (p : @sample py64),
           nth_error accs i = Some acc
           /\ nth_error paris i = Some p
           /\ float_round2 acc = Ok d
           /\ float_round0 (ele_of p) = Ok e.
Proof. exact (proj1 profile_rounds py64 _ _ _ _ paris_run). Defined.

Lemma elevations_framed_witness :
  normalize_coordinates (F := py64) paris_climb
  = Ok (paris_points, combine (map fst paris_profile) [100%Z; 250%Z])
  /\ map fst (combine (map fst paris_profile) [100%Z; 250%Z])
     = map fst paris_profile.
Proof.
  apply (elevations_framed (F := py64) paris paris_climb).
  - vm_compute. reflexivity.
  - exact paris_run.
  - apply Forall2_cons; [vm_compute; reflexivity|].
    apply Forall2_cons; [vm_compute; reflexivity|].
    apply Forall2_nil.
Defined.

End Runs.


(** * The rest of the script *)

(** ** Strings *)

Lemma length_append (a b : string) :
  String.length (a ++ b) = (String.length a + String.length b)%nat.
Proof. induction a as [|c a IH]; simpl; [reflexivity | rewrite IH; reflexivity]. Qed.

Lemma substring_whole (s : string) (m : nat) :
  (String.length s <= m)%nat -> substring 0 m s = s.
Proof.
  revert m. induction s as [|c s IH]; intros [|m] H; simpl in *; try reflexivity.
  - lia.
  - rewrite IH by lia. reflexivity.
Qed.

Lemma substring_after (pre suf : string) :
  substring (String.length pre) (String.length suf) (pre ++ suf) = suf.
Proof.
  induction pre as [|c pre IH]; simpl.
  - apply substring_whole. lia.
  - exact IH.
Qed.

Lemma substring_tail (s : string) :
  forall n m : nat,
    (String.length s <= n + m)%nat -> exists pre, s = (pre ++ substring n m s)%string.
Proof.
  induction s as [|c s IH]; intros n m H.
  - exists EmptyString. destruct n, m; reflexivity.
  - destruct n as [|n].
    + exists EmptyString. rewrite substring_whole by (simpl in *; lia). reflexivity.
    + simpl in H. destruct (IH n m ltac:(lia)) as [pre Hpre].
      exists (String c pre). simpl. rewrite <- Hpre. reflexivity.
Qed.

Lemma py_suffix_ends (suffix s : string) :
  py_suffix (String.length suffix) s = suffix
  <-> exists pre, s = (pre ++ suffix)%string.
Proof.
  unfold py_suffix. split.
  - intros H.
    destruct (substring_tail s (String.length s - String.length suffix)
                (String.length suffix) ltac:(lia)) as [pre Hpre].
    exists pre. rewrite H in Hpre. exact Hpre.
  - intros [pre ->]. rewrite length_append.
    replace (String.length pre + String.length suffix - String.length suffix)%nat
      with (String.length pre) by lia.
    apply substring_after.
Qed.

Lemma wildcard_match_iff (name el_tag : string) :
  wildcard_match name el_tag = true
  <-> el_tag = name \/ exists pre, el_tag = (pre ++ "}" ++ name)%string.
Proof.
  unfold wildcard_match. rewrite orb_true_iff, !String.eqb_eq, py_suffix_ends.
  reflexivity.
Qed.

(** ** The document *)

Lemma element_nested_ind (P : element -> Prop) :
  (forall tag attrib text children,
      Forall P children -> P (Element tag attrib text children)) ->
  forall el, P el.
Proof.
  intros step. fix IH 1. intros [tag attrib text children].
  apply step. induction children as [|c children IHc]; constructor.
  - apply IH.
  - exact IHc.
Qed.

Lemma in_iter (el e : element) : In e (iter el) <-> e = el \/ inside e el.
Proof.
  revert e. induction el as [tag attrib text children IH] using element_nested_ind.
  intros e. simpl. rewrite in_flat_map. rewrite Forall_forall in IH. split.
  - intros [<-|(c & Hc & He)]; [left; reflexivity|right].
    apply IH in He; [|exact Hc]. destruct He as [->|He].
    + apply inside_child. exact Hc.
    + apply inside_deeper with c; assumption.
  - intros [->|He]; [left; reflexivity|right].
    inversion He as [e' r Hc|e' c r Hc Hin]; subst; simpl in Hc.
    + exists e. split; [exact Hc|]. apply IH; [exact Hc|]. left. reflexivity.
    + exists c. split; [exact Hc|]. apply IH; [exact Hc|]. right. exact Hin.
Qed.

Lemma in_below (el e : element) : In e (below el) <-> inside e el.
Proof.
  unfold below. rewrite in_flat_map. split.
  - intros (c & Hc & He). apply in_iter in He as [->|He].
    + apply inside_child. exact Hc.
    + apply inside_deeper with c; assumption.
  - intros He. inversion He as [e' r Hc|e' c r Hc Hin]; subst.
    + exists e. split; [exact Hc|]. apply in_iter. left. reflexivity.
    + exists c. split; [exact Hc|]. apply in_iter. right. exact Hin.
Qed.

(** X1. [findall(".//{*}name")] selects exactly the elements strictly
    inside the element, at any depth, whose tag is [name] or ends with
    ["}name"]: any namespace or none, and never the element itself. *)
Theorem findall_below_iff (name : string) (root e : element) :
  In e (findall_below name root)
  <-> inside e root
      /\ (tag_of e = name \/ exists pre, tag_of e = (pre ++ "}" ++ name)%string).
Proof.
  unfold findall_below. rewrite filter_In, in_below, wildcard_match_iff.
  reflexivity.
Qed.

(** ** [parse_gpx] *)

Section ParseFacts.
Context {F : PyFloat}.
Variable float_of_str : string -> result num.

Lemma and_then_Return {A B : Type} (c : outcome A) (k : A -> outcome B) (b : B) :
  and_then c k = Return b <-> exists a, c = Return a /\ k a = Return b.
Proof.
  destruct c as [a|f]; simpl; split.
  - intros H. exists a. split; [reflexivity | exact H].
  - intros (a' & Ha & H). injection Ha as ->. exact H.
  - discriminate.
  - intros (a' & Ha & _). discriminate Ha.
Qed.

Lemma float_arg_Return (v : option string) (x : num) :
  float_arg float_of_str v = Return x
  <-> exists text, v = Some text /\ float_of_str text = Ok x.
Proof.
  unfold float_arg, lift. destruct v as [text|]; split.
  - destruct (float_of_str text) as [y|e] eqn:E; intros H; [|discriminate H].
    injection H as ->. exists text. split; [reflexivity | exact E].
  - intros (t & [= <-] & ->). reflexivity.
  - discriminate.
  - intros (t & Ht & _). discriminate Ht.
Qed.

Lemma read_point_reads (el : element) (p : sample) :
  read_point float_of_str el = Return p <-> reads float_of_str el p.
Proof.
  unfold read_point, reads. rewrite and_then_Return. split.
  - intros (lat & Hlat & H). apply and_then_Return in H as (lon & Hlon & H).
    apply and_then_Return in H as (ele & Hele & H). injection H as <-.
    apply float_arg_Return in Hlat, Hlon. simpl.
    split; [exact Hlat|]. split; [exact Hlon|].
    destruct (find_child "ele" el) as [ele_tag|].
    + apply float_arg_Return in Hele. exact Hele.
    + injection Hele as <-. reflexivity.
  - destruct p as [[lat lon] ele]. simpl. intros (Hlat & Hlon & Hele).
    apply float_arg_Return in Hlat, Hlon.
    exists lat. split; [exact Hlat|]. rewrite Hlon. simpl.
    destruct (find_child "ele" el) as [ele_tag|].
    + apply float_arg_Return in Hele. rewrite Hele. reflexivity.
    + rewrite Hele. reflexivity.
Qed.

Lemma read_points_Return (els : list element) :
  forall points result : list sample,
    read_points float_of_str els points = Return result
    <-> exists new, result = points ++ new
                    /\ Forall2 (reads float_of_str) els new.
Proof.
  induction els as [|el els IH]; intros points result; simpl.
  - split.
    + intros [= <-]. exists []. rewrite app_nil_r. split; constructor.
    + intros (new & -> & H). inversion H. rewrite app_nil_r. reflexivity.
  - rewrite and_then_Return. split.
    + intros (p & Hp & H). apply IH in H as (new & -> & Hnew).
      exists (p :: new). rewrite <- app_assoc. split; [reflexivity|].
      constructor; [apply read_point_reads; exact Hp | exact Hnew].
    + intros (new & -> & H). inversion H as [|el' p els' new' Hp Hrest]; subst.
      exists p. split; [apply read_point_reads; exact Hp|].
      apply IH. exists new'. rewrite <- app_assoc. split; [reflexivity | exact Hrest].
Qed.

Lemma read_all_Return (els : list element) (result : list sample) :
  read_points float_of_str els [] = Return result
  <-> Forall2 (reads float_of_str) els result.
Proof.
  rewrite read_points_Return. split.
  - intros (new & -> & H). exact H.
  - intros H. exists result. split; [reflexivity | exact H].
Qed.

(** The three loops of [parse_gpx] read the elements of one category. *)
Lemma parse_gpx_point_elements (root : element) :
  parse_gpx float_of_str root
  = read_points float_of_str (point_elements root) [].
Proof.
  assert (Hne : forall el els,
             match read_points float_of_str (el :: els) [] with
             | Return [] => False
             | _ => True
             end).
  { intros el els.
    destruct (read_points float_of_str (el :: els) []) as [[|p ps]|f] eqn:E;
      try exact I.
    apply read_all_Return in E. inversion E. }
  unfold parse_gpx, point_elements.
  destruct (findall_below "trkpt" root) as [|trkpt trkpts].
  - simpl and_then at 1.
    destruct (findall_below "rtept" root) as [|rtept rtepts].
    + simpl and_then at 1.
      destruct (read_points float_of_str (findall_below "wpt" root) []);
        reflexivity.
    + pose proof (Hne rtept rtepts) as H.
      destruct (read_points float_of_str (rtept :: rtepts) []) as [[|p ps]|f];
        [contradiction | reflexivity | reflexivity].
  - pose proof (Hne trkpt trkpts) as H.
    destruct (read_points float_of_str (trkpt :: trkpts) []) as [[|p ps]|f];
      [contradiction | reflexivity | reflexivity].
Qed.

(** X2. [parse_gpx] returns a list exactly when every element of the
    first non-empty category (track points, else route points, else
    waypoints) carries [lat] and [lon] attributes that [float] reads and,
    if it has an [ele] child, a text that [float] reads; the list then has
    one sample per element, in document order, with elevation 0.0 where
    there is no [ele] child.  The other categories are not looked at. *)
Theorem parse_gpx_reads (root : element) (points : list sample) :
  parse_gpx float_of_str root = Return points
  <-> Forall2 (reads float_of_str) (point_elements root) points.
Proof.
  rewrite parse_gpx_point_elements. apply read_all_Return.
Qed.

(** X3. The list [parse_gpx] returns is empty exactly when the document
    has no track point, no route point and no waypoint. *)
Theorem parse_gpx_empty (root : element) :
  parse_gpx float_of_str root = Return []
  <-> findall_below "trkpt" root = []
      /\ findall_below "rtept" root = []
      /\ findall_below "wpt" root = [].
Proof.
  rewrite parse_gpx_point_elements, read_all_Return.
  unfold point_elements. split.
  - intros H. inversion H as [Hels|]. 
    destruct (findall_below "trkpt" root); [|discriminate Hels].
    destruct (findall_below "rtept" root); [|discriminate Hels].
    repeat split. symmetry. exact Hels.
  - intros (-> & -> & ->). constructor.
Qed.

(** X4. One point element without [lat] or [lon], or with an empty [ele]
    child, makes [parse_gpx] raise: no sample of the file is returned. *)
Theorem parse_gpx_aborts (root el : element) :
  In el (point_elements root) ->
  get "lat" (attrib_of el) = None
  \/ get "lon" (attrib_of el) = None
  \/ (exists ele_tag, find_child "ele" el = Some ele_tag
                      /\ text_of ele_tag = None) ->
  exists f, parse_gpx float_of_str root = Uncaught f.
Proof.
  intros Hin Hbad.
  destruct (parse_gpx float_of_str root) as [points|f] eqn:E; [|eauto].
  exfalso. rewrite parse_gpx_point_elements in E. apply read_all_Return in E.
  assert (Hp : exists p, reads float_of_str el p).
  { clear - Hin E. induction E as [|el' p els ps Hr E IH]; [contradiction|].
    destruct Hin as [->|Hin]; [eauto | apply IH; exact Hin]. }
  destruct Hp as (p & (tlat & Hlat & _) & (tlon & Hlon & _) & Hele).
  destruct Hbad as [H|[H|(ele_tag & Hfind & Htext)]]; try congruence.
  rewrite Hfind in Hele. destruct Hele as (text & Ht & _). congruence.
Qed.

End ParseFacts.

(** ** [main] *)

Lemma prefix_length (old s : string) :
  prefix old s = true -> (String.length old <= String.length s)%nat.
Proof.
  revert s. induction old as [|c old IH]; intros [|d s] H; simpl in *; try lia.
  - destruct (ascii_dec c d); [|discriminate H]. apply IH in H. lia.
Qed.

Lemma prefix_refl (s : string) : prefix s s = true.
Proof.
  induction s as [|c s IH]; simpl; [reflexivity|].
  destruct (ascii_dec c c); [exact IH | contradiction].
Qed.

Lemma replace_from_skipped (old new s : string) :
  forall skip : nat,
    (String.length s <= skip)%nat -> replace_from old new s skip = EmptyString.
Proof.
  induction s as [|c s IH]; intros [|skip] H; simpl in *; try reflexivity; try lia.
  apply IH. lia.
Qed.

Lemma py_find_cons (old : string) (c : ascii) (s : string) :
  py_find old (String c s)
  = if prefix old (String c s) then Some O else option_map S (py_find old s).
Proof. reflexivity. Qed.

(** Nothing to replace: the string comes back. *)
Lemma replace_from_absent (old new s : string) :
  py_find old s = None -> replace_from old new s 0 = s.
Proof.
  induction s as [|c s IH]; intros H; [reflexivity|].
  rewrite py_find_cons in H. cbn [replace_from].
  destruct (prefix old (String c s)); [discriminate H|].
  destruct (py_find old s); [discriminate H|].
  rewrite IH by reflexivity. reflexivity.
Qed.

(** One occurrence, at the end. *)
Lemma replace_from_last (old new base : string) :
  old <> EmptyString ->
  py_find old (base ++ old) = Some (String.length base) ->
  replace_from old new (base ++ old) 0 = (base ++ new)%string.
Proof.
  intros Hold. induction base as [|c base IH]; intros H.
  - simpl. destruct old as [|c old]; [contradiction|].
    cbn [replace_from]. rewrite prefix_refl.
    rewrite replace_from_skipped by (simpl; lia).
    apply append_empty_r.
  - change (String c base ++ old)%string with (String c (base ++ old)) in *.
    rewrite py_find_cons in H. cbn [replace_from].
    destruct (prefix old (String c (base ++ old))); [discriminate H|].
    destruct (py_find old (base ++ old)) as [n|]; [|discriminate H].
    simpl in H. injection H as ->.
    rewrite IH by reflexivity. reflexivity.
Qed.

Section MainFacts.
Context {F : PyFloat}.
Variable float_of_str : string -> result num.
Variable path_exists : string -> bool.
Variable et_parse : string -> option element.
Variable writes : string -> string -> bool.

Abbreviation run := (main float_of_str path_exists et_parse writes).


(** The name under which a drawing is written. *)
Lemma main_drawing_path (argv : list string) (path content : string) :
  drawing (run argv) = Some (path, content) ->
  exists prog gpx_file more,
    argv = prog :: gpx_file :: more /\ path = output_name gpx_file more.
Proof.
  unfold main.
  destruct argv as [|prog [|gpx_file more]]; try discriminate.
  destruct (path_exists gpx_file); simpl; [|discriminate].
  destruct (et_parse gpx_file) as [root|]; [|discriminate].
  destruct (parse_gpx float_of_str root) as [[|p points]|f]; try discriminate.
  destruct (normalize_coordinates (p :: points)) as [[[|n ns] pf]|e];
    try discriminate.
  unfold create_svg.
  destruct (writes _ _); simpl; [|discriminate].
  intros [= <- _]. exists prog, gpx_file, more. split; reflexivity.
Qed.



(** X7. Without an output name, an input name that holds no [".gpx"]
    (another case, another extension) is kept as the output name: the
    drawing is written over the input file. *)
Theorem main_overwrites_input (prog gpx_file path content : string) :
  py_find ".gpx" gpx_file = None ->
  drawing (run [prog; gpx_file]) = Some (path, content) ->
  path = gpx_file.
Proof.
  intros Hfind H.
  apply main_drawing_path in H as (prog' & gpx' & more & [= <- <- <-] & ->).
  unfold output_name, py_replace. apply replace_from_absent. exact Hfind.
Qed.

(** X8. An output name given on the command line is used as it is;
    without one, an input name whose only [".gpx"] is at its end gets
    [".svg"] in its place. *)
Theorem main_output_name (prog : string) :
  (forall (gpx_file name : string) (rest : list string) (path content : string),
      drawing (run (prog :: gpx_file :: name :: rest)) = Some (path, content) ->
      path = name)
  /\ (forall base path content : string,
        py_find ".gpx" (base ++ ".gpx") = Some (String.length base) ->
        drawing (run [prog; (base ++ ".gpx")%string]) = Some (path, content) ->
        path = (base ++ ".svg")%string).
Proof.
  split.
  - intros gpx_file name rest path content H.
    apply main_drawing_path in H as (prog' & gpx' & more' & [= <- <- <-] & ->).
    reflexivity.
  - intros base path content Hfind H.
    apply main_drawing_path in H as (prog' & gpx' & more' & [= <- <- <-] & ->).
    unfold output_name, py_replace.
    apply replace_from_last; [discriminate | exact Hfind].
Qed.

(** X9. [main] completes only after writing a drawing, and the count it
    then prints is the number of point elements of the category it read:
    no sample is dropped or added between the file and the drawing. *)
Theorem main_reports (argv : list string) :
  status (run argv) = Completed ->
  exists gpx_file root path content,
    nth_error argv 1 = Some gpx_file
    /\ et_parse gpx_file = Some root
    /\ drawing (run argv) = Some (path, content)
    /\ stdout (run argv)
       = [("SVG créé avec succès: " ++ path)%string;
          ("Nombre de points: "
           ++ dec (Z.of_nat (length (point_elements root))))%string].
Proof.
  unfold main.
  destruct argv as [|prog [|gpx_file more]]; try discriminate.
  destruct (path_exists gpx_file); simpl; [|discriminate].
  destruct (et_parse gpx_file) as [root|] eqn:Hroot; [|discriminate].
  destruct (parse_gpx float_of_str root) as [[|p points]|f] eqn:Hparse;
    try discriminate.
  destruct (normalize_coordinates (p :: points)) as [[ns pf]|e] eqn:Hnorm;
    [|discriminate].
  rewrite parse_gpx_point_elements in Hparse.
  apply read_all_Return, Forall2_length in Hparse.
  apply normalize_Ok in Hnorm as (sl & so & accs & _ & _ & _ & _ & ->).
  cbn [map create_svg]. destruct (writes _ _); cbn [os_error]; [|discriminate].
  intros _.
  exists gpx_file, root, (output_name gpx_file more).
  eexists. split; [reflexivity|]. split; [exact Hroot|].
  cbn [written printed option_map].
  split; [reflexivity|].
  rewrite Hparse. cbn [length]. rewrite length_map. reflexivity.
Qed.


End MainFacts.


(** ** Runs of [parse_gpx] and [main] in binary64 *)

Module FileRuns.
Import Files.

Abbreviation run64 := (@main py64 Decimal.read on_disk load stores).

(** The track points are read under their namespace, at depth three; the
    waypoint is not. *)
Lemma paris_parse :
  parse_gpx (F := py64) Decimal.read paris_gpx = Return Tracks.paris.
Proof. vm_compute. reflexivity. Qed.

Lemma paris_main :
  run64 ["gpx_to_svg.py"; "paris.gpx"]%string
  = {| stdout := ["SVG créé avec succès: paris.svg"; "Nombre de points: 2"]%string;
       status := Completed;
       drawing := Some ("paris.svg"%string,
                        svg_content "M 20.00,580.00 L 780.00,200.00") |}.
Proof. vm_compute. reflexivity. Qed.

Lemma missing_main :
  run64 ["gpx_to_svg.py"; "nope.gpx"]%string
  = {| stdout := ["Erreur: Le fichier nope.gpx n'existe pas"%string];
       status := Exited 1;
       drawing := None |}.
Proof. vm_compute. reflexivity. Qed.

(** The output directory does not exist: the script dies in [open], with
    nothing printed and nothing written. *)
Lemma unwritable_main :
  run64 ["gpx_to_svg.py"; "paris.gpx"; "missing/paris.svg"]%string
  = {| stdout := []; status := Traceback; drawing := None |}.
Proof. vm_compute. reflexivity. Qed.

Lemma parse_gpx_aborts_witness :
  exists f, parse_gpx (F := py64) Decimal.read torn_gpx = Uncaught f.
Proof.
  apply (parse_gpx_aborts (F := py64) Decimal.read torn_gpx
           (Element "trkpt" [("lat", "48.8570")]%string None [])).
  - vm_compute. right. left. reflexivity.
  - right. left. reflexivity.
Defined.

Lemma main_overwrites_input_witness :
  exists path content,
    drawing (run64 ["gpx_to_svg.py"; "PARIS.GPX"]%string) = Some (path, content)
    /\ path = "PARIS.GPX"%string.
Proof.
  exists "PARIS.GPX"%string, (svg_content "M 20.00,580.00 L 780.00,200.00").
  assert (H : drawing (run64 ["gpx_to_svg.py"; "PARIS.GPX"]%string)
              = Some ("PARIS.GPX"%string,
                      svg_content "M 20.00,580.00 L 780.00,200.00"))
    by (vm_compute; reflexivity).
  split; [exact H|].
  exact (main_overwrites_input (F := py64) Decimal.read on_disk load stores
           "gpx_to_svg.py" "PARIS.GPX" _ _ eq_refl H).
Defined.

Lemma main_output_name_witness :
  (exists path content,
      drawing (run64 ["gpx_to_svg.py"; "PARIS.GPX"; "out.svg"]%string)
      = Some (path, content)
      /\ path = "out.svg"%string)
  /\ (exists path content,
        drawing (run64 ["gpx_to_svg.py"; "paris.gpx"]%string) = Some (path, content)
        /\ path = "paris.svg"%string).
Proof.
  split.
  - exists "out.svg"%string, (svg_content "M 20.00,580.00 L 780.00,200.00").
    assert (H : drawing (run64 ["gpx_to_svg.py"; "PARIS.GPX"; "out.svg"]%string)
                = Some ("out.svg"%string,
                        svg_content "M 20.00,580.00 L 780.00,200.00"))
      by (vm_compute; reflexivity).
    split; [exact H|].
    exact (proj1 (main_output_name (F := py64) Decimal.read on_disk load stores
                    "gpx_to_svg.py") _ _ _ _ _ H).
  - exists "paris.svg"%string, (svg_content "M 20.00,580.00 L 780.00,200.00").
    assert (H : drawing (run64 ["gpx_to_svg.py"; "paris.gpx"]%string)
                = Some ("paris.svg"%string,
                        svg_content "M 20.00,580.00 L 780.00,200.00"))
      by (vm_compute; reflexivity).
    split; [exact H|].
    exact (proj2 (main_output_name (F := py64) Decimal.read on_disk load stores
                    "gpx_to_svg.py") "paris"%string _ _ eq_refl H).
Defined.

Lemma main_reports_witness :
  exists gpx_file root path content,
    nth_error ["gpx_to_svg.py"; "paris.gpx"]%string 1 = Some gpx_file
    /\ load gpx_file = Some root
    /\ drawing (run64 ["gpx_to_svg.py"; "paris.gpx"]%string)
       = Some (path, content)
    /\ stdout (run64 ["gpx_to_svg.py"; "paris.gpx"]%string)
       = [("SVG créé avec succès: " ++ path)%string;
          ("Nombre de points: "
           ++ dec (Z.of_nat (length (point_elements root))))%string].
Proof.
  apply (main_reports (F := py64) Decimal.read on_disk load stores).
  vm_compute. reflexivity.
Defined.


End FileRuns.


(** ** The drawing, in exact arithmetic *)

Module Geometry.
Import Exact ExactFacts Course.
Local Open Scope R_scope.
#[local] Existing Instance Rexact.

(** A value among the coordinates is the coordinate of a sample. *)
Lemma attained (f : sample -> R) (m : R) (first : sample) (rest : list sample) :
  In m (f first :: map f rest) ->
  exists q, In q (first :: rest) /\ f q = m.
Proof.
  intros [H|H].
  - exists first. split; [left; reflexivity | exact H].
  - apply in_map_iff in H as (q & Hq & Hin). exists q. split; [right|]; assumption.
Qed.

Ltac over_R :=
  match goal with |- @eq _ ?a ?b => change (@eq R a b) end.

Lemma draw_x (min_lat min_lon scale : R) (p : sample) :
  fst (draw min_lat min_lon scale p) = IZR margin + (lon_of p - min_lon) * scale.
Proof. reflexivity. Qed.

Lemma draw_y (min_lat min_lon scale : R) (p : sample) :
  snd (draw min_lat min_lon scale p)
  = IZR (height - margin) - (lat_of p - min_lat) * scale.
Proof. reflexivity. Qed.

(** X10. The drawing of a non-empty track always touches the left edge
    and the bottom edge of the frame: the westernmost sample is drawn at
    [x = margin], the southernmost at [y = height - margin]. *)
Theorem drawing_anchored (points : list sample) :
  points <> [] ->
  exists ns pf,
    normalize_coordinates points = Ok (ns, pf)
    /\ (exists p, In p ns /\ fst p = IZR margin)
    /\ (exists p, In p ns /\ snd p = IZR (height - margin)).
Proof.
  intros Hne. destruct points as [|first rest]; [contradiction|].
  eexists _, _. split; [apply normalize_exact|]. split.
  - destruct (attained lon_of _ first rest
                (py_min_from_in (map lon_of rest) (lon_of first))) as (q & Hq & E).
    eexists. split; [apply in_map; exact Hq|].
    rewrite draw_x, E. over_R. ring.
  - destruct (attained lat_of _ first rest
                (py_min_from_in (map lat_of rest) (lat_of first))) as (q & Hq & E).
    eexists. split; [apply in_map; exact Hq|].
    rewrite draw_y, E. over_R. ring.
Qed.

(** X11. When the samples differ in latitude and in longitude, the
    drawing fills the frame along one axis: a sample is drawn on the right
    edge, [x = width - margin], or on the top edge, [y = margin]. *)
Theorem drawing_fills_an_axis (points : list sample) :
  (exists p q, In p points /\ In q points /\ lat_of p < lat_of q) ->
  (exists p q, In p points /\ In q points /\ lon_of p < lon_of q) ->
  exists ns pf,
    normalize_coordinates points = Ok (ns, pf)
    /\ ((exists p, In p ns /\ fst p = IZR (width - margin))
        \/ (exists p, In p ns /\ snd p = IZR margin)).
Proof.
  intros (p1 & q1 & Hp1 & Hq1 & Hlat) (p2 & q2 & Hp2 & Hq2 & Hlon).
  destruct points as [|first rest]; [contradiction|].
  eexists _, _. split; [apply normalize_exact|]. cbv zeta.
  pose proof (Metric.lat_between first rest p1 Hp1) as B1.
  pose proof (Metric.lat_between first rest q1 Hq1) as B2.
  pose proof (Metric.lon_between first rest p2 Hp2) as B3.
  pose proof (Metric.lon_between first rest q2 Hq2) as B4.
  destruct (attained lon_of _ first rest
              (py_max_from_in (map lon_of rest) (lon_of first))) as (e & He & Ee).
  destruct (attained lat_of _ first rest
              (py_max_from_in (map lat_of rest) (lat_of first))) as (n & Hn & En).
  set (min_lat := py_min_from (lat_of first) (map lat_of rest)) in *.
  set (max_lat := py_max_from (lat_of first) (map lat_of rest)) in *.
  set (min_lon := py_min_from (lon_of first) (map lon_of rest)) in *.
  set (max_lon := py_max_from (lon_of first) (map lon_of rest)) in *.
  clearbody min_lat max_lat min_lon max_lon.
  destruct (Rlt_dec 0 (max_lat - min_lat)) as [_|H]; [|lra].
  destruct (Rlt_dec 0 (max_lon - min_lon)) as [_|H]; [|lra].
  destruct (min2_cases (IZR (height - 2 * margin) / (max_lat - min_lat))
              (IZR (width - 2 * margin) / (max_lon - min_lon)))
    as (_ & _ & [E|E]); rewrite E.
  - right. eexists. split; [apply in_map; exact Hn|].
    rewrite draw_y, En.
    change (IZR (height - 2 * margin)) with 560.
    change (IZR (height - margin)) with 580.
    change (IZR margin) with 20. over_R. field. lra.
  - left. eexists. split; [apply in_map; exact He|].
    rewrite draw_x, Ee.
    change (IZR (width - 2 * margin)) with 760.
    change (IZR (width - margin)) with 780.
    change (IZR margin) with 20. over_R. field. lra.
Qed.


(** With a zero range on one axis and real coordinates the scale is 1. *)
Lemma scale_one (lat_range lon_range : R) :
  0 <= lat_range <= 180 ->
  0 <= lon_range <= 360 ->
  lat_range = 0 \/ lon_range = 0 ->
  min2 (if Rlt_dec 0 lat_range then IZR (height - 2 * margin) / lat_range else 1)
       (if Rlt_dec 0 lon_range then IZR (width - 2 * margin) / lon_range else 1)
  = 1.
Proof.
  intros Hlat Hlon Hzero.
  change (IZR (height - 2 * margin)) with 560.
  change (IZR (width - 2 * margin)) with 760.
  assert (Hbig : forall extent range : R,
             0 < range -> range < extent -> 1 < extent / range).
  { intros extent range H0 H1.
    apply Rmult_lt_reg_r with range; [exact H0|].
    replace (extent / range * range) with extent by (field; lra). lra. }
  unfold min2. simpl. unfold Rltb.
  destruct (Rlt_dec 0 lat_range) as [Ha|Ha];
    destruct (Rlt_dec 0 lon_range) as [Ho|Ho]; try lra.
  - pose proof (Hbig 560 lat_range Ha ltac:(lra)) as H.
    destruct (Rlt_dec 1 (560 / lat_range)); [reflexivity | lra].
  - pose proof (Hbig 760 lon_range Ho ltac:(lra)) as H.
    destruct (Rlt_dec (760 / lon_range) 1); [lra | reflexivity].
  - destruct (Rlt_dec 1 1); reflexivity.
Qed.

(** X12. A track of real coordinates whose samples share one latitude, or
    one longitude, is not scaled: it is drawn at one unit per degree from
    the bottom-left corner of the frame, so a track along a meridian or a
    parallel is a segment of at most 180 or 360 units. *)
Theorem straight_track_unscaled (first : sample) (rest : list sample) :
  let points := first :: rest in
  let min_lat := py_min_from (lat_of first) (map lat_of rest) in
  let min_lon := py_min_from (lon_of first) (map lon_of rest) in
  Forall (fun p => -90 <= lat_of p <= 90 /\ -180 <= lon_of p <= 180) points ->
  Forall (fun p => lat_of p = lat_of first) rest
  \/ Forall (fun p => lon_of p = lon_of first) rest ->
  exists pf,
    normalize_coordinates points
    = Ok (map (fun p => (IZR margin + (lon_of p - min_lon),
                         IZR (height - margin) - (lat_of p - min_lat)))
              points,
          pf).
Proof.
  intros points min_lat min_lon Hreal Hflat.
  eexists. unfold points. rewrite normalize_exact. cbv zeta.
  fold min_lat min_lon.
  set (max_lat := py_max_from (lat_of first) (map lat_of rest)).
  set (max_lon := py_max_from (lon_of first) (map lon_of rest)).
  destruct (attained lat_of _ first rest
              (py_min_from_in (map lat_of rest) (lat_of first))) as (s & Hs & Es).
  destruct (attained lat_of _ first rest
              (py_max_from_in (map lat_of rest) (lat_of first))) as (n & Hn & En).
  destruct (attained lon_of _ first rest
              (py_min_from_in (map lon_of rest) (lon_of first))) as (w & Hw & Ew).
  destruct (attained lon_of _ first rest
              (py_max_from_in (map lon_of rest) (lon_of first))) as (e & He & Ee).
  fold min_lat in Es. fold max_lat in En. fold min_lon in Ew. fold max_lon in Ee.
  pose proof (Metric.lat_between first rest n Hn) as Bn.
  pose proof (Metric.lon_between first rest e He) as Be.
  fold min_lat max_lat in Bn. fold min_lon max_lon in Be.
  rewrite Forall_forall in Hreal.
  pose proof (Hreal s Hs) as Rs. pose proof (Hreal n Hn) as Rn.
  pose proof (Hreal w Hw) as Rw. pose proof (Hreal e He) as Re.
  assert (Hzero : max_lat - min_lat = 0 \/ max_lon - min_lon = 0).
  { assert (Hsame : forall (f : sample -> R) (q : sample),
               Forall (fun p => f p = f first) rest ->
               In q (first :: rest) -> f q = f first).
    { intros f q Hall [<-|Hin]; [reflexivity|].
      rewrite Forall_forall in Hall. apply Hall, Hin. }
    destruct Hflat as [Hall|Hall].
    - left. rewrite <- Es, <- En.
      rewrite (Hsame lat_of s Hall Hs), (Hsame lat_of n Hall Hn). over_R. ring.
    - right. rewrite <- Ew, <- Ee.
      rewrite (Hsame lon_of w Hall Hw), (Hsame lon_of e Hall He). over_R. ring. }
  rewrite scale_one; [| rewrite <- Es, <- En in *; lra
                      | rewrite <- Ew, <- Ee in *; lra | exact Hzero].
  apply f_equal. apply f_equal2; [|reflexivity]. apply map_ext. intros p.
  unfold draw. simpl. f_equal; over_R; ring.
Qed.

(** [min] and [max] move with the list. *)
Lemma py_min_from_shift (a : R) (xs : list R) :
  forall x : R,
    py_min_from (x + a) (map (fun v => v + a) xs) = py_min_from x xs + a.
Proof.
  unfold py_min_from. simpl. unfold Rltb.
  induction xs as [|v xs IH]; intros x; simpl; [reflexivity|].
  destruct (Rlt_dec (v + a) (x + a)), (Rlt_dec v x); try lra; apply IH.
Qed.

Lemma py_max_from_shift (a : R) (xs : list R) :
  forall x : R,
    py_max_from (x + a) (map (fun v => v + a) xs) = py_max_from x xs + a.
Proof.
  unfold py_max_from, gtb. simpl. unfold Rltb.
  induction xs as [|v xs IH]; intros x; simpl; [reflexivity|].
  destruct (Rlt_dec (x + a) (v + a)), (Rlt_dec x v); try lra; apply IH.
Qed.

Lemma hav_shift_lon (b a_lat a_lon b_lat b_lon : R) :
  hav a_lat (a_lon + b) (b_lat + 0) (b_lon + b) = hav a_lat a_lon b_lat b_lon.
Proof.
  unfold hav, hav_arg. cbv zeta. rewrite Rplus_0_r.
  replace (b_lon + b - (a_lon + b)) with (b_lon - a_lon) by ring.
  reflexivity.
Qed.

Lemma totals_shift_lon (b : R) (points : list sample) :
  forall cum lat lon : R,
    totals cum lat (lon + b) (map (shifted 0 b) points)
    = totals cum lat lon points.
Proof.
  induction points as [|p rest IH]; intros cum lat lon; [reflexivity|].
  cbn [map totals shifted lat_of lon_of fst snd].
  rewrite hav_shift_lon. f_equal.
  rewrite <- (IH _ (fst (fst p)) (snd (fst p))).
  rewrite Rplus_0_r. reflexivity.
Qed.

Lemma profile_of_shifted (a b : R) (points : list sample) :
  forall accs : list R,
    profile_of accs (map (shifted a b) points) = profile_of accs points.
Proof.
  unfold profile_of.
  induction points as [|p rest IH]; intros [|acc accs]; try reflexivity.
  simpl. f_equal. apply IH.
Qed.

Lemma extremes_shifted (a b : R) (first : sample) (rest : list sample) :
  let moved := map (shifted a b) rest in
  py_min_from (lat_of (shifted a b first)) (map lat_of moved)
  = py_min_from (lat_of first) (map lat_of rest) + a
  /\ py_max_from (lat_of (shifted a b first)) (map lat_of moved)
     = py_max_from (lat_of first) (map lat_of rest) + a
  /\ py_min_from (lon_of (shifted a b first)) (map lon_of moved)
     = py_min_from (lon_of first) (map lon_of rest) + b
  /\ py_max_from (lon_of (shifted a b first)) (map lon_of moved)
     = py_max_from (lon_of first) (map lon_of rest) + b.
Proof.
  cbv zeta.
  rewrite <- (py_min_from_shift a (map lat_of rest) (lat_of first)).
  rewrite <- (py_max_from_shift a (map lat_of rest) (lat_of first)).
  rewrite <- (py_min_from_shift b (map lon_of rest) (lon_of first)).
  rewrite <- (py_max_from_shift b (map lon_of rest) (lon_of first)).
  rewrite !map_map. repeat split.
Qed.

(** X13. The drawing depends on the positions of the samples relative to
    each other only: moving every sample by the same number of degrees
    leaves every drawing point where it was, and a move in longitude alone
    leaves the profile as it was too. *)
Theorem drawing_translation_invariant (a b : R) (points : list sample) :
  exists ns pf pf',
    normalize_coordinates points = Ok (ns, pf)
    /\ normalize_coordinates (map (shifted a b) points) = Ok (ns, pf')
    /\ (a = 0 -> pf' = pf).
Proof.
  destruct points as [|first rest].
  - exists [], [], []. repeat split.
  - eexists _, _, _. split; [apply normalize_exact|].
    change (map (shifted a b) (first :: rest))
      with (shifted a b first :: map (shifted a b) rest).
    split.
    + rewrite normalize_exact. cbv zeta.
      apply f_equal. apply f_equal2; [|reflexivity].
      destruct (extremes_shifted a b first rest) as (-> & -> & -> & ->).
      set (min_lat := py_min_from (lat_of first) (map lat_of rest)).
      set (max_lat := py_max_from (lat_of first) (map lat_of rest)).
      set (min_lon := py_min_from (lon_of first) (map lon_of rest)).
      set (max_lon := py_max_from (lon_of first) (map lon_of rest)).
      replace (max_lat + a - (min_lat + a)) with (max_lat - min_lat)
        by (over_R; ring).
      replace (max_lon + b - (min_lon + b)) with (max_lon - min_lon)
        by (over_R; ring).
      change (shifted a b first :: map (shifted a b) rest)
        with (map (shifted a b) (first :: rest)).
      rewrite map_map. apply map_ext. intros p.
      unfold draw, shifted. cbn [lat_of lon_of fst snd]. simpl.
      f_equal; over_R; ring.
    + intros ->.
      change (shifted 0 b first :: map (shifted 0 b) rest)
        with (map (shifted 0 b) (first :: rest)).
      rewrite profile_of_shifted.
      cbn [shifted lat_of lon_of fst snd].
      rewrite Rplus_0_r.
      rewrite (totals_shift_lon b (first :: rest) 0 (lat_of first) (lon_of first)).
      reflexivity.
Qed.

(** *** The distance *)

Lemma hav_symmetric (a_lat a_lon b_lat b_lon : R) :
  hav a_lat a_lon b_lat b_lon = hav b_lat b_lon a_lat a_lon.
Proof.
  unfold hav, hav_arg, real_radians. cbv zeta.
  assert (Hsq : forall x y : R, sin ((y - x) * (PI / 180) / 2)
                                * sin ((y - x) * (PI / 180) / 2)
                                = sin ((x - y) * (PI / 180) / 2)
                                  * sin ((x - y) * (PI / 180) / 2)).
  { intros x y.
    replace ((y - x) * (PI / 180) / 2) with (- ((x - y) * (PI / 180) / 2))
      by field.
    rewrite sin_neg. ring. }
  rewrite (Hsq a_lat b_lat), (Hsq a_lon b_lon).
  rewrite (Rmult_comm (cos (a_lat * (PI / 180)))). reflexivity.
Qed.

(** X14. In exact arithmetic the distance is the same in both
    directions. *)
Theorem haversine_symmetric (a_lat a_lon b_lat b_lon : R) :
  haversine_km a_lat a_lon b_lat b_lon = haversine_km b_lat b_lon a_lat a_lon.
Proof. rewrite !haversine_exact, hav_symmetric. reflexivity. Qed.

(** X15. In exact arithmetic the distance is never negative and never
    more than half the circumference of the sphere, [6371 * PI]. *)
Theorem haversine_bounded (a_lat a_lon b_lat b_lon : R) :
  exists d,
    haversine_km a_lat a_lon b_lat b_lon = Ok d /\ 0 <= d <= 6371 * PI.
Proof.
  eexists. split; [apply haversine_exact|].
  split; [apply hav_nonneg|].
  unfold hav.
  pose proof (asin_bound (sqrt (hav_arg a_lat a_lon b_lat b_lon))) as [_ H].
  lra.
Qed.

(** X16. Along a meridian the distance is the arc of the difference in
    latitude: [6371 * |b_lat - a_lat| * PI / 180], for a difference of at
    most 180 degrees. *)
Theorem haversine_meridian (a_lat b_lat lon : R) :
  Rabs (b_lat - a_lat) <= 180 ->
  haversine_km a_lat lon b_lat lon
  = Ok (6371 * (Rabs (b_lat - a_lat) * (PI / 180))).
Proof.
  intros Hd. rewrite haversine_exact. f_equal. unfold hav. f_equal.
  unfold hav_arg, real_radians. cbv zeta.
  replace ((lon - lon) * (PI / 180) / 2) with 0 by field.
  rewrite sin_0, !Rmult_0_r, Rplus_0_r.
  set (x := (b_lat - a_lat) * (PI / 180) / 2).
  change (sin x * sin x) with (Rsqr (sin x)).
  rewrite sqrt_Rsqr_abs.
  assert (Hpi : 0 < PI) by apply PI_RGT_0.
  assert (Hx : - (PI / 2) <= x <= PI / 2).
  { assert (Hb : -180 <= b_lat - a_lat <= 180)
      by (unfold Rabs in Hd; destruct (Rcase_abs (b_lat - a_lat)); lra).
    unfold x. split; nra. }
  assert (Hasin : asin (Rabs (sin x)) = Rabs x).
  { destruct (Rle_dec 0 x) as [H0|H0].
    - rewrite (Rabs_pos_eq x) by exact H0.
      rewrite Rabs_pos_eq by (apply sin_ge_0; lra).
      apply asin_sin; lra.
    - rewrite (Rabs_left x) by lra.
      assert (Hs : 0 <= sin (- x)) by (apply sin_ge_0; lra).
      rewrite sin_neg in Hs.
      rewrite Rabs_left1 by lra.
      rewrite <- sin_neg. apply asin_sin; lra. }
  rewrite Hasin. unfold x, Rabs.
  destruct (Rcase_abs (b_lat - a_lat)),
    (Rcase_abs ((b_lat - a_lat) * (PI / 180) / 2)); try field; exfalso; nra.
Qed.


(** *** The length of the track *)

Lemma last_totals (points : list sample) :
  forall (p0 : sample) (cum d : R),
    points <> [] ->
    last (totals cum (lat_of p0) (lon_of p0) points) d
    = cum + course (p0 :: points).
Proof.
  induction points as [|p rest IH]; intros p0 cum d Hne; [contradiction|].
  destruct rest as [|q rest].
  - change (cum + leg p0 p = cum + (leg p0 p + 0)). over_R. ring.
  - change (totals cum (lat_of p0) (lon_of p0) (p :: q :: rest))
      with (cum + leg p0 p
            :: totals (cum + leg p0 p) (lat_of p) (lon_of p) (q :: rest)).
    change (course (p0 :: p :: q :: rest))
      with (leg p0 p + course (p :: q :: rest)).
    rewrite <- Rplus_assoc, <- (IH p (cum + leg p0 p) d) by discriminate.
    reflexivity.
Qed.

Lemma course_snoc (points : list sample) (q : sample) :
  course (points ++ [q])
  = course points
    + match points with [] => 0 | _ => leg (last points q) q end.
Proof.
  induction points as [|p rest IH].
  - change (0 = 0 + 0). over_R. ring.
  - destruct rest as [|p' rest].
    + change (leg p q + 0 = 0 + leg p q). over_R. ring.
    + change (course ((p :: p' :: rest) ++ [q]))
        with (leg p p' + course ((p' :: rest) ++ [q])).
      rewrite IH.
      change (course (p :: p' :: rest)) with (leg p p' + course (p' :: rest)).
      change (last (p :: p' :: rest) q) with (last (p' :: rest) q).
      over_R. ring.
Qed.

Lemma course_rev (points : list sample) : course (rev points) = course points.
Proof.
  induction points as [|p rest IH]; [reflexivity|].
  simpl rev. rewrite course_snoc, IH.
  destruct rest as [|q rest].
  - change (0 + 0 = 0). over_R. ring.
  - simpl rev. rewrite last_last.
    destruct (rev rest ++ [q]) eqn:E; [destruct (rev rest); discriminate E|].
    change (course (p :: q :: rest)) with (leg p q + course (q :: rest)).
    unfold leg. rewrite (hav_symmetric (lat_of q)). over_R. ring.
Qed.

Lemma last_map_round2 (accs : list R) :
  last (map real_round2 accs) 0 = real_round2 (last accs 0).
Proof.
  induction accs as [|acc [|acc' accs] IH]; simpl.
  - symmetry. apply real_round2_0.
  - reflexivity.
  - exact IH.
Qed.

(** The last distance of the profile is the rounded length of the
    track. *)
Lemma final_distance (first : sample) (rest : list sample) :
  last (map fst (profile_of (totals 0 (lat_of first) (lon_of first) (first :: rest))
                   (first :: rest))) 0
  = real_round2 (course (first :: rest)).
Proof.
  rewrite profile_of_distances by apply totals_length.
  rewrite last_map_round2, last_totals by discriminate.
  change (course (first :: first :: rest))
    with (leg first first + course (first :: rest)).
  unfold leg at 1. rewrite hav_same. f_equal. over_R. ring.
Qed.

(** X17. In exact arithmetic the track is as long in one direction as in
    the other: the last distance of the profile of the reversed list of
    samples is that of the list. *)
Theorem length_reversible (points : list sample) :
  exists ns pf ns' pf',
    normalize_coordinates points = Ok (ns, pf)
    /\ normalize_coordinates (rev points) = Ok (ns', pf')
    /\ last (map fst pf') 0 = last (map fst pf) 0.
Proof.
  destruct points as [|first rest].
  - exists [], [], [], []. repeat split.
  - destruct (rev (first :: rest)) as [|first' rest'] eqn:E.
    { apply (f_equal (@length _)) in E. rewrite length_rev in E. discriminate E. }
    eexists _, _, _, _.
    split; [apply normalize_exact|]. split; [apply normalize_exact|].
    rewrite !final_distance, <- E, course_rev. reflexivity.
Qed.

Lemma drawing_anchored_witness :
  exists ns pf,
    normalize_coordinates [(0, 0, 0); (1 / 2, 13 / 10, 0)] = Ok (ns, pf)
    /\ (exists p, In p ns /\ fst p = IZR margin)
    /\ (exists p, In p ns /\ snd p = IZR (height - margin)).
Proof. apply drawing_anchored. discriminate. Defined.

Lemma drawing_fills_an_axis_witness :
  exists ns pf,
    normalize_coordinates [(0, 0, 0); (1 / 2, 13 / 10, 0)] = Ok (ns, pf)
    /\ ((exists p, In p ns /\ fst p = IZR (width - margin))
        \/ (exists p, In p ns /\ snd p = IZR margin)).
Proof.
  apply drawing_fills_an_axis;
    exists (0, 0, 0), (1 / 2, 13 / 10, 0);
    (split; [left; reflexivity|]);
    (split; [right; left; reflexivity|]);
    unfold lat_of, lon_of; simpl; lra.
Defined.

Lemma straight_track_unscaled_witness :
  exists pf,
    normalize_coordinates [(49, 2, 35); (48, 2, 40)]
    = Ok ([(20, 579); (20, 580)], pf).
Proof.
  destruct (straight_track_unscaled (49, 2, 35) [(48, 2, 40)]) as [pf H].
  - repeat (apply Forall_cons; [unfold lat_of, lon_of; simpl; lra|]).
    apply Forall_nil.
  - right. apply Forall_cons; [reflexivity | apply Forall_nil].
  - exists pf. refine (eq_trans H _). apply f_equal. apply f_equal2; [|reflexivity].
    unfold py_min_from. cbn [map fold_left lat_of lon_of fst snd].
    simpl ltb. unfold Rltb.
    destruct (Rlt_dec 48 49) as [_|C]; [|exfalso; lra].
    destruct (Rlt_dec 2 2) as [C|_]; [exfalso; lra|].
    change (IZR margin) with 20. change (IZR (height - margin)) with 580.
    repeat (apply f_equal2; [apply f_equal2; over_R; ring|]).
    reflexivity.
Defined.

Lemma haversine_meridian_witness :
  haversine_km 48 2 49 2 = Ok (6371 * (Rabs (49 - 48) * (PI / 180))).
Proof.
  apply haversine_meridian.
  unfold Rabs. destruct (Rcase_abs (49 - 48)); lra.
Defined.

End Geometry.


(** ** The profile of the first samples *)

Section Prefix.
Context {F : PyFloat} {L : PyLaws F}.

Lemma running_prefix (a b : list sample) :
  forall (cum lat lon : num) (accs : list num),
    running cum lat lon (a ++ b) accs ->
    running cum lat lon a (firstn (length a) accs).
Proof.
  induction a as [|p a IH]; intros cum lat lon accs H; simpl.
  - constructor.
  - inversion H as [|cum' lat' lon' p' rest h accs' Hh Hrest]; subst.
    simpl. apply running_cons; [exact Hh|]. apply IH. exact Hrest.
Qed.

Lemma entries_prefix (a b : list sample) :
  forall (accs : list num) (pf : list entry),
    entries accs (a ++ b) pf ->
    entries (firstn (length a) accs) a (firstn (length a) pf).
Proof.
  induction a as [|p a IH]; intros accs pf H; simpl.
  - constructor.
  - inversion H as [|acc accs' p' rest d e es Hd He Hes]; subst.
    simpl. apply entries_cons; [exact Hd | exact He |]. apply IH. exact Hes.
Qed.

(** X18. The profile is built from the start of the track: when the
    function returns on a track, it returns on every non-empty beginning
    of it, and the profile of the beginning is the beginning of the
    profile.  (The drawing points are not kept: the scale changes with the
    samples that follow.) *)
Theorem profile_of_beginning (points more : list sample)
  (ns : list point) (pf : list entry) :
  points <> [] ->
  normalize_coordinates (points ++ more) = Ok (ns, pf) ->
  exists ns',
    normalize_coordinates points = Ok (ns', firstn (length points) pf).
Proof.
  intros Hne H. destruct points as [|first rest]; [contradiction|].
  change ((first :: rest) ++ more) with (first :: (rest ++ more)) in H.
  apply normalize_Ok in H as (sl & so & accs & _ & _ & Hrun & Hent & _).
  destruct (axis_scale_no_zero_division (height - 2 * margin)
    (sub (py_max_from (lat_of first) (map lat_of rest))
         (py_min_from (lat_of first) (map lat_of rest)))) as [sl' Hsl].
  destruct (axis_scale_no_zero_division (width - 2 * margin)
    (sub (py_max_from (lon_of first) (map lon_of rest))
         (py_min_from (lon_of first) (map lon_of rest)))) as [so' Hso].
  eexists.
  apply (normalize_run first rest sl' so'
           (firstn (length (first :: rest)) accs)); [exact Hsl | exact Hso | |].
  - apply (running_prefix (first :: rest) more). exact Hrun.
  - apply (entries_prefix (first :: rest) more). exact Hent.
Qed.

End Prefix.

Module MoreRuns.
Import B64 Tracks.

Lemma profile_of_beginning_witness :
  exists ns',
    normalize_coordinates (F := py64) [(lit 48.8566, lit 2.3522, lit 35)]
    = Ok (ns', firstn 1 paris_profile).
Proof.
  apply (profile_of_beginning (F := py64) (L := binary64_laws series_libm)
           [(lit 48.8566, lit 2.3522, lit 35)]
           [(lit 48.8570, lit 2.3530, lit 40)] paris_points paris_profile).
  - discriminate.
  - exact Runs.paris_run.
Defined.

End MoreRuns.

(** ** A single sample *)

Section Single.
Import B64 Binary64Facts.
Variable M : Libm.

(** X19. A track of one sample is drawn as a path that only moves to the
    bottom-left corner of the frame (nothing is stroked), with distance
    0.0: in binary64, for a finite sample and a C library that keeps
    zero. *)
Theorem single_sample_binary64 (lat lon ele : f64) :
  c_sin M pzero = pzero ->
  c_asin M pzero = pzero ->
  is_finite lat = true ->
  is_finite lon = true ->
  is_finite ele = true ->
  is_finite (fmul (c_cos M (fradians lat)) (c_cos M (fradians lat))) = true ->
  exists (ns : list (@point (binary64 M))) (n : Z),
    normalize_coordinates (F := binary64 M) [(lat, lon, ele)]
    = Ok (ns, [(pzero, n)])
    /\ path_data ns = "M 20.00,580.00"%string.
Proof.
  intros Hsin Hasin Hlat Hlon Hele Hcos.
  destruct (float_round0_finite ele Hele) as [n Hn].
  exists [(of_Z margin, of_Z (height - margin))], n.
  split; [|vm_compute; reflexivity].
  pose proof (haversine_same M Hsin Hasin lat lon Hlat Hlon Hcos) as Hh.
  etransitivity.
  - apply (normalize_run (F := binary64 M) (lat, lon, ele) []
             (of_Z 1) (of_Z 1) [pzero] [(pzero, n)]).
    + cbn [map lat_of lon_of fst snd]. unfold py_max_from, py_min_from. simpl fold_left.
      change (@sub (binary64 M)) with fsub. rewrite (fsub_diag lat Hlat). reflexivity.
    + cbn [map lat_of lon_of fst snd]. unfold py_max_from, py_min_from. simpl fold_left.
      change (@sub (binary64 M)) with fsub. rewrite (fsub_diag lon Hlon). reflexivity.
    + change (running (F := binary64 M) (of_Z 0) lat lon
                [(lat, lon, ele)] [fadd (of_Z 0) pzero]).
      apply (running_cons (F := binary64 M) _ _ _ (lat, lon, ele) _ pzero);
        [exact Hh|].
      constructor.
    + apply (entries_cons (F := binary64 M)); [reflexivity | exact Hn |].
      constructor.
  - unfold py_min_from. cbn [map fold_left].
    unfold draw. cbn [lat_of lon_of fst snd].
    change (@sub (binary64 M)) with fsub.
    rewrite (fsub_diag lat Hlat), (fsub_diag lon Hlon). reflexivity.
Qed.

End Single.

Lemma single_sample_binary64_witness :
  exists (ns : list (@point py64)) (n : Z),
    normalize_coordinates (F := py64)
      [(B64.lit 45.8326, B64.lit 6.8652, B64.lit 4805.59)]
    = Ok (ns, [(S754_zero false, n)])
    /\ path_data ns = "M 20.00,580.00"%string.
Proof.
  apply (single_sample_binary64 B64.series_libm); vm_compute; reflexivity.
Defined.
